(** * The note-generation pipeline of the YouTube-notes backend

    A shallow embedding of [apps/backend/modules/notes/service.py] (class
    [NoteService]) and of the row and schema types of
    [apps/backend/modules/notes/model.py], together with the properties the
    specification states about them.

    Conventions.
    - A Python [str] is a list of Unicode code points ([list N]).
    - A Python computation is a function from the mutable state (database
      session, scratch directory, clock, trace of calls to outside services)
      to an outcome and a new state; an outcome is a value or a raised
      exception.  State changes made before an exception is raised are kept,
      as in Python.
    - What lives outside the repository (the video platform, the caption
      download, the speech-to-text and generative-model services, the XML and
      JSON parsers, the printing of an exception) is a field of the record
      [World]; every theorem holds for every world. *)

From stdpp Require Import base option list gmap sets strings pretty sorting.
From Stdlib Require Import ZArith NArith Lia.

Set Warnings "-register-all".
Local Open Scope N_scope.
Local Open Scope list_scope.

(* ===================================================================== *)
(** * Python strings *)
(* ===================================================================== *)

Module PyStr.

Definition str : Type := list N.

(** A literal of the source, code point by code point. *)
Definition lit (s : string) : str :=
  map Ascii.N_of_ascii (String.list_ascii_of_string s).

(** [str.isspace] on one character, which is also the class [\s] of [re] on
    [str] patterns and the set that [str.strip()] removes. *)
Definition isspace (c : N) : bool :=
  ((9 <=? c) && (c <=? 13)) || ((28 <=? c) && (c <=? 32))
  || (c =? 133) || (c =? 160) || (c =? 5760)
  || ((8192 <=? c) && (c <=? 8202))
  || (c =? 8232) || (c =? 8233) || (c =? 8239) || (c =? 8287) || (c =? 12288).

Definition sp : N := 32.
(** The double quote. *)
Definition dq : N := 34.

Fixpoint lstrip (s : str) : str :=
  match s with
  | [] => []
  | c :: s' => if isspace c then lstrip s' else s
  end.

Fixpoint rstrip (s : str) : str :=
  match s with
  | [] => []
  | c :: s' =>
      match rstrip s' with
      | [] => if isspace c then [] else [c]
      | r => c :: r
      end
  end.

(** [s.strip()] *)
Definition strip (s : str) : str := lstrip (rstrip s).

(** [re.sub(r'\s+', ' ', s)]: every maximal run of whitespace becomes one
    space.  [prev] tells that the previous character was whitespace. *)
Fixpoint sub_ws (prev : bool) (s : str) : str :=
  match s with
  | [] => []
  | c :: s' =>
      if isspace c
      then (if prev then sub_ws true s' else sp :: sub_ws true s')
      else c :: sub_ws false s'
  end.

Definition collapse_ws (s : str) : str := sub_ws false s.

(** [sep.join(parts)] *)
Fixpoint join (sep : str) (parts : list str) : str :=
  match parts with
  | [] => []
  | [p] => p
  | p :: ps => p ++ sep ++ join sep ps
  end.

Fixpoint startswith (s p : str) {struct p} : bool :=
  match p, s with
  | [], _ => true
  | _ :: _, [] => false
  | a :: p', b :: s' => (a =? b) && startswith s' p'
  end.

(** [s.endswith(p)] *)
Definition endswith (s p : str) : bool :=
  (length p <=? length s)%nat && bool_decide (drop (length s - length p) s = p).

(** [s[n:]] and [s[:n]] for [n >= 0], and [s[:-n]]. *)
Definition slice_from (n : nat) (s : str) : str := drop n s.
Definition slice_to (n : nat) (s : str) : str := take n s.
Definition slice_to_neg (n : nat) (s : str) : str := take (length s - n) s.

(** [s.replace(c, r)] for a one-character [c]. *)
Definition replace_char (c : N) (r : str) (s : str) : str :=
  flat_map (fun x => if x =? c then r else [x]) s.

(** [s.split(c)[-1]]: what follows the last [c], or all of [s]. *)
Fixpoint split_last (c : N) (s : str) : str :=
  match s with
  | [] => []
  | x :: s' =>
      if bool_decide (c ∈ s') then split_last c s'
      else if x =? c then s' else s
  end.

(** ** The pattern [<text[^>]*>([^<]+)</text>]

    [match_at s] matches the pattern at the start of [s] and gives the
    captured group and the length of the whole match.  Both repetitions are
    greedy and each is followed by a character outside its class, so a
    shorter repetition can never lead to a match: no backtracking is
    needed. *)

Fixpoint take_until (c : N) (s : str) : str :=
  match s with
  | [] => []
  | x :: s' => if x =? c then [] else x :: take_until c s'
  end.

Definition lt_sign : N := 60.
Definition gt_sign : N := 62.

Definition match_at (s : str) : option (str * nat) :=
  if startswith s (lit "<text") then
    let s1 := drop 5 s in
    let attrs := take_until gt_sign s1 in
    match drop (length attrs) s1 with
    | g :: s3 =>
        if g =? gt_sign then
          let body := take_until lt_sign s3 in
          match body with
          | [] => None
          | _ :: _ =>
              if startswith (drop (length body) s3) (lit "</text>")
              then Some (body, (5 + length attrs + 1 + length body + 7)%nat)
              else None
          end
        else None
    | [] => None
    end
  else None.

(** [re.findall(pattern, s)]: scan from the left; after a match go on
    behind it, otherwise one character further.  [skip] counts the
    characters of the last match still to be passed. *)
Fixpoint findall_from (skip : nat) (s : str) : list str :=
  match s with
  | [] => []
  | _ :: s' =>
      match skip with
      | S k => findall_from k s'
      | O =>
          match match_at s with
          | Some (g, len) => g :: findall_from (len - 1) s'
          | None => findall_from 0 s'
          end
      end
  end.

Definition findall_text (s : str) : list str := findall_from 0 s.

(** [not s or not s.strip()] *)
Definition blank (s : str) : bool :=
  match s with
  | [] => true
  | _ => match strip s with [] => true | _ => false end
  end.

End PyStr.
Import PyStr.

(* ===================================================================== *)
(** * Python values, exceptions and outcomes *)
(* ===================================================================== *)

(** What [json.loads] can produce.  A float is kept as its printed form
    together with whether it is non-zero: the service only ever prints a
    value or tests its truth. *)
Inductive pyval : Type :=
  | PNone
  | PBool (b : bool)
  | PInt (z : Z)
  | PFloat (nonzero : bool) (repr : str)
  | PStr (s : str)
  | PList (l : list pyval)
  | PDict (d : list (str * pyval)).

(** Truth value of an object, as tested by [not v] and [if v]. *)
Definition truthy (v : pyval) : bool :=
  match v with
  | PNone => false
  | PBool b => b
  | PInt z => negb (z =? 0)%Z
  | PFloat nz _ => nz
  | PStr s => match s with [] => false | _ => true end
  | PList l => match l with [] => false | _ => true end
  | PDict d => match d with [] => false | _ => true end
  end.

Definition type_name (v : pyval) : str :=
  match v with
  | PNone => lit "NoneType"
  | PBool _ => lit "bool"
  | PInt _ => lit "int"
  | PFloat _ _ => lit "float"
  | PStr _ => lit "str"
  | PList _ => lit "list"
  | PDict _ => lit "dict"
  end.

(** [d.get(k)] on the items of a dict. *)
Fixpoint dict_get (k : str) (d : list (str * pyval)) : option pyval :=
  match d with
  | [] => None
  | (k', v) :: d' => if bool_decide (k' = k) then Some v else dict_get k d'
  end.

(** The exceptions the service tells apart: the framework's
    [HTTPException], [xml.etree.ElementTree.ParseError],
    [json.JSONDecodeError], and any other [Exception] with its message. *)
Inductive exn : Type :=
  | HTTPException (status_code : nat) (detail : str)
  | ParseError (msg : str)
  | JSONDecodeError (msg : str)
  | PyError (msg : str).

Definition HTTP_404_NOT_FOUND : nat := 404.
Definition HTTP_403_FORBIDDEN : nat := 403.
Definition HTTP_500_INTERNAL_SERVER_ERROR : nat := 500.

Inductive outcome (A : Type) : Type :=
  | Return (a : A)
  | Raise (e : exn).
Arguments Return {A} a.
Arguments Raise {A} e.

(** ** The element tree built by [ET.fromstring] *)

Inductive Element : Type :=
  mkElement (tag : str) (attrib : list (str * str)) (text : option str)
            (children : list Element) (tail : option str).

Definition tag (e : Element) : str := let 'mkElement t _ _ _ _ := e in t.
Definition text (e : Element) : option str := let 'mkElement _ _ x _ _ := e in x.
Definition children (e : Element) : list Element := let 'mkElement _ _ _ c _ := e in c.

(** [e.iter()]: the element and all elements below it, in document order. *)
Fixpoint iter (e : Element) : list Element :=
  match e with
  | mkElement _ _ _ cs _ =>
      e :: (fix go (l : list Element) : list Element :=
              match l with
              | [] => []
              | c :: l' => iter c ++ go l'
              end) cs
  end.

(** [root.findall('.//' + name)]: every element strictly below [root] whose
    tag is [name], in document order ([root] itself is never selected by a
    descendant path). *)
Definition findall (name : str) (root : Element) : list Element :=
  filter (fun e => tag e = name) (flat_map iter (children root)).

(* ===================================================================== *)
(** * Rows and schemas ([modules/notes/model.py]) *)
(* ===================================================================== *)

(** A row of table [notes].  The three narrative columns hold whatever
    object the service assigns (a table model does not validate);
    [key_points] and [timestamps] hold JSON text. *)
Record Note : Type := mkNote {
  id : nat;
  user_id : nat;
  youtube_url : str;
  video_title : pyval;
  channel_name : pyval;
  summary : pyval;
  key_points : option str;
  timestamps : option str;
  duration_in_seconds : option Z;
  thumbnail_url : option str;
  views : option Z;
  likes : option Z;
  publish_date : option Z;
  created_at : Z;
  updated_at : Z
}.

(** [NoteCreate] *)
Record NoteCreate : Type := mkNoteCreate { nc_youtube_url : str }.

(** [NoteUpdate]: every field is optional; the outer [option] tells whether
    the request set the field at all ([exclude_unset]), the inner one
    whether it was set to [None]. *)
Record NoteUpdate : Type := mkNoteUpdate {
  nu_video_title : option (option str);
  nu_channel_name : option (option str);
  nu_summary : option (option str);
  nu_key_points : option (option (list str));
  nu_timestamps : option (option (list (list (str * pyval))));
  nu_duration_in_seconds : option (option Z);
  nu_thumbnail_url : option (option str);
  nu_views : option (option Z);
  nu_likes : option (option Z);
  nu_publish_date : option (option Z)
}.

(* ===================================================================== *)
(** * The outside world and the mutable state *)
(* ===================================================================== *)

(** A caption track of the platform. *)
Record Caption : Type := mkCaption { code : str; url : str }.

(** The platform's video record. *)
Record VideoInfo : Type := mkVideoInfo {
  title : str;
  author : str;
  length_ : option Z;
  yt_thumbnail_url : option str;
  yt_views : option Z;
  yt_likes : option Z;
  yt_publish_date : option Z
}.

(** The answer to the caption download. *)
Record Response : Type := mkResponse {
  status_error : option exn;   (** what [raise_for_status()] raises, if anything *)
  response_text : str
}.

(** What the prompt is built from: the four escaped inputs. *)
Record Prompt : Type := mkPrompt {
  safe_video_title : str;
  safe_channel_name : str;
  safe_video_url : str;
  safe_subtitle_text : str
}.

(** The dict returned by the transcript acquirer. *)
Record Video : Type := mkVideo {
  v_title : str;
  v_caption : str;
  v_channel_name : str;
  v_duration_in_seconds : option Z;
  v_thumbnail_url : option str;
  v_views : option Z;
  v_likes : option Z;
  v_publish_date : option Z
}.

Record World : Type := mkWorld {
  (** [str(e)] of an [HTTPException] with this status and detail *)
  HTTPException_str : nat -> str -> str;
  (** [str(v)] of an object that is not a [str] *)
  py_repr : pyval -> str;
  json_loads : str -> outcome pyval;
  json_dumps : pyval -> str;
  ET_fromstring : str -> outcome Element;
  (** [YouTube(url).captions] *)
  yt_captions : str -> outcome (list Caption);
  (** the attributes [title], [author], [length], ... of [YouTube(url)] *)
  yt_info : str -> outcome VideoInfo;
  requests_get : str -> outcome Response;
  (** [YouTube(url).streams.get_audio_only()]: its [default_filename] *)
  yt_audio_only : str -> outcome str;
  (** failure of [ys.download], of [AudioSegment.from_file], of [export] *)
  download_error : str -> option exn;
  from_file_error : str -> option exn;
  export_error : str -> option exn;
  (** the speech-to-text answer for the file at a path: channels, each a
      list of alternative transcripts *)
  transcribe_file : str -> outcome (list (list str));
  (** [generate_content(...).text] *)
  generate_content : Prompt -> outcome (option str);
  (** [datetime.utcnow()] at the n-th reading of the clock *)
  utcnow : nat -> Z;
  temp_audio_dir : str;
  (** failure of [session.commit()] when this row is written *)
  commit_error : Note -> option exn
}.

(** Calls that leave the process. *)
Inductive Call : Type :=
  | CallYouTube (video_url : str)
  | CallRequestsGet (caption_url : str)
  | CallDownload (video_url : str)
  | CallDeepgram (path : str)
  | CallGemini (p : Prompt).

Record State : Type := mkState {
  db : list Note;          (** rows of [notes], oldest first *)
  next_id : nat;           (** next primary key *)
  files : gset str;        (** paths present in the scratch directory *)
  clock : nat;             (** readings of the clock so far *)
  trace : list Call        (** outside calls made so far, oldest first *)
}.

(** ** Computations *)

Definition M (A : Type) : Type := State -> outcome A * State.

Definition ret {A} (a : A) : M A := fun st => (Return a, st).
Definition raise {A} (e : exn) : M A := fun st => (Raise e, st).
Definition bind {A B} (m : M A) (k : A -> M B) : M B :=
  fun st =>
    match m st with
    | (Return a, st') => k a st'
    | (Raise e, st') => (Raise e, st')
    end.
(** [try: m  except Exception as e: h e] *)
Definition try_except {A} (m : M A) (h : exn -> M A) : M A :=
  fun st =>
    match m st with
    | (Return a, st') => (Return a, st')
    | (Raise e, st') => h e st'
    end.
(** Lift an answer of the world. *)
Definition lift {A} (o : outcome A) : M A := fun st => (o, st).
Definition fail_if (o : option exn) : M unit :=
  match o with Some e => raise e | None => ret tt end.

Declare Scope py_scope.
Delimit Scope py_scope with py.
Notation "x <- c1 ;; c2" := (bind c1 (fun x => c2))
  (at level 100, c1 at next level, right associativity) : py_scope.
Notation "c1 ;; c2" := (bind c1 (fun _ => c2))
  (at level 100, right associativity) : py_scope.
Local Open Scope py_scope.

(** The state after one more outside call. *)
Definition with_call (c : Call) (st : State) : State :=
  mkState (db st) (next_id st) (files st) (clock st) (trace st ++ [c]).
Definition log (c : Call) : M unit := fun st => (Return tt, with_call c st).
Definition set_files (f : gset str -> gset str) : M unit :=
  fun st => (Return tt, mkState (db st) (next_id st) (f (files st)) (clock st) (trace st)).
Definition now (w : World) : M Z :=
  fun st => (Return (utcnow w (clock st)),
             mkState (db st) (next_id st) (files st) (S (clock st)) (trace st)).

(** [str(e)] *)
Definition exn_str (w : World) (e : exn) : str :=
  match e with
  | HTTPException c d => HTTPException_str w c d
  | ParseError m | JSONDecodeError m | PyError m => m
  end.

(** [str(v)] *)
Definition py_str (w : World) (v : pyval) : str :=
  match v with
  | PStr s => s
  | _ => py_repr w v
  end.

(* ===================================================================== *)
(** * [NoteService] ([modules/notes/service.py]) *)
(* ===================================================================== *)

(** ** Caption parser: [_extract_text_from_xml_transcript] *)

(** The loop over the [<text>] elements: the stripped [.text] of each one
    that has a non-empty [.text]. *)
Definition text_parts (elems : list Element) : list str :=
  flat_map (fun text_elem =>
              match text text_elem with
              | Some (c :: t) => [strip (c :: t)]
              | _ => []
              end) elems.

(** [re.sub(r'\s+', ' ', s).strip()] *)
Definition clean_whitespace (s : str) : str := strip (collapse_ws s).

Definition _extract_text_from_xml_transcript (w : World) (xml_content : str) : M str :=
  try_except
    (root <- lift (ET_fromstring w xml_content) ;;
     let extracted_text := join (lit " ") (text_parts (findall (lit "text") root)) in
     ret (clean_whitespace extracted_text))
    (fun e =>
       match e with
       | ParseError _ =>
           let matches := findall_text xml_content in
           match matches with
           | _ :: _ => ret (clean_whitespace (join (lit " ") (map strip matches)))
           | [] => ret xml_content
           end
       | _ => ret xml_content
       end).

(** ** Audio transcriber: [_get_subtitle_from_audio] *)

(** [os.path.join(a, b)] on POSIX paths. *)
Definition os_path_join (a b : str) : str :=
  if startswith b (lit "/") then b
  else if bool_decide (a = []) || endswith a (lit "/") then a ++ b
  else a ++ lit "/" ++ b.

Definition no_such_file (p : str) : exn :=
  PyError (lit "[Errno 2] No such file or directory: '" ++ p ++ lit "'").

(** [os.remove(p)] *)
Definition os_remove (p : str) : M unit :=
  fun st =>
    if bool_decide (p ∈ files st)
    then set_files (fun f => f ∖ {[p]}) st
    else (Raise (no_such_file p), st).

(** [open(p, "rb")] and reading it *)
Definition open_rb (p : str) : M unit :=
  fun st =>
    if bool_decide (p ∈ files st) then (Return tt, st) else (Raise (no_such_file p), st).

(** [l[0]] *)
Definition index0 {A} (l : list A) : M A :=
  match l with
  | x :: _ => ret x
  | [] => raise (PyError (lit "list index out of range"))
  end.

Definition equals_sign : N := 61.

(** The two scratch paths of a run. *)
Definition audio_file_path (w : World) (video_url : str) : str :=
  os_path_join (temp_audio_dir w) (split_last equals_sign video_url ++ lit ".wav").
Definition downloaded_path (w : World) (default_filename : str) : str :=
  os_path_join (temp_audio_dir w) default_filename.

(** The inner [try] block: the transcription call and the removal of the
    normalized file. *)
Definition convert_audio_to_text (w : World) (wav : str) : M str :=
  try_except
    (open_rb wav ;;
     log (CallDeepgram wav) ;;
     channels <- lift (transcribe_file w wav) ;;
     alternatives <- index0 channels ;;
     transcript <- index0 alternatives ;;
     os_remove wav ;;
     ret transcript)
    (fun e => raise (HTTPException HTTP_500_INTERNAL_SERVER_ERROR
                       (lit "Failed to convert audio to text: " ++ exn_str w e))).

Definition _get_subtitle_from_audio (w : World) (video_url : str) : M str :=
  try_except
    (log (CallYouTube video_url) ;;
     default_filename <- lift (yt_audio_only w video_url) ;;
     log (CallDownload video_url) ;;
     fail_if (download_error w video_url) ;;
     set_files (fun f => f ∪ {[downloaded_path w default_filename]}) ;;
     fail_if (from_file_error w (downloaded_path w default_filename)) ;;
     fail_if (export_error w (audio_file_path w video_url)) ;;
     set_files (fun f => f ∪ {[audio_file_path w video_url]}) ;;
     (* delete the original m4a file *)
     os_remove (downloaded_path w default_filename) ;;
     (* convert audio to text *)
     convert_audio_to_text w (audio_file_path w video_url))
    (fun e => raise (HTTPException HTTP_500_INTERNAL_SERVER_ERROR
                       (lit "Failed to get subtitle from audio of YouTube video: "
                        ++ exn_str w e))).

(** ** Transcript acquirer: [get_video_metadata_from_youtube_video_url] *)

(** The body of the acquirer's [try]: the first caption track if there is
    one, the audio otherwise. *)
Definition fetch_subtitle (w : World) (video_url : str) : M str :=
  log (CallYouTube video_url) ;;
  captions <- lift (yt_captions w video_url) ;;
  match captions with
  | caption :: _ =>
      log (CallRequestsGet (url caption)) ;;
      response <- lift (requests_get w (url caption)) ;;
      fail_if (status_error response) ;;
      _extract_text_from_xml_transcript w (response_text response)
  | [] => _get_subtitle_from_audio w video_url
  end.

Definition acquisition_failed (w : World) (e : exn) : exn :=
  HTTPException HTTP_500_INTERNAL_SERVER_ERROR
    (lit "Failed to download audio from YouTube video: " ++ exn_str w e).

Definition get_video_metadata_from_youtube_video_url (w : World) (video_url : str)
  : M Video :=
  subtitle_content <-
    try_except (fetch_subtitle w video_url)
      (fun e => raise (acquisition_failed w e)) ;;
  yt <- lift (yt_info w video_url) ;;
  ret (mkVideo (title yt) subtitle_content (author yt) (length_ yt)
         (yt_thumbnail_url yt) (yt_views yt) (yt_likes yt) (yt_publish_date yt)).

(** ** Note generator: [_generate_note_with_gemini] *)

Definition open_brace : N := 123.
Definition close_brace : N := 125.

(** [str(s).replace('{', '{{').replace('}', '}}')] *)
Definition escape_braces (s : str) : str :=
  replace_char close_brace (lit "}}") (replace_char open_brace (lit "{{") s).

(** The text handed to [json.loads]: the response trimmed, one leading and
    one trailing code-fence marker removed, trimmed again. *)
Definition strip_fences (response_text : str) : str :=
  let t := strip response_text in
  let t := if startswith t (lit "```json") then slice_from 7 t
           else if startswith t (lit "```") then slice_from 3 t
           else t in
  let t := if endswith t (lit "```") then slice_to_neg 3 t else t in
  strip t.

(** The object substituted when the response is not JSON. *)
Definition fallback_note_data (video_title channel_name response_text : str) : pyval :=
  PDict
    [ (lit "video_title", PStr video_title);
      (lit "channel_name", PStr channel_name);
      (lit "summary",
        PStr (if (1000 <? length response_text)%nat
              then slice_to 1000 response_text else response_text));
      (lit "key_points", PList [PStr (lit "Key point extracted from video")]);
      (lit "timestamps",
        PList [PDict [ (lit "time", PStr (lit "00:00"));
                       (lit "description",
                         PStr (lit "Video content extracted (parsing failed, using fallback)")) ]]) ].

(** [try: json.loads(response_text)  except json.JSONDecodeError: fallback];
    any other exception of the parser is not handled here. *)
Definition parse_note_data (w : World) (video_title channel_name response_text : str)
  : outcome pyval :=
  match json_loads w response_text with
  | Return note_data => Return note_data
  | Raise (JSONDecodeError _) =>
      Return (fallback_note_data video_title channel_name response_text)
  | Raise e => Raise e
  end.

(** [d.get(k, default)] on the items of a dict *)
Definition get_default (d : list (str * pyval)) (k : str) (default : pyval) : pyval :=
  match dict_get k d with Some x => x | None => default end.

(** Calling [get] on an object that is not a dict. *)
Definition no_attribute_get (v : pyval) : exn :=
  PyError (lit "'" ++ type_name v ++ lit "' object has no attribute 'get'").

(** The dict [result]: the candidate note that is validated and returned. *)
Record GeneratedNote : Type := mkGeneratedNote {
  g_video_title : pyval;
  g_channel_name : pyval;
  g_summary : pyval;
  g_key_points : list pyval;
  g_timestamps : list pyval
}.

(** [x if isinstance(x, list) else []] *)
Definition as_list (v : pyval) : list pyval :=
  match v with PList l => l | _ => [] end.

(** The five [note_data.get(...)] calls and the two [isinstance] tests that
    build [result]; the first [get] fails when the parsed value is not a
    dict. *)
Definition structure_note_data (video_title channel_name : str) (note_data : pyval)
  : outcome GeneratedNote :=
  match note_data with
  | PDict d =>
      let key_points_list := get_default d (lit "key_points") (PList []) in
      let timestamps_list := get_default d (lit "timestamps") (PList []) in
      Return (mkGeneratedNote
                (get_default d (lit "video_title") (PStr video_title))
                (get_default d (lit "channel_name") (PStr channel_name))
                (get_default d (lit "summary") (PStr []))
                (as_list key_points_list) (as_list timestamps_list))
  | _ => Raise (no_attribute_get note_data)
  end.

(** [not v or not str(v).strip()] *)
Definition value_missing (w : World) (v : pyval) : bool :=
  negb (truthy v) || bool_decide (strip (py_str w v) = []).

(** [not l or not isinstance(l, list) or len(l) == 0] for a list [l] *)
Definition list_missing (l : list pyval) : bool :=
  negb (truthy (PList l)) || (length l =? 0)%nat.

(** The names appended to [missing_fields], in the order of the five tests.
    The same five tests are written out twice in the source, in the
    generator and in [create_note]. *)
Definition missing_fields (w : World) (r : GeneratedNote) : list str :=
  (if value_missing w (g_video_title r) then [lit "video_title"] else [])
  ++ (if value_missing w (g_channel_name r) then [lit "channel_name"] else [])
  ++ (if value_missing w (g_summary r) then [lit "summary"] else [])
  ++ (if list_missing (g_key_points r) then [lit "key_points"] else [])
  ++ (if list_missing (g_timestamps r) then [lit "timestamps"] else []).

(** The exception raised by the generator's validation. *)
Definition incomplete_note (missing : list str) : exn :=
  HTTPException HTTP_500_INTERNAL_SERVER_ERROR
    (lit "Failed to generate complete note. Missing required fields: "
     ++ join (lit ", ") missing
     ++ lit ". Please try again or choose a different video.").

Definition validate_generated (w : World) (result : GeneratedNote) : M GeneratedNote :=
  match missing_fields w result with
  | (_ :: _) as missing => raise (incomplete_note missing)
  | [] => ret result
  end.

(** The body of the generator's [try]. *)
Definition build_prompt (subtitle_text video_url video_title channel_name : str) : Prompt :=
  mkPrompt (escape_braces video_title) (escape_braces channel_name)
    (escape_braces video_url) (escape_braces subtitle_text).

Definition generate_body (w : World) (subtitle_text video_url video_title channel_name : str)
  : M GeneratedNote :=
  let prompt := build_prompt subtitle_text video_url video_title channel_name in
  log (CallGemini prompt) ;;
  response <- lift (generate_content w prompt) ;;
  text <- match response with
          | Some t => ret t
          | None => raise (PyError (lit "'NoneType' object has no attribute 'strip'"))
          end ;;
  let response_text := strip_fences text in
  note_data <- lift (parse_note_data w video_title channel_name response_text) ;;
  result <- lift (structure_note_data video_title channel_name note_data) ;;
  validate_generated w result.

Definition generation_failed (w : World) (e : exn) : exn :=
  HTTPException HTTP_500_INTERNAL_SERVER_ERROR
    (lit "Failed to generate note with AI: " ++ exn_str w e).

Definition _generate_note_with_gemini
    (w : World) (subtitle_text video_url video_title channel_name : str)
  : M GeneratedNote :=
  try_except
    (generate_body w subtitle_text video_url video_title channel_name)
    (fun e => raise (generation_failed w e)).

(** ** The session *)

(** [session.exec(select(Note).where(user_id == u, youtube_url == url)).first()] *)
Definition select_first (u : nat) (video_url : str) (rows : list Note) : option Note :=
  List.find (fun n => bool_decide (user_id n = u) && bool_decide (youtube_url n = video_url)) rows.

(** [session.get(Note, note_id)] *)
Definition session_get (note_id : nat) (rows : list Note) : option Note :=
  List.find (fun n => bool_decide (id n = note_id)) rows.

Definition with_id (i : nat) (n : Note) : Note :=
  mkNote i (user_id n) (youtube_url n) (video_title n) (channel_name n) (summary n)
    (key_points n) (timestamps n) (duration_in_seconds n) (thumbnail_url n) (views n)
    (likes n) (publish_date n) (created_at n) (updated_at n).

(** [add], [commit], [refresh] of a new row: it gets the next primary key.
    The three calls are one step, which fails as a whole and then writes
    nothing ([commit_error]); a [refresh] that fails after the [commit] went
    through is not modelled.  The row is returned with the objects that were
    assigned to it; the conversion of a narrative value that is not a [str]
    to the text of its column, which the reload does, is not modelled. *)
Definition session_insert (w : World) (n : Note) : M Note :=
  fun st =>
    let row := with_id (next_id st) n in
    match commit_error w row with
    | Some e => (Raise e, st)
    | None => (Return row,
               mkState (db st ++ [row]) (S (next_id st)) (files st) (clock st) (trace st))
    end.

Fixpoint replace_row (row : Note) (rows : list Note) : list Note :=
  match rows with
  | [] => []
  | n :: rows' =>
      if bool_decide (id n = id row) then row :: rows' else n :: replace_row row rows'
  end.

(** [add], [commit], [refresh] of a row that was loaded and changed, one
    step as in [session_insert]. *)
Definition session_update (w : World) (row : Note) : M Note :=
  fun st =>
    match commit_error w row with
    | Some e => (Raise e, st)
    | None => (Return row,
               mkState (replace_row row (db st)) (next_id st) (files st) (clock st) (trace st))
    end.

(** The rows as the session sees them.  The reads of [create_note],
    [_get_note_by_id] and their callers are modelled on a database that
    answers: a fault of the connection or of the driver during a read is not
    part of this model (the listing query of [get_notes], which sends the
    caller's search text to the driver, has its own failure). *)
Definition get_db : M (list Note) := fun st => (Return (db st), st).

(** ** [_get_note_by_id] *)

Definition _get_note_by_id (note_id user_id' : nat) : M Note :=
  rows <- get_db ;;
  match session_get note_id rows with
  | None =>
      raise (HTTPException HTTP_404_NOT_FOUND
               (lit "Note with ID " ++ lit (pretty note_id) ++ lit " not found"))
  | Some note =>
      if bool_decide (user_id note ≠ user_id')
      then raise (HTTPException HTTP_403_FORBIDDEN
                    (lit "You don't have permission to access this note"))
      else ret note
  end.

(** ** Orchestrator: [create_note] *)

Definition no_captions : exn :=
  HTTPException HTTP_404_NOT_FOUND
    (lit "No captions/subtitles available for this video. Please choose a video with captions.").

Definition cannot_create (missing : list str) : exn :=
  HTTPException HTTP_500_INTERNAL_SERVER_ERROR
    (lit "Cannot create note: Missing required fields (" ++ join (lit ", ") missing
     ++ lit "). The AI was unable to generate complete note data. Please try again or choose a different video.").

(** [json.dumps(l) if l else None] *)
Definition dumps_or_none (w : World) (l : list pyval) : option str :=
  if truthy (PList l) then Some (json_dumps w (PList l)) else None.

(** The body of [create_note]'s [try]. *)
Definition create_body (w : World) (user_id' : nat) (note_data : NoteCreate) : M Note :=
  video <- get_video_metadata_from_youtube_video_url w (nc_youtube_url note_data) ;;
  let subtitle := v_caption video in
  if blank subtitle then raise no_captions
  else
    generated_data <- _generate_note_with_gemini w subtitle (nc_youtube_url note_data)
                        (v_title video) (v_channel_name video) ;;
    match missing_fields w generated_data with
    | (_ :: _) as missing => raise (cannot_create missing)
    | [] =>
        created <- now w ;;
        updated <- now w ;;
        session_insert w
          (mkNote 0 user_id' (nc_youtube_url note_data)
             (g_video_title generated_data) (g_channel_name generated_data)
             (g_summary generated_data)
             (dumps_or_none w (g_key_points generated_data))
             (dumps_or_none w (g_timestamps generated_data))
             (v_duration_in_seconds video) (v_thumbnail_url video) (v_views video)
             (v_likes video) (v_publish_date video) created updated)
    end.

Definition creation_failed (w : World) (e : exn) : exn :=
  HTTPException HTTP_500_INTERNAL_SERVER_ERROR
    (lit "Failed to create note: " ++ exn_str w e).

Definition create_note (w : World) (user_id' : nat) (note_data : NoteCreate) : M Note :=
  rows <- get_db ;;
  match select_first user_id' (nc_youtube_url note_data) rows with
  | Some existing_note => ret existing_note
  | None =>
      try_except
        (create_body w user_id' note_data)
        (fun e =>
           match e with
           | HTTPException _ _ => raise e
           | _ => raise (creation_failed w e)
           end)
  end.

(** ** [update_note] *)

Definition opt_str (o : option str) : pyval :=
  match o with Some s => PStr s | None => PNone end.

(** The loop over [model_dump(exclude_unset=True)]: every field the request
    set is assigned; [key_points] and [timestamps] are serialized unless
    they are [None]. *)
Definition apply_update (w : World) (u : NoteUpdate) (n : Note) : Note :=
  let upd {A B} (f : A -> B) (o : option A) (old : B) : B :=
    match o with Some v => f v | None => old end in
  mkNote (id n) (user_id n) (youtube_url n)
    (upd opt_str (nu_video_title u) (video_title n))
    (upd opt_str (nu_channel_name u) (channel_name n))
    (upd opt_str (nu_summary u) (summary n))
    (upd (fun v => match v with
                   | Some l => Some (json_dumps w (PList (map PStr l)))
                   | None => None
                   end) (nu_key_points u) (key_points n))
    (upd (fun v => match v with
                   | Some l => Some (json_dumps w (PList (map PDict l)))
                   | None => None
                   end) (nu_timestamps u) (timestamps n))
    (upd (fun v => v) (nu_duration_in_seconds u) (duration_in_seconds n))
    (upd (fun v => v) (nu_thumbnail_url u) (thumbnail_url n))
    (upd (fun v => v) (nu_views u) (views n))
    (upd (fun v => v) (nu_likes u) (likes n))
    (upd (fun v => v) (nu_publish_date u) (publish_date n))
    (created_at n) (updated_at n).

Definition with_updated_at (t : Z) (n : Note) : Note :=
  mkNote (id n) (user_id n) (youtube_url n) (video_title n) (channel_name n) (summary n)
    (key_points n) (timestamps n) (duration_in_seconds n) (thumbnail_url n) (views n)
    (likes n) (publish_date n) (created_at n) t.

Definition update_note (w : World) (note_id user_id' : nat) (note_data : NoteUpdate)
  : M Note :=
  note <- _get_note_by_id note_id user_id' ;;
  let note := apply_update w note_data note in
  t <- now w ;;
  session_update w (with_updated_at t note).


(* ===================================================================== *)
(** * The rest of [NoteService] *)
(* ===================================================================== *)

(** ** Pagination *)

(** [_validate_pagination_params] *)
Definition _validate_pagination_params (current_page page_size : Z) : Z * Z :=
  let validated_page := Z.max 1 current_page in
  let validated_size := Z.max 1 (Z.min page_size 100) in
  (validated_page, validated_size).

(** [_calculate_pagination]; [//] is floor division and fails on a zero
    divisor. *)
Definition _calculate_pagination (total_items current_page page_size : Z)
  : outcome (Z * Z * Z * Z) :=
  if (page_size =? 0)%Z
  then Raise (PyError (lit "integer division or modulo by zero"))
  else
    let total_pages := Z.max 1 ((total_items + page_size - 1) / page_size) in
    let adjusted_page := Z.min current_page total_pages in
    let start_index := ((adjusted_page - 1) * page_size)%Z in
    let end_index := (start_index + page_size)%Z in
    Return (total_pages, adjusted_page, start_index, end_index).

(** A slice index brought into the range of a sequence of length [n]. *)
Definition slice_index (n : nat) (i : Z) : nat :=
  if (i <? 0)%Z then Z.to_nat (Z.max 0 (Z.of_nat n + i)) else Nat.min (Z.to_nat i) n.

(** [l[start:stop]] *)
Definition py_slice {A} (l : list A) (start stop : Z) : list A :=
  take (slice_index (length l) stop - slice_index (length l) start)
    (drop (slice_index (length l) start) l).

(** ** [get_notes] *)

(** What the query of [get_notes] leaves to Python's [str.lower] and to the
    database: lowering the search term, and [lower(column) LIKE pattern]. *)
Record SearchEngine : Type := mkSearchEngine {
  str_lower : str -> str;
  lower_like : pyval -> str -> bool;
  (** what [session.exec(query).all()] raises for this user and this search
      text, if anything: the call is not guarded, and a driver may reject a
      parameter (a NUL character in the text, say) *)
  exec_error : nat -> option str -> option exn
}.

Definition percent : N := 37.

(** The [where] clauses of the query. *)
Definition matches_query (q : SearchEngine) (user_id' : nat) (search : option str)
    (n : Note) : bool :=
  bool_decide (user_id n = user_id')
  && match search with
     | Some (c :: s) =>
         let search_term := percent :: str_lower q (strip (c :: s)) ++ [percent] in
         lower_like q (video_title n) search_term
         || lower_like q (channel_name n) search_term
         || lower_like q (summary n) search_term
     | _ => true
     end.

(** [order_by(Note.created_at.desc())]; rows created at the same instant
    keep the order of the table. *)
Fixpoint insert_desc (n : Note) (rows : list Note) : list Note :=
  match rows with
  | [] => [n]
  | m :: rows' =>
      if (created_at m <=? created_at n)%Z then n :: rows else m :: insert_desc n rows'
  end.
Definition order_by_created_at_desc (rows : list Note) : list Note :=
  foldr insert_desc [] rows.

(** The dict returned by [get_notes]. *)
Record NotesPage : Type := mkNotesPage {
  notes : list Note;
  total_notes : Z;
  total_pages : Z;
  current_page : Z;
  page_size : Z
}.

(** The part of [get_notes] behind the query. *)
Definition paginate (all_notes : list Note) (current_page' page_size' : Z)
  : outcome NotesPage :=
  let '(current_page1, page_size1) := _validate_pagination_params current_page' page_size' in
  let total_notes' := Z.of_nat (length all_notes) in
  match _calculate_pagination total_notes' current_page1 page_size1 with
  | Raise e => Raise e
  | Return (total_pages', current_page2, start_index, end_index) =>
      let paginated_notes := py_slice all_notes start_index end_index in
      Return (mkNotesPage paginated_notes total_notes' total_pages' current_page2 page_size1)
  end.

Definition get_notes (q : SearchEngine) (user_id' : nat) (current_page' page_size' : Z)
    (search : option str) : M NotesPage :=
  fail_if (exec_error q user_id' search) ;;
  rows <- get_db ;;
  let all_notes :=
    order_by_created_at_desc (List.filter (matches_query q user_id' search) rows) in
  lift (paginate all_notes current_page' page_size').

(** ** [get_note_by_id] and [delete_note] *)

Definition get_note_by_id (note_id user_id' : nat) : M Note :=
  _get_note_by_id note_id user_id'.

Fixpoint remove_row (row : Note) (rows : list Note) : list Note :=
  match rows with
  | [] => []
  | n :: rows' =>
      if bool_decide (id n = id row) then rows' else n :: remove_row row rows'
  end.

(** [delete] and [commit] of a row that was loaded. *)
Definition session_delete (w : World) (row : Note) : M unit :=
  fun st =>
    match commit_error w row with
    | Some e => (Raise e, st)
    | None => (Return tt,
               mkState (remove_row row (db st)) (next_id st) (files st) (clock st) (trace st))
    end.

(** [delete_note]; the returned dict has the one key [message]. *)
Definition delete_note (w : World) (note_id user_id' : nat) : M str :=
  note <- _get_note_by_id note_id user_id' ;;
  session_delete w note ;;
  ret (lit "Note with ID " ++ lit (pretty note_id) ++ lit " deleted successfully").

(* ===================================================================== *)
(** * The rest of the schemas ([modules/notes/model.py]) *)
(* ===================================================================== *)

(** [sub in s] *)
Fixpoint contains (sub s : str) : bool :=
  startswith s sub
  || match s with
     | [] => false
     | _ :: s' => contains sub s'
     end.

Definition youtube_domains : list str :=
  [lit "youtube.com"; lit "youtu.be"; lit "www.youtube.com"; lit "m.youtube.com"].

(** [validate_youtube_url], the validator of [NoteBase] and of
    [NoteCreate]; [lower] is [str.lower]. *)
Definition validate_youtube_url (lower : str -> str) (v : str) : outcome str :=
  let v := strip v in
  match v with
  | [] => Raise (PyError (lit "YouTube URL cannot be empty"))
  | _ :: _ =>
      if negb (existsb (fun domain => contains domain (lower v)) youtube_domains)
      then Raise (PyError (lit "Invalid YouTube URL. Must be a valid YouTube link"))
      else Return v
  end.

(** [NoteResponse.parse_json_fields], the validator that runs on
    [key_points] and [timestamps] before the response is built.  A failure
    of [json.loads] other than [JSONDecodeError] is not caught ([json.loads]
    raises no [TypeError] on a [str]). *)
Definition parse_json_fields (w : World) (v : pyval) : outcome pyval :=
  match v with
  | PNone => Return PNone
  | PStr s =>
      match json_loads w s with
      | Return (PList parsed) => Return (PList parsed)
      | Return _ => Return (PList [])
      | Raise (JSONDecodeError _) => Return (PList [])
      | Raise e => Raise e
      end
  | PList l => Return (PList l)
  | _ => Return (PList [])
  end.

(** The attribute of a row that holds JSON text, as an object. *)
Definition column_value (c : option str) : pyval :=
  match c with Some s => PStr s | None => PNone end.

(* ===================================================================== *)
(** * The properties in the specification's words *)
(* ===================================================================== *)

(** ** Caption parser *)

(** The character data of an element up to its first child ([.text]), empty
    when there is none. *)
Definition leading_text (e : Element) : str :=
  match text e with Some t => t | None => [] end.

(** Every [<text>] element of a document, the root element included. *)
Definition all_text_elements (root : Element) : list Element :=
  filter (fun e => tag e = lit "text") (iter root).

(** The texts of the given elements joined by single spaces, whitespace
    collapsed, both ends trimmed. *)
Definition joined_transcript (elems : list Element) : str :=
  strip (collapse_ws (join (lit " ") (map leading_text elems))).

(** ** Required fields of a generated note *)

Definition required_fields : list str :=
  [lit "video_title"; lit "channel_name"; lit "summary"; lit "key_points"; lit "timestamps"].

(** A narrative field is missing when it is empty or blank after trimming. *)
Definition empty_or_blank (w : World) (v : pyval) : Prop :=
  truthy v = false ∨ strip (py_str w v) = [].

(** The required field [name] of the candidate [r] is missing. *)
Definition field_missing (w : World) (r : GeneratedNote) (name : str) : Prop :=
  (name = lit "video_title" ∧ empty_or_blank w (g_video_title r))
  ∨ (name = lit "channel_name" ∧ empty_or_blank w (g_channel_name r))
  ∨ (name = lit "summary" ∧ empty_or_blank w (g_summary r))
  ∨ (name = lit "key_points" ∧ g_key_points r = [])
  ∨ (name = lit "timestamps" ∧ g_timestamps r = []).

(** ** The invariant of persisted notes *)

(** A narrative column is present and not blank after trimming. *)
Definition narrative_present (w : World) (v : pyval) : Prop :=
  v ≠ PNone ∧ v ≠ PStr [] ∧ strip (py_str w v) ≠ [].

(** A list column holds the JSON text of a non-empty list. *)
Definition nonempty_list_column (w : World) (c : option str) : Prop :=
  ∃ l, l ≠ [] ∧ c = Some (json_dumps w (PList l)).

Definition complete_note (w : World) (n : Note) : Prop :=
  narrative_present w (video_title n)
  ∧ narrative_present w (channel_name n)
  ∧ narrative_present w (summary n)
  ∧ nonempty_list_column w (key_points n)
  ∧ nonempty_list_column w (timestamps n).


(** ** What a computation leaves alone *)

Definition is_gemini (c : Call) : Prop :=
  match c with CallGemini _ => True | _ => False end.

(** [m] writes no row, and every outside call it makes satisfies [P]. *)
Definition frame (P : Call -> Prop) {A} (m : M A) : Prop :=
  ∀ st o st', m st = (o, st') ->
    db st' = db st ∧ next_id st' = next_id st
    ∧ ∃ calls, trace st' = trace st ++ calls ∧ Forall P calls.

(** Whatever happens, [m] first makes the outside call [c]. *)
Definition starts_with (c : Call) {A} (m : M A) : Prop :=
  ∀ st o st', m st = (o, st') -> ∃ calls, trace st' = trace st ++ c :: calls.

(** ** Cleaned text *)

(** The cleaned text, with leading whitespace already swallowed ([trimmed])
    or with a leading run still shown as one space ([spaced]). *)
Definition trimmed (s : str) : str := rstrip (sub_ws true s).
Definition spaced (s : str) : str := rstrip (sub_ws false s).

(** Two cleaned texts put side by side. *)
Definition glue (x y : str) : str :=
  match x, y with
  | [], _ => y
  | _, [] => x
  | _, _ => x ++ sp :: y
  end.

(** The cleaned parts of a list, glued from left to right. *)
Definition glue_all (parts : list str) : str :=
  foldr (fun p acc => glue (trimmed p) acc) [] parts.

(** ** Occurrences of the caption pattern *)

(** An occurrence of the pattern: [<text], characters other than [>], [>],
    a non-empty group without [<], [</text>]. *)
Definition occurrence (attrs group : str) : str :=
  lit "<text" ++ attrs ++ gt_sign :: group ++ lit "</text>".

Definition well_formed_occurrence (attrs group : str) : Prop :=
  (gt_sign ∉ attrs) ∧ group ≠ [] ∧ (lt_sign ∉ group).

(** What [re.findall] reports for the caption pattern: the group of the
    leftmost occurrence, then that of the leftmost occurrence behind it,
    and so on until no occurrence is left.  Occurrences do not overlap, and
    the occurrence that starts at a given place is unique, because [attrs]
    ends at the first [>] and the group at the first [<]. *)
Inductive pattern_scan : str -> list str -> Prop :=
  | scan_end s :
      (¬ ∃ pre attrs g post,
           s = pre ++ occurrence attrs g ++ post ∧ well_formed_occurrence attrs g) ->
      pattern_scan s []
  | scan_next pre attrs g post groups :
      well_formed_occurrence attrs g ->
      (∀ pre' attrs' g' post',
         pre ++ occurrence attrs g ++ post = pre' ++ occurrence attrs' g' ++ post' ->
         well_formed_occurrence attrs' g' ->
         (length pre <= length pre')%nat) ->
      pattern_scan post groups ->
      pattern_scan (pre ++ occurrence attrs g ++ post) (g :: groups).

(** ** Scratch files *)

(** The state when the transcription is about to start: the original
    container is gone, the normalized file is there. *)
Definition before_transcription (w : World) (video_url default_filename : str) (st : State)
  : State :=
  mkState (db st) (next_id st)
    ((files st ∪ {[downloaded_path w default_filename]} ∪ {[audio_file_path w video_url]})
     ∖ {[downloaded_path w default_filename]})
    (clock st)
    (trace st ++ [CallYouTube video_url; CallDownload video_url]).

(* ===================================================================== *)
(** * Concrete scenarios *)
(* ===================================================================== *)

(** The framework prints an [HTTPException] as its status, a colon and its
    detail. *)
Definition starlette_str (c : nat) (d : str) : str :=
  lit (pretty c) ++ lit ": " ++ d.

Definition demo_info : VideoInfo :=
  mkVideoInfo (lit "Demo video") (lit "Demo channel") (Some 61%Z) None (Some 10%Z) None None.

(** A world given by the answers that matter in a scenario; everything else
    succeeds. *)
Definition scenario
    (fromstring : str -> outcome Element)
    (captions : list Caption)
    (caption_body : str)
    (stt : outcome (list (list str)))
    (model_text : outcome (option str))
    (loads : str -> outcome pyval) : World :=
  {| HTTPException_str := starlette_str;
     py_repr := fun _ => lit "<object>";
     json_loads := loads;
     json_dumps := fun _ => lit "<json>";
     ET_fromstring := fromstring;
     yt_captions := fun _ => Return captions;
     yt_info := fun _ => Return demo_info;
     requests_get := fun _ => Return (mkResponse None caption_body);
     yt_audio_only := fun _ => Return (lit "Demo video.m4a");
     download_error := fun _ => None;
     from_file_error := fun _ => None;
     export_error := fun _ => None;
     transcribe_file := fun _ => stt;
     generate_content := fun _ => model_text;
     utcnow := fun n => Z.of_nat n;
     temp_audio_dir := lit "/srv/backend/temp_audio_files";
     commit_error := fun _ => None |}.

Definition empty_state : State := mkState [] 1 ∅ 0 [].

Definition not_well_formed : exn := ParseError (lit "junk after document element").
Definition not_json : exn := JSONDecodeError (lit "Expecting value").

(** The markup of the specification's scenario: two [<text>] elements side
    by side, which is not one document. *)
Definition two_texts_markup : str :=
  lit "<text start=" ++ dq :: lit "0" ++ dq :: lit ">Hello</text><text start="
  ++ dq :: lit "1" ++ dq :: lit ">world</text>".

(** A document whose root is itself a [<text>] element. *)
Definition single_text_markup : str :=
  lit "<text start=" ++ dq :: lit "0" ++ dq :: lit ">Hello</text>".
Definition single_text_root : Element :=
  mkElement (lit "text") [(lit "start", lit "0")] (Some (lit "Hello")) [] None.

(** A caption document as the platform serves it. *)
Definition transcript_markup : str :=
  lit "<transcript><text start=" ++ dq :: lit "0" ++ dq :: lit "> Hello </text><text start="
  ++ dq :: lit "1" ++ dq :: lit "/><text start=" ++ dq :: lit "2" ++ dq
  :: lit ">big   world</text></transcript>".
Definition transcript_root : Element :=
  mkElement (lit "transcript") [] None
    [ mkElement (lit "text") [(lit "start", lit "0")] (Some (lit " Hello ")) [] None;
      mkElement (lit "text") [(lit "start", lit "1")] None [] None;
      mkElement (lit "text") [(lit "start", lit "2")] (Some (lit "big   world")) [] None ]
    None.

(** The XML parser on the three markups above. *)
Definition demo_fromstring (xml : str) : outcome Element :=
  if bool_decide (xml = single_text_markup) then Return single_text_root
  else if bool_decide (xml = transcript_markup) then Return transcript_root
  else Raise not_well_formed.

Definition caption_world : World :=
  scenario demo_fromstring [mkCaption (lit "en") (lit "https://video.example/timedtext")]
    transcript_markup (Return [[lit "unused"]]) (Return (Some (lit "not json")))
    (fun _ => Raise not_json).

(** A model answer without key points, in a code fence. *)
Definition no_key_points_text : str := lit "```json {...} ```".
Definition no_key_points_data : pyval :=
  PDict [ (lit "video_title", PStr (lit "Demo video"));
          (lit "summary", PStr (lit "A summary."));
          (lit "key_points", PList []);
          (lit "timestamps",
            PList [PDict [(lit "time", PStr (lit "00:10"));
                          (lit "description", PStr (lit "Start"))]]) ].

Definition no_key_points_world : World :=
  scenario demo_fromstring [mkCaption (lit "en") (lit "https://video.example/timedtext")]
    transcript_markup (Return [[lit "unused"]]) (Return (Some no_key_points_text))
    (fun t => if bool_decide (t = lit "{...}") then Return no_key_points_data
              else Raise not_json).

(** A model answer that is only a pair of code fences. *)
Definition fences_only_world : World :=
  scenario demo_fromstring [mkCaption (lit "en") (lit "https://video.example/timedtext")]
    transcript_markup (Return [[lit "unused"]]) (Return (Some (lit " ```json   ``` ")))
    (fun _ => Raise not_json).

(** A complete model answer. *)
Definition complete_data : pyval :=
  PDict [ (lit "video_title", PStr (lit "Demo video"));
          (lit "channel_name", PStr (lit "Demo channel"));
          (lit "summary", PStr (lit "A summary."));
          (lit "key_points", PList [PStr (lit "One point")]);
          (lit "timestamps",
            PList [PDict [(lit "time", PStr (lit "00:10"));
                          (lit "description", PStr (lit "Start"))]]) ].

Definition complete_world : World :=
  scenario demo_fromstring [mkCaption (lit "en") (lit "https://video.example/timedtext")]
    transcript_markup (Return [[lit "unused"]]) (Return (Some (lit "{...}")))
    (fun _ => Return complete_data).

(** A video whose caption track is blank. *)
Definition blank_caption_world : World :=
  scenario demo_fromstring [mkCaption (lit "en") (lit "https://video.example/timedtext")]
    (lit "   ") (Return [[lit "unused"]]) (Return (Some (lit "{...}")))
    (fun _ => Return complete_data).

(** A video without captions whose transcription call fails. *)
Definition transcription_fails_world : World :=
  scenario demo_fromstring [] [] (Raise (PyError (lit "status_code: 401")))
    (Return (Some (lit "{...}"))) (fun _ => Return complete_data).

(** A video without captions whose transcription succeeds. *)
Definition transcription_world : World :=
  scenario demo_fromstring [] [] (Return [[lit "Hello from audio"]])
    (Return (Some (lit "{...}"))) (fun _ => Return complete_data).

Definition demo_url : str := lit "https://www.youtube.com/watch?v=abc123".
Definition demo_request : NoteCreate := mkNoteCreate demo_url.

(** A stored, complete note of user 1 and a request that empties its
    summary. *)
Definition stored_note : Note :=
  mkNote 1 1 demo_url (PStr (lit "Demo video")) (PStr (lit "Demo channel"))
    (PStr (lit "A summary.")) (Some (lit "<json>")) (Some (lit "<json>"))
    (Some 61%Z) None (Some 10%Z) None None 0 0.
Definition stored_state : State := mkState [stored_note] 2 ∅ 2 [].
Definition empty_summary_update : NoteUpdate :=
  mkNoteUpdate None None (Some (Some [])) None None None None None None None.

(* ===================================================================== *)
(** * Notions for the rest of the service *)
(* ===================================================================== *)

(** The notes shown on page [k] of a listing. *)
Definition page_notes (all_notes : list Note) (k page_size' : Z) : list Note :=
  match paginate all_notes k page_size' with
  | Return pg => notes pg
  | Raise _ => []
  end.

(** Newest first. *)
Definition newest_first (rows : list Note) : Prop :=
  StronglySorted (fun a b => (created_at b <= created_at a)%Z) rows.

(** Primary keys are unique and below the next key to be given out. *)
Definition table_ok (st : State) : Prop :=
  NoDup (map id (db st)) ∧ ∀ n, n ∈ db st -> (id n < next_id st)%nat.

(** The rows of one user. *)
Definition owned (user_id' : nat) (rows : list Note) : list Note :=
  List.filter (fun n => bool_decide (user_id n = user_id')) rows.

(** The two refusals of [_get_note_by_id]. *)
Definition not_found (note_id : nat) : exn :=
  HTTPException 404 (lit "Note with ID " ++ lit (pretty note_id) ++ lit " not found").
Definition forbidden : exn :=
  HTTPException 403 (lit "You don't have permission to access this note").


(** The state after one reading of the clock. *)
Definition tick (st : State) : State :=
  mkState (db st) (next_id st) (files st) (S (clock st)) (trace st).

(** A second stored note, of user 2, and the table holding both. *)
Definition other_note : Note :=
  mkNote 2 2 demo_url (PStr (lit "Demo video")) (PStr (lit "Demo channel"))
    (PStr (lit "Another summary.")) (Some (lit "<json>")) (Some (lit "<json>"))
    (Some 61%Z) None (Some 10%Z) None None 5 5.
Definition two_notes_state : State := mkState [stored_note; other_note] 3 ∅ 6 [].

(** A request that changes the summary only. *)
Definition new_summary_update : NoteUpdate :=
  mkNoteUpdate None None (Some (Some (lit "Better summary."))) None None None None None None None.

(** [str.lower] on the letters A to Z; other characters are left alone. *)
Definition ascii_lower (s : str) : str :=
  map (fun c => if (65 <=? c) && (c <=? 90) then c + 32 else c) s.

(** A world whose JSON parser reads back the one text its printer writes. *)
Definition points : list pyval := [PStr (lit "One point"); PStr (lit "Another point")].
Definition round_trip_world : World :=
  scenario demo_fromstring [] [] (Return []) (Return None)
    (fun t => if bool_decide (t = lit "<json>") then Return (PList points)
              else Raise not_json).

(** A video without captions whose downloaded audio cannot be decoded. *)
Definition could_not_decode : exn := PyError (lit "Decoding failed. ffmpeg returned error code: 1").
Definition transcoding_fails_world : World :=
  {| HTTPException_str := starlette_str;
     py_repr := fun _ => lit "<object>";
     json_loads := fun _ => Return complete_data;
     json_dumps := fun _ => lit "<json>";
     ET_fromstring := demo_fromstring;
     yt_captions := fun _ => Return [];
     yt_info := fun _ => Return demo_info;
     requests_get := fun _ => Return (mkResponse None []);
     yt_audio_only := fun _ => Return (lit "Demo video.m4a");
     download_error := fun _ => None;
     from_file_error := fun _ => Some could_not_decode;
     export_error := fun _ => None;
     transcribe_file := fun _ => Return [[lit "unused"]];
     generate_content := fun _ => Return (Some (lit "{...}"));
     utcnow := fun n => Z.of_nat n;
     temp_audio_dir := lit "/srv/backend/temp_audio_files";
     commit_error := fun _ => None |}.

(** A database that answers every listing query, and one whose driver
    rejects a search text that holds a NUL character. *)
Definition plain_engine : SearchEngine :=
  mkSearchEngine ascii_lower (fun _ _ => false) (fun _ _ => None).
Definition nul_rejected : exn :=
  PyError (lit "A string literal cannot contain NUL (0x00) characters.").
Definition strict_engine : SearchEngine :=
  mkSearchEngine ascii_lower (fun _ _ => false)
    (fun _ search =>
       match search with
       | Some t => if bool_decide (0 ∈ t) then Some nul_rejected else None
       | None => None
       end).

(** A model answer that nests five thousand lists: too deep for the JSON
    parser, which gives up with a [RecursionError], not a decoding error. *)
Definition open_bracket : N := 91.
Definition deeply_nested : str := replicate 5000 open_bracket.
Definition recursion_error : exn :=
  PyError (lit "maximum recursion depth exceeded while decoding a JSON array from a unicode string").
Definition deep_nesting_world : World :=
  scenario demo_fromstring [mkCaption (lit "en") (lit "https://video.example/timedtext")]
    transcript_markup (Return [[lit "unused"]]) (Return (Some deeply_nested))
    (fun t => if bool_decide (t = deeply_nested) then Raise recursion_error
              else Raise not_json).

(** The markup of the specification's scenario followed by a lone surrogate
    (U+D800): the XML parser cannot encode it and fails with a
    [UnicodeEncodeError], which is no [ParseError]. *)
Definition lone_surrogate : N := 55296.
Definition surrogate_markup : str := two_texts_markup ++ [lone_surrogate].
Definition cannot_encode : exn :=
  PyError (lit "'utf-8' codec can't encode character '\ud800' in position 56: surrogates not allowed").
Definition surrogate_world : World :=
  scenario (fun xml => if bool_decide (xml = surrogate_markup) then Raise cannot_encode
                       else demo_fromstring xml)
    [mkCaption (lit "en") (lit "https://video.example/timedtext")]
    surrogate_markup (Return [[lit "unused"]]) (Return (Some (lit "{...}")))
    (fun _ => Return complete_data).

(* ===================================================================== *)
(** * Small checks of the string model *)
(* ===================================================================== *)

Example ex_strip : strip (lit "  a b  ") = lit "a b".
Proof. reflexivity. Qed.
Example ex_collapse : collapse_ws (lit " a   b ") = lit " a b ".
Proof. reflexivity. Qed.
Example ex_findall :
  findall_text two_texts_markup
  = [lit "Hello"; lit "world"].
Proof. reflexivity. Qed.
Example ex_split_last : split_last 61 (lit "https://youtube.com/watch?v=abc") = lit "abc".
Proof. reflexivity. Qed.
Example ex_split_last2 : split_last 61 (lit "a=b=c") = lit "c".
Proof. reflexivity. Qed.
Example ex_split_last3 : split_last 61 (lit "abc") = lit "abc".
Proof. reflexivity. Qed.
Example ex_split_last4 : split_last 61 (lit "abc=") = lit "".
Proof. reflexivity. Qed.


(* ===================================================================== *)
(** * Whitespace normalisation *)
(* ===================================================================== *)

Section Whitespace.

Lemma isspace_sp : isspace sp = true.
Proof. reflexivity. Qed.

Lemma rstrip_cons_space c x :
  isspace c = true -> rstrip (c :: x) = match rstrip x with [] => [] | r => c :: r end.
Proof. intros Hc. simpl. rewrite Hc. reflexivity. Qed.

Lemma rstrip_cons_nonspace c x :
  isspace c = false -> rstrip (c :: x) = c :: rstrip x.
Proof. intros Hc. simpl. rewrite Hc. destruct (rstrip x); reflexivity. Qed.

Lemma trimmed_cons c s :
  trimmed (c :: s) = if isspace c then trimmed s else c :: spaced s.
Proof.
  unfold trimmed, spaced. cbn [sub_ws].
  destruct (isspace c) eqn:Hc; [reflexivity|].
  by rewrite rstrip_cons_nonspace.
Qed.

Lemma spaced_cons c s :
  spaced (c :: s) =
    if isspace c then match trimmed s with [] => [] | r => sp :: r end
    else c :: spaced s.
Proof.
  unfold trimmed, spaced. cbn [sub_ws].
  destruct (isspace c) eqn:Hc.
  - by rewrite rstrip_cons_space.
  - by rewrite rstrip_cons_nonspace.
Qed.

Lemma lstrip_trimmed s : lstrip (trimmed s) = trimmed s.
Proof.
  induction s as [|c s IH]; [reflexivity|].
  rewrite trimmed_cons. destruct (isspace c) eqn:Hc; [exact IH|].
  simpl. by rewrite Hc.
Qed.

(** [re.sub(r'\s+', ' ', s).strip()] is [trimmed s]. *)
Lemma clean_whitespace_trimmed s : clean_whitespace s = trimmed s.
Proof.
  unfold clean_whitespace, strip, collapse_ws. fold (spaced s).
  destruct s as [|c s]; [reflexivity|].
  rewrite spaced_cons, trimmed_cons.
  destruct (isspace c) eqn:Hc.
  - pose proof (lstrip_trimmed s) as Hl.
    destruct (trimmed s) as [|x r]; [reflexivity|].
    cbn [lstrip]. rewrite isspace_sp. exact Hl.
  - simpl. by rewrite Hc.
Qed.

Lemma glue_nil_r x : glue x [] = x.
Proof. by destruct x. Qed.

Lemma trimmed_spaced_app_sp a r :
  trimmed (a ++ sp :: r) = glue (trimmed a) (trimmed r)
  ∧ spaced (a ++ sp :: r) =
      match trimmed r with [] => spaced a | y => spaced a ++ sp :: y end.
Proof.
  induction a as [|c a [IHt IHs]].
  - cbn [app]. rewrite trimmed_cons, spaced_cons, isspace_sp. split; [reflexivity|].
    by destruct (trimmed r).
  - cbn [app]. rewrite !trimmed_cons, !spaced_cons.
    destruct (isspace c) eqn:Hc.
    + split; [exact IHt|]. rewrite IHt.
      destruct (trimmed a), (trimmed r); reflexivity.
    + rewrite IHs. split.
      * destruct (trimmed r); reflexivity.
      * destruct (trimmed r); reflexivity.
Qed.

Lemma trimmed_app_sp a r : trimmed (a ++ sp :: r) = glue (trimmed a) (trimmed r).
Proof. apply trimmed_spaced_app_sp. Qed.

Lemma trimmed_lstrip s : trimmed (lstrip s) = trimmed s.
Proof.
  induction s as [|c s IH]; [reflexivity|].
  cbn [lstrip]. destruct (isspace c) eqn:Hc; [|reflexivity].
  by rewrite trimmed_cons, Hc.
Qed.

Lemma rstrip_nil_trimmed s : rstrip s = [] -> trimmed s = [] ∧ spaced s = [].
Proof.
  induction s as [|c s IH]; [done|].
  intros H. simpl in H.
  destruct (rstrip s) eqn:Hr; [|done].
  destruct (isspace c) eqn:Hc; [|done].
  destruct (IH eq_refl) as [Ht Hs].
  rewrite trimmed_cons, spaced_cons, Hc, Ht. done.
Qed.

Lemma trimmed_spaced_rstrip s :
  trimmed (rstrip s) = trimmed s ∧ spaced (rstrip s) = spaced s.
Proof.
  induction s as [|c s [IHt IHs]]; [done|].
  destruct (rstrip s) as [|x r] eqn:Hr.
  - destruct (rstrip_nil_trimmed s Hr) as [Ht Hs].
    assert (rstrip (c :: s) = if isspace c then [] else [c]) as ->.
    { simpl. rewrite Hr. reflexivity. }
    rewrite (trimmed_cons c s), (spaced_cons c s), Ht, Hs.
    destruct (isspace c) eqn:Hc; [done|].
    rewrite trimmed_cons, spaced_cons, Hc. done.
  - assert (rstrip (c :: s) = c :: rstrip s) as ->.
    { simpl. rewrite Hr. reflexivity. }
    rewrite !trimmed_cons, !spaced_cons, Hr, IHt, IHs. done.
Qed.

Lemma trimmed_strip s : trimmed (strip s) = trimmed s.
Proof.
  unfold strip. rewrite trimmed_lstrip. apply trimmed_spaced_rstrip.
Qed.

(** The cleaned join of a list of parts only depends on the cleaned parts. *)
Lemma trimmed_join parts : trimmed (join [sp] parts) = glue_all parts.
Proof.
  induction parts as [|p ps IH]; [reflexivity|].
  destruct ps as [|q ps].
  - simpl. by rewrite glue_nil_r.
  - change (join [sp] (p :: q :: ps)) with (p ++ sp :: join [sp] (q :: ps)).
    rewrite trimmed_app_sp, IH. reflexivity.
Qed.

Lemma clean_join parts : clean_whitespace (join (lit " ") parts) = glue_all parts.
Proof. rewrite clean_whitespace_trimmed. apply trimmed_join. Qed.

End Whitespace.

(* ===================================================================== *)
(** * The caption pattern *)
(* ===================================================================== *)

Section Pattern.

Lemma startswith_spec s p : startswith s p = true <-> ∃ rest, s = p ++ rest.
Proof.
  revert s. induction p as [|a p IH]; intros s.
  - simpl. split; [intros _; by exists s|done].
  - destruct s as [|b s]; simpl.
    + split; [done|]. intros [rest H]. discriminate.
    + rewrite andb_true_iff, N.eqb_eq, IH. split.
      * intros [-> [rest ->]]. by exists rest.
      * intros [rest H]. injection H as -> ->. split; [done|by exists rest].
Qed.

Lemma take_until_split c s :
  s = take_until c s ++ drop (length (take_until c s)) s.
Proof.
  induction s as [|x s IH]; [reflexivity|].
  simpl. destruct (x =? c); [reflexivity|].
  simpl. by rewrite <- IH.
Qed.

Lemma take_until_not_in c s : c ∉ take_until c s.
Proof.
  induction s as [|x s IH]; simpl.
  - apply not_elem_of_nil.
  - destruct (x =? c) eqn:E; [apply not_elem_of_nil|].
    apply N.eqb_neq in E. rewrite elem_of_cons. intros [->|H]; [done|by apply IH].
Qed.

Lemma take_until_app c a x : c ∉ a -> take_until c (a ++ c :: x) = a.
Proof.
  induction a as [|y a IH]; intros Hn; simpl.
  - by rewrite N.eqb_refl.
  - apply not_elem_of_cons in Hn as [Hy Ha].
    destruct (y =? c) eqn:E; [apply N.eqb_eq in E; congruence|].
    by rewrite IH.
Qed.

Lemma match_at_sound s g n :
  match_at s = Some (g, n) ->
  ∃ attrs post, s = occurrence attrs g ++ post ∧ well_formed_occurrence attrs g
                ∧ n = length (occurrence attrs g).
Proof.
  unfold match_at. destruct (startswith s (lit "<text")) eqn:Hs; [|done].
  apply startswith_spec in Hs as [s1 ->].
  change (drop 5 (lit "<text" ++ s1)) with s1.
  pose proof (take_until_split gt_sign s1) as Hsplit.
  pose proof (take_until_not_in gt_sign s1) as Hattrs.
  set (attrs := take_until gt_sign s1) in *.
  destruct (drop (length attrs) s1) as [|c s3] eqn:Hd; [done|].
  destruct (c =? gt_sign) eqn:Hc; [|done]. apply N.eqb_eq in Hc as ->.
  pose proof (take_until_split lt_sign s3) as Hsplit3.
  pose proof (take_until_not_in lt_sign s3) as Hbody.
  set (body := take_until lt_sign s3) in *.
  destruct body as [|b body'] eqn:Hb; [done|].
  destruct (startswith _ (lit "</text>")) eqn:Hend; [|done].
  apply startswith_spec in Hend as [post Hpost].
  intros [= <- <-]. exists attrs, post. split; [|split].
  - unfold occurrence. rewrite Hsplit at 1. rewrite Hsplit3 at 1. rewrite Hpost.
    by rewrite <- !app_assoc, <- !app_comm_cons, <- !app_assoc.
  - done.
  - unfold occurrence. rewrite !length_app. cbn [length]. rewrite !length_app.
    change (length (lit "<text")) with 5%nat. change (length (lit "</text>")) with 7%nat.
    cbn [length]. lia.
Qed.

Lemma match_at_complete attrs g post :
  well_formed_occurrence attrs g ->
  match_at (occurrence attrs g ++ post) = Some (g, length (occurrence attrs g)).
Proof.
  intros (Ha & Hg & Hl). unfold match_at.
  assert (startswith (occurrence attrs g ++ post) (lit "<text") = true) as ->.
  { apply startswith_spec. unfold occurrence. rewrite <- app_assoc. eauto. }
  assert (drop 5 (occurrence attrs g ++ post)
          = attrs ++ gt_sign :: (g ++ lit "</text>" ++ post)) as ->.
  { unfold occurrence. rewrite <- !app_assoc. cbn. by rewrite <- app_assoc. }
  rewrite take_until_app by done.
  rewrite drop_app_length. rewrite N.eqb_refl.
  change (lit "</text>" ++ post) with (lt_sign :: (drop 1 (lit "</text>") ++ post)).
  rewrite take_until_app by done.
  destruct g as [|b g']; [done|].
  rewrite drop_app_length.
  assert (startswith (lt_sign :: drop 1 (lit "</text>") ++ post) (lit "</text>") = true) as ->.
  { apply startswith_spec. by exists post. }
  f_equal. f_equal. unfold occurrence. rewrite !length_app. cbn [length].
  rewrite !length_app. change (length (lit "<text")) with 5%nat.
  change (length (lit "</text>")) with 7%nat. cbn [length]. lia.
Qed.

Lemma findall_from_sound skip s m :
  m ∈ findall_from skip s ->
  ∃ pre attrs post, s = pre ++ occurrence attrs m ++ post ∧ well_formed_occurrence attrs m.
Proof.
  revert skip. induction s as [|c s IH]; intros skip; simpl.
  - intros H. by apply elem_of_nil in H.
  - destruct skip as [|k].
    + destruct (match_at (c :: s)) as [[g n]|] eqn:Hm.
      * rewrite elem_of_cons. intros [->|H].
        -- apply match_at_sound in Hm as (attrs & post & Hs & Hwf & _).
           exists [], attrs, post. by rewrite Hs.
        -- apply IH in H as (pre & attrs & post & -> & Hwf).
           by exists (c :: pre), attrs, post.
      * intros H. apply IH in H as (pre & attrs & post & -> & Hwf).
        by exists (c :: pre), attrs, post.
    + intros H. apply IH in H as (pre & attrs & post & -> & Hwf).
      by exists (c :: pre), attrs, post.
Qed.

Lemma occurrence_not_nil attrs g post : occurrence attrs g ++ post ≠ [].
Proof. unfold occurrence. by cbn. Qed.

Lemma findall_text_complete pre attrs g post :
  well_formed_occurrence attrs g ->
  findall_text (pre ++ occurrence attrs g ++ post) ≠ [].
Proof.
  intros Hwf. unfold findall_text. induction pre as [|c pre IH].
  - cbn [app]. pose proof (match_at_complete attrs g post Hwf) as Hm.
    pose proof (occurrence_not_nil attrs g post) as Hne.
    destruct (occurrence attrs g ++ post) as [|x rest]; [done|].
    simpl. simpl in Hm. rewrite Hm. done.
  - cbn [app findall_from].
    destruct (match_at _) as [[g' n]|]; [done|exact IH].
Qed.

(** The regex finds nothing exactly when the text contains no well-formed
    occurrence of the pattern. *)
Lemma findall_text_nil_iff s :
  findall_text s = [] <->
  ¬ ∃ pre attrs g post, s = pre ++ occurrence attrs g ++ post ∧ well_formed_occurrence attrs g.
Proof.
  split.
  - intros Hnil (pre & attrs & g & post & -> & Hwf).
    by apply (findall_text_complete pre attrs g post Hwf).
  - intros Hno. destruct (findall_text s) as [|m ms] eqn:Hf; [done|].
    exfalso. apply Hno.
    assert (m ∈ findall_text s) as Hin by (rewrite Hf; apply list_elem_of_here).
    apply findall_from_sound in Hin as (pre & attrs & post & Hs & Hwf).
    by exists pre, attrs, m, post.
Qed.

(** ** [re.findall] reports the leftmost occurrences in turn *)

Lemma findall_from_drop skip s : findall_from skip s = findall_from 0 (drop skip s).
Proof.
  revert skip. induction s as [|c s IH]; intros [|k]; try reflexivity.
  cbn [findall_from drop]. apply IH.
Qed.

Lemma findall_text_match s g n :
  match_at s = Some (g, n) -> findall_text s = g :: findall_text (drop n s).
Proof.
  intros Hm. pose proof (match_at_sound _ _ _ Hm) as (attrs & post & Hs & _ & Hn).
  destruct s as [|c s]; [by destruct (occurrence_not_nil attrs g post)|].
  unfold findall_text. cbn [findall_from]. rewrite Hm. f_equal.
  rewrite findall_from_drop. f_equal.
  assert (n = S (n - 1)) as -> by (rewrite Hn; unfold occurrence; cbn; lia).
  cbn [drop]. f_equal. lia.
Qed.

Lemma findall_text_skip c s :
  match_at (c :: s) = None -> findall_text (c :: s) = findall_text s.
Proof. intros Hm. unfold findall_text. cbn [findall_from]. by rewrite Hm. Qed.

Lemma match_at_occurrence attrs g post :
  well_formed_occurrence attrs g -> match_at (occurrence attrs g ++ post) ≠ None.
Proof. intros Hwf. by rewrite (match_at_complete _ _ _ Hwf). Qed.

Lemma pattern_scan_cons c s groups :
  match_at (c :: s) = None -> pattern_scan s groups -> pattern_scan (c :: s) groups.
Proof.
  intros Hm Hscan. destruct Hscan as [s Hno|pre attrs g post groups Hwf Hleft Hrest].
  - apply scan_end. intros (pre & attrs & g & post & Hs & Hwf).
    destruct pre as [|c' pre].
    + cbn [app] in Hs. rewrite Hs in Hm. by apply (match_at_occurrence attrs g post).
    + injection Hs as _ Hs. apply Hno. by exists pre, attrs, g, post.
  - change (c :: pre ++ occurrence attrs g ++ post)
      with ((c :: pre) ++ occurrence attrs g ++ post).
    apply scan_next; [done| |done].
    intros pre' attrs' g' post' Hs Hwf'. destruct pre' as [|c' pre'].
    + cbn [app] in Hs. change ((c :: pre) ++ occurrence attrs g ++ post)
        with (c :: pre ++ occurrence attrs g ++ post) in Hs.
      rewrite Hs in Hm. by destruct (match_at_occurrence attrs' g' post').
    + injection Hs as _ Hs. cbn [length]. apply le_n_S. by apply (Hleft _ _ _ _ Hs).
Qed.

Lemma findall_text_scan s : pattern_scan s (findall_text s).
Proof.
  remember (length s) as n eqn:Hn. revert s Hn.
  induction n as [n IH] using lt_wf_ind. intros s ->.
  destruct s as [|c s].
  - apply scan_end. intros (pre & attrs & g & post & Hs & _).
    destruct pre; [by destruct (occurrence_not_nil attrs g post)|done].
  - destruct (match_at (c :: s)) as [[g n]|] eqn:Hm.
    + rewrite (findall_text_match _ _ _ Hm).
      apply match_at_sound in Hm as (attrs & post & Hs & Hwf & ->).
      rewrite Hs, drop_app_length.
      apply (scan_next [] attrs g post); [done|intros; cbn; lia|].
      apply (IH (length post)); [|done].
      rewrite Hs, length_app. unfold occurrence. rewrite length_app. cbn. lia.
    + rewrite (findall_text_skip _ _ Hm). apply pattern_scan_cons; [done|].
      apply (IH (length s)); [cbn; lia|done].
Qed.

Lemma pattern_scan_unique s groups : pattern_scan s groups -> groups = findall_text s.
Proof.
  induction 1 as [s Hno|pre attrs g post groups Hwf Hleft _ IH].
  - symmetry. by apply findall_text_nil_iff.
  - subst groups. induction pre as [|c pre IHpre].
    + cbn [app]. rewrite (findall_text_match _ _ _ (match_at_complete _ _ post Hwf)).
      by rewrite drop_app_length.
    + change ((c :: pre) ++ occurrence attrs g ++ post)
        with (c :: pre ++ occurrence attrs g ++ post).
      rewrite findall_text_skip.
      * apply IHpre. intros pre' attrs' g' post' Hs Hwf'.
        apply le_S_n. apply (Hleft (c :: pre') attrs' g' post'); [|done].
        cbn [app]. by rewrite Hs.
      * destruct (match_at _) as [[g' n]|] eqn:Hm; [|done]. exfalso.
        apply match_at_sound in Hm as (attrs' & post' & Hs & Hwf' & _).
        pose proof (Hleft [] attrs' g' post' Hs Hwf') as Hle. cbn in Hle. lia.
Qed.

End Pattern.

(* ===================================================================== *)
(** * Reasoning about computations *)
(* ===================================================================== *)

Section Computations.

Context {A B : Type}.

Lemma bind_inv (m : M A) (k : A -> M B) st o st' :
  bind m k st = (o, st') ->
  (∃ a st1, m st = (Return a, st1) ∧ k a st1 = (o, st'))
  ∨ (∃ e, m st = (Raise e, st') ∧ o = Raise e).
Proof.
  unfold bind. destruct (m st) as [[a|e] st1]; intros H.
  - left. eauto.
  - right. injection H as <- <-. eauto.
Qed.

Lemma try_except_inv (m : M A) (h : exn -> M A) st o st' :
  try_except m h st = (o, st') ->
  (∃ a, m st = (Return a, st') ∧ o = Return a)
  ∨ (∃ e st1, m st = (Raise e, st1) ∧ h e st1 = (o, st')).
Proof.
  unfold try_except. destruct (m st) as [[a|e] st1]; intros H.
  - left. injection H as <- <-. eauto.
  - right. eauto.
Qed.

Lemma bind_return (m : M A) (k : A -> M B) st a st1 :
  m st = (Return a, st1) -> bind m k st = k a st1.
Proof. unfold bind. by intros ->. Qed.

Lemma bind_raise (m : M A) (k : A -> M B) st e st1 :
  m st = (Raise e, st1) -> bind m k st = (Raise e, st1).
Proof. unfold bind. by intros ->. Qed.

Lemma try_except_return (m : M A) (h : exn -> M A) st a st1 :
  m st = (Return a, st1) -> try_except m h st = (Return a, st1).
Proof. unfold try_except. by intros ->. Qed.

Lemma try_except_raise (m : M A) (h : exn -> M A) st e st1 :
  m st = (Raise e, st1) -> try_except m h st = h e st1.
Proof. unfold try_except. by intros ->. Qed.

End Computations.

(** ** Frames *)

Section Frames.

Context (P : Call -> Prop).

Lemma frame_refl {A} (o : outcome A) st :
  db st = db st ∧ next_id st = next_id st
  ∧ ∃ calls, trace st = trace st ++ calls ∧ Forall P calls.
Proof. split; [done|]. split; [done|]. exists []. by rewrite app_nil_r. Qed.

Lemma frame_ret {A} (a : A) : frame P (ret a).
Proof. intros st o st' [= <- <-]. by apply (frame_refl (Return a)). Qed.

Lemma frame_raise {A} (e : exn) : frame P (@raise A e).
Proof. intros st o st' [= <- <-]. by apply (frame_refl (@Raise A e)). Qed.

Lemma frame_lift {A} (x : outcome A) : frame P (lift x).
Proof. intros st o st' [= <- <-]. by apply (frame_refl x). Qed.

Lemma frame_fail_if (x : option exn) : frame P (fail_if x).
Proof. destruct x; [apply frame_raise|apply frame_ret]. Qed.

Lemma frame_index0 {A} (l : list A) : frame P (index0 l).
Proof. destruct l; [apply frame_raise|apply frame_ret]. Qed.

Lemma frame_get_db : frame P get_db.
Proof. intros st o st' [= <- <-]. by apply (frame_refl (Return (db st))). Qed.

Lemma frame_set_files f : frame P (set_files f).
Proof.
  intros st o st' [= <- <-]. cbn. split; [done|]. split; [done|].
  exists []. by rewrite app_nil_r.
Qed.

Lemma frame_now w : frame P (now w).
Proof.
  intros st o st' [= <- <-]. cbn. split; [done|]. split; [done|].
  exists []. by rewrite app_nil_r.
Qed.

Lemma frame_open_rb p : frame P (open_rb p).
Proof.
  intros st o st'. unfold open_rb. case_bool_decide; intros [= <- <-].
  - by apply (frame_refl (Return tt)).
  - by apply (frame_refl (@Raise unit (no_such_file p))).
Qed.

Lemma frame_os_remove p : frame P (os_remove p).
Proof.
  intros st o st'. unfold os_remove. case_bool_decide.
  - apply frame_set_files.
  - intros [= <- <-]. by apply (frame_refl (@Raise unit (no_such_file p))).
Qed.

Lemma frame_log c : P c -> frame P (log c).
Proof.
  intros Hc st o st' [= <- <-]. cbn. split; [done|]. split; [done|].
  exists [c]. split; [done|]. by constructor.
Qed.

Lemma frame_trans st st1 st' :
  (db st1 = db st ∧ next_id st1 = next_id st
   ∧ ∃ calls, trace st1 = trace st ++ calls ∧ Forall P calls) ->
  (db st' = db st1 ∧ next_id st' = next_id st1
   ∧ ∃ calls, trace st' = trace st1 ++ calls ∧ Forall P calls) ->
  db st' = db st ∧ next_id st' = next_id st
  ∧ ∃ calls, trace st' = trace st ++ calls ∧ Forall P calls.
Proof.
  intros (Hd1 & Hn1 & c1 & Ht1 & Hc1) (Hd2 & Hn2 & c2 & Ht2 & Hc2).
  split; [congruence|]. split; [congruence|].
  exists (c1 ++ c2). split.
  - by rewrite Ht2, Ht1, app_assoc.
  - by apply Forall_app.
Qed.

Lemma frame_bind {A B} (m : M A) (k : A -> M B) :
  frame P m -> (∀ a, frame P (k a)) -> frame P (bind m k).
Proof.
  intros Hm Hk st o st' H.
  apply bind_inv in H as [(a & st1 & H1 & H2)|(e & H1 & ->)].
  - eapply frame_trans; [by eapply Hm|by eapply Hk].
  - by eapply Hm.
Qed.

Lemma frame_try_except {A} (m : M A) (h : exn -> M A) :
  frame P m -> (∀ e, frame P (h e)) -> frame P (try_except m h).
Proof.
  intros Hm Hh st o st' H.
  apply try_except_inv in H as [(a & H1 & ->)|(e & st1 & H1 & H2)].
  - by eapply Hm.
  - eapply frame_trans; [by eapply Hm|by eapply Hh].
Qed.

End Frames.

Create HintDb frame discriminated.
#[local] Hint Resolve frame_ret frame_raise frame_lift frame_fail_if frame_index0
  frame_get_db frame_set_files frame_now frame_open_rb frame_os_remove : frame.
#[local] Hint Extern 2 (frame _ (bind _ _)) => apply frame_bind; [|intros ?] : frame.
#[local] Hint Extern 2 (frame _ (try_except _ _)) =>
  apply frame_try_except; [|intros ?] : frame.
#[local] Hint Extern 3 (frame _ (log _)) => apply frame_log; exact I : frame.
#[local] Hint Extern 3 (frame _ (log _)) => apply frame_log; cbn; tauto : frame.
#[local] Hint Extern 4 (frame _ (match ?x with _ => _ end)) => destruct x : frame.
#[local] Hint Extern 4 (frame _ (if ?x then _ else _)) => destruct x : frame.

Ltac frame_auto := unfold not; auto 30 with frame.

Section Starts.

Context (P : Call -> Prop) (c : Call).

Lemma starts_log {A} (k : unit -> M A) :
  (∀ u, frame P (k u)) -> starts_with c (bind (log c) k).
Proof.
  intros Hk st o st' H. unfold bind, log in H. cbn in H.
  destruct (Hk tt _ _ _ H) as (_ & _ & calls & Ht & _).
  exists calls. rewrite Ht. cbn. by rewrite <- app_assoc.
Qed.

Lemma starts_bind {A B} (m : M A) (k : A -> M B) :
  starts_with c m -> (∀ a, frame P (k a)) -> starts_with c (bind m k).
Proof.
  intros Hm Hk st o st' H.
  apply bind_inv in H as [(a & st1 & H1 & H2)|(e & H1 & ->)].
  - destruct (Hm _ _ _ H1) as (c1 & Ht1).
    destruct (Hk a _ _ _ H2) as (_ & _ & c2 & Ht2 & _).
    exists (c1 ++ c2). rewrite Ht2, Ht1. by rewrite <- app_assoc.
  - by eapply Hm.
Qed.

Lemma starts_try_except {A} (m : M A) (h : exn -> M A) :
  starts_with c m -> (∀ e, frame P (h e)) -> starts_with c (try_except m h).
Proof.
  intros Hm Hh st o st' H.
  apply try_except_inv in H as [(a & H1 & ->)|(e & st1 & H1 & H2)].
  - by eapply Hm.
  - destruct (Hm _ _ _ H1) as (c1 & Ht1).
    destruct (Hh e _ _ _ H2) as (_ & _ & c2 & Ht2 & _).
    exists (c1 ++ c2). rewrite Ht2, Ht1. by rewrite <- app_assoc.
Qed.

End Starts.

Lemma frame_weaken (P Q : Call -> Prop) {A} (m : M A) :
  (∀ c, P c -> Q c) -> frame P m -> frame Q m.
Proof.
  intros HPQ Hm st o st' H. destruct (Hm st o st' H) as (Hd & Hn & calls & Ht & Hc).
  split; [done|]. split; [done|]. exists calls. split; [done|].
  eapply Forall_impl; eauto.
Qed.

Section ServiceFrames.

Context (w : World).

(** The caption parser touches nothing. *)
Lemma frame_extract P xml : frame P (_extract_text_from_xml_transcript w xml).
Proof. unfold _extract_text_from_xml_transcript. frame_auto. Qed.

Lemma frame_convert P wav : P (CallDeepgram wav) -> frame P (convert_audio_to_text w wav).
Proof.
  intros HP. unfold convert_audio_to_text.
  apply frame_try_except; [|frame_auto].
  apply frame_bind; [frame_auto|intros _].
  apply frame_bind; [by apply frame_log|intros _]. frame_auto.
Qed.

(** The acquirer writes no row and never calls the generative model. *)
Lemma frame_audio video_url :
  frame (fun c => ¬ is_gemini c) (_get_subtitle_from_audio w video_url).
Proof.
  unfold _get_subtitle_from_audio.
  apply frame_try_except; [|frame_auto].
  apply frame_bind; [apply frame_log; cbn; tauto|intros _].
  apply frame_bind; [frame_auto|intros fn].
  apply frame_bind; [apply frame_log; cbn; tauto|intros _].
  do 6 (apply frame_bind; [frame_auto|intros _]).
  apply frame_convert. cbn. tauto.
Qed.

Lemma frame_fetch video_url :
  frame (fun c => ¬ is_gemini c) (fetch_subtitle w video_url).
Proof.
  unfold fetch_subtitle.
  apply frame_bind; [apply frame_log; cbn; tauto|intros _].
  apply frame_bind; [frame_auto|intros captions].
  destruct captions as [|caption rest]; [apply frame_audio|].
  apply frame_bind; [apply frame_log; cbn; tauto|intros _].
  apply frame_bind; [frame_auto|intros response].
  apply frame_bind; [frame_auto|intros _].
  apply frame_extract.
Qed.

Lemma frame_acquirer video_url :
  frame (fun c => ¬ is_gemini c) (get_video_metadata_from_youtube_video_url w video_url).
Proof.
  unfold get_video_metadata_from_youtube_video_url.
  apply frame_bind; [|frame_auto].
  apply frame_try_except; [apply frame_fetch|frame_auto].
Qed.

(** The generator writes no row. *)
Lemma frame_generator subtitle video_url title channel :
  frame (fun _ => True) (_generate_note_with_gemini w subtitle video_url title channel).
Proof.
  unfold _generate_note_with_gemini, generate_body, validate_generated. frame_auto.
Qed.

End ServiceFrames.

(* ===================================================================== *)
(** * The orchestrator *)
(* ===================================================================== *)

Section Orchestrator.

Context (w : World).

Lemma select_first_Some u video_url rows n :
  select_first u video_url rows = Some n ->
  n ∈ rows ∧ user_id n = u ∧ youtube_url n = video_url.
Proof.
  unfold select_first. intros H. apply find_some in H as [Hin Hb].
  apply andb_true_iff in Hb as [H1 H2].
  apply bool_decide_eq_true in H1, H2. by rewrite list_elem_of_In.
Qed.

Lemma select_first_None u video_url rows :
  select_first u video_url rows = None ->
  ∀ n, n ∈ rows -> ¬ (user_id n = u ∧ youtube_url n = video_url).
Proof.
  unfold select_first. intros H n Hin [H1 H2].
  apply list_elem_of_In in Hin.
  pose proof (find_none _ _ H n Hin) as Hb. cbn in Hb.
  rewrite !bool_decide_eq_true_2 in Hb by done. discriminate.
Qed.

Lemma select_first_is_Some u video_url rows :
  (∃ n, n ∈ rows ∧ user_id n = u ∧ youtube_url n = video_url) ->
  ∃ existing, select_first u video_url rows = Some existing.
Proof.
  intros (n & Hin & H1 & H2).
  destruct (select_first u video_url rows) as [existing|] eqn:E; [eauto|].
  exfalso. by apply (select_first_None _ _ _ E n Hin).
Qed.

Lemma select_first_app_new u video_url rows n :
  select_first u video_url rows = None ->
  user_id n = u -> youtube_url n = video_url ->
  select_first u video_url (rows ++ [n]) = Some n.
Proof.
  unfold select_first. intros Hnone H1 H2. induction rows as [|r rows IH].
  - cbn. by rewrite !bool_decide_eq_true_2.
  - cbn in *. destruct (bool_decide (user_id r = u) && bool_decide (youtube_url r = video_url));
      [done|by apply IH].
Qed.

(** Looking up an existing note: [create_note] returns at once. *)
Lemma create_note_existing user_id' note_data st existing :
  select_first user_id' (nc_youtube_url note_data) (db st) = Some existing ->
  create_note w user_id' note_data st = (Return existing, st).
Proof. intros H. unfold create_note, bind, get_db. by rewrite H. Qed.

Lemma create_note_new user_id' note_data st :
  select_first user_id' (nc_youtube_url note_data) (db st) = None ->
  create_note w user_id' note_data st
  = try_except (create_body w user_id' note_data)
      (fun e => match e with
                | HTTPException _ _ => raise e
                | _ => raise (creation_failed w e)
                end) st.
Proof. intros H. unfold create_note, bind, get_db. by rewrite H. Qed.

(** The acquirer and the generator each begin with an outside call, so a
    run that leaves the trace unchanged has invoked neither. *)
Lemma acquirer_starts video_url :
  starts_with (CallYouTube video_url) (get_video_metadata_from_youtube_video_url w video_url).
Proof.
  unfold get_video_metadata_from_youtube_video_url.
  apply (starts_bind (fun _ => True)); [|frame_auto].
  apply (starts_try_except (fun _ => True)); [|frame_auto].
  apply (starts_log (fun _ => True)). intros _.
  apply (frame_weaken (fun c => ¬ is_gemini c)); [done|].
  apply frame_bind; [frame_auto|intros captions].
  destruct captions as [|caption rest]; [apply frame_audio|].
  apply frame_bind; [apply frame_log; cbn; tauto|intros _].
  apply frame_bind; [frame_auto|intros response].
  apply frame_bind; [frame_auto|intros _].
  apply frame_extract.
Qed.

Lemma generator_starts subtitle video_url title channel :
  starts_with (CallGemini (build_prompt subtitle video_url title channel))
    (_generate_note_with_gemini w subtitle video_url title channel).
Proof.
  unfold _generate_note_with_gemini, generate_body.
  apply (starts_try_except (fun _ => True)); [|frame_auto].
  apply (starts_log (fun _ => True)). intros _.
  unfold validate_generated. frame_auto.
Qed.

Lemma value_missing_false v :
  value_missing w v = false -> narrative_present w v.
Proof.
  unfold value_missing, narrative_present. intros H.
  apply orb_false_iff in H as [Ht Hs].
  apply negb_false_iff in Ht. apply bool_decide_eq_false in Hs.
  split; [by intros ->|]. split; [by intros ->|done].
Qed.

Lemma list_missing_false l :
  list_missing l = false -> nonempty_list_column w (dumps_or_none w l).
Proof.
  unfold list_missing, nonempty_list_column, dumps_or_none.
  destruct l as [|x l]; [done|]. intros _. by exists (x :: l).
Qed.

Lemma missing_fields_nil r :
  missing_fields w r = [] ->
  value_missing w (g_video_title r) = false ∧ value_missing w (g_channel_name r) = false
  ∧ value_missing w (g_summary r) = false
  ∧ list_missing (g_key_points r) = false ∧ list_missing (g_timestamps r) = false.
Proof.
  unfold missing_fields.
  destruct (value_missing w (g_video_title r)); [done|].
  destruct (value_missing w (g_channel_name r)); [done|].
  destruct (value_missing w (g_summary r)); [done|].
  destruct (list_missing (g_key_points r)); [done|].
  destruct (list_missing (g_timestamps r)); done.
Qed.

Lemma now_inv st o st' :
  now w st = (o, st') ->
  o = Return (utcnow w (clock st)) ∧ db st' = db st ∧ next_id st' = next_id st
  ∧ trace st' = trace st ∧ files st' = files st.
Proof. by intros [= <- <-]. Qed.

Lemma session_insert_inv n st o st' :
  session_insert w n st = (o, st') ->
  (o = Return (with_id (next_id st) n) ∧ db st' = db st ++ [with_id (next_id st) n]
   ∧ trace st' = trace st)
  ∨ (∃ e, o = Raise e ∧ st' = st).
Proof.
  unfold session_insert. destruct (commit_error w _) as [e|]; intros [= <- <-].
  - right. eauto.
  - by left.
Qed.

(** What the body of [create_note] can do to the table: append one complete
    row of the requesting user, or nothing. *)
Lemma create_body_outcome user_id' note_data st o st' :
  create_body w user_id' note_data st = (o, st') ->
  match o with
  | Return n =>
      db st' = db st ++ [n] ∧ id n = next_id st ∧ user_id n = user_id'
      ∧ youtube_url n = nc_youtube_url note_data ∧ complete_note w n
  | Raise _ => db st' = db st
  end.
Proof.
  unfold create_body. intros H.
  apply bind_inv in H as [(video & st1 & H1 & H)|(e & H1 & ->)].
  2: { by destruct (frame_acquirer w _ _ _ _ H1) as (-> & _). }
  destruct (frame_acquirer w _ _ _ _ H1) as (Hd1 & Hn1 & _).
  destruct (blank (v_caption video)).
  { injection H as <- <-. done. }
  apply bind_inv in H as [(g & st2 & H2 & H)|(e & H2 & ->)].
  2: { destruct (frame_generator w _ _ _ _ _ _ _ H2) as (-> & _). done. }
  destruct (frame_generator w _ _ _ _ _ _ _ H2) as (Hd2 & Hn2 & _).
  destruct (missing_fields w g) as [|f fs] eqn:Hmiss.
  2: { injection H as <- <-. congruence. }
  apply missing_fields_nil in Hmiss as (Hv1 & Hv2 & Hv3 & Hl1 & Hl2).
  apply bind_inv in H as [(created & st3 & H3 & H)|(e & H3 & ->)].
  2: { apply now_inv in H3 as ([=] & _). }
  apply now_inv in H3 as (_ & Hd3 & Hn3 & _).
  apply bind_inv in H as [(updated & st4 & H4 & H)|(e & H4 & ->)].
  2: { apply now_inv in H4 as ([=] & _). }
  apply now_inv in H4 as (_ & Hd4 & Hn4 & _).
  apply session_insert_inv in H as [(-> & Hdb & _)|(e & -> & ->)].
  2: { congruence. }
  split; [rewrite Hdb; congruence|]. split; [cbn; congruence|].
  split; [done|]. split; [done|].
  unfold complete_note. cbn.
  refine (conj _ (conj _ (conj _ (conj _ _))));
    auto using value_missing_false, list_missing_false.
Qed.

(** What [create_note] can do to the table. *)
Lemma create_note_outcome user_id' note_data st o st' :
  create_note w user_id' note_data st = (o, st') ->
  match o with
  | Return n =>
      user_id n = user_id' ∧ youtube_url n = nc_youtube_url note_data
      ∧ ((n ∈ db st ∧ st' = st) ∨ (db st' = db st ++ [n] ∧ complete_note w n
           ∧ select_first user_id' (nc_youtube_url note_data) (db st) = None))
  | Raise _ => db st' = db st
  end.
Proof.
  intros H.
  destruct (select_first user_id' (nc_youtube_url note_data) (db st)) as [n|] eqn:Hsel.
  - rewrite (create_note_existing _ _ _ _ Hsel) in H. injection H as <- <-.
    apply select_first_Some in Hsel as (? & ? & ?). auto.
  - rewrite (create_note_new _ _ _ Hsel) in H.
    apply try_except_inv in H as [(n & H1 & ->)|(e & st1 & H1 & H2)].
    + apply create_body_outcome in H1 as (? & ? & ? & ? & ?). auto 10.
    + apply create_body_outcome in H1.
      destruct e; injection H2 as <- <-; done.
Qed.

End Orchestrator.

(** C1. If a note with the pair (user id, URL) is already stored,
    [create_note] returns a stored note with that pair and ends in the very
    state it started in: no row is changed (so no [updated_at] either), and
    the trace of outside calls is the same, so neither the transcript
    acquirer nor the note generator was invoked. *)
Theorem create_note_returns_existing
    (w : World) (user_id' : nat) (note_data : NoteCreate) (st : State) :
  (∃ n, n ∈ db st ∧ user_id n = user_id' ∧ youtube_url n = nc_youtube_url note_data) ->
  ∃ existing,
    create_note w user_id' note_data st = (Return existing, st)
    ∧ existing ∈ db st
    ∧ user_id existing = user_id'
    ∧ youtube_url existing = nc_youtube_url note_data.
Proof.
  intros Hex. apply select_first_is_Some in Hex as [existing Hsel].
  exists existing. split; [by apply create_note_existing|].
  by apply select_first_Some in Hsel.
Qed.

Lemma create_note_returns_existing_witness :
  ∃ existing,
    create_note complete_world 1 demo_request stored_state = (Return existing, stored_state)
    ∧ existing ∈ db stored_state
    ∧ user_id existing = 1%nat
    ∧ youtube_url existing = nc_youtube_url demo_request.
Proof.
  apply (create_note_returns_existing complete_world 1 demo_request stored_state).
  exists stored_note. split; [apply list_elem_of_here|]. split; reflexivity.
Defined.

(** Submitting the same request again after a successful submission gives
    the same note, with the same id, and changes nothing. *)
Lemma create_note_twice (w : World) (user_id' : nat) (note_data : NoteCreate) st n st1 :
  create_note w user_id' note_data st = (Return n, st1) ->
  create_note w user_id' note_data st1 = (Return n, st1).
Proof.
  intros H. pose proof (create_note_outcome w _ _ _ _ _ H) as (Hu & Hy & Hcase).
  destruct Hcase as [[Hin ->]|(Hdb & _ & Hnone)]; [done|].
  apply create_note_existing. rewrite Hdb. by apply select_first_app_new.
Qed.

(** C7. When the acquirer returns a transcript that is empty or blank,
    [create_note] raises the not-found condition (status 404, "No
    captions/subtitles available ...") and surfaces it unchanged; it ends
    in the state the acquirer left, in which no row was written and no call
    to the generative model was made. *)
Theorem create_note_blank_transcript
    (w : World) (user_id' : nat) (note_data : NoteCreate) (st st1 : State) (video : Video) :
  select_first user_id' (nc_youtube_url note_data) (db st) = None ->
  get_video_metadata_from_youtube_video_url w (nc_youtube_url note_data) st
    = (Return video, st1) ->
  v_caption video = [] ∨ strip (v_caption video) = [] ->
  create_note w user_id' note_data st
    = (Raise (HTTPException 404
                (lit "No captions/subtitles available for this video. Please choose a video with captions.")),
       st1)
  ∧ db st1 = db st
  ∧ ∃ calls, trace st1 = trace st ++ calls ∧ Forall (fun c => ¬ is_gemini c) calls.
Proof.
  intros Hsel Hacq Hblank. split.
  - rewrite (create_note_new w _ _ _ Hsel).
    assert (create_body w user_id' note_data st = (Raise no_captions, st1)) as Hbody.
    { unfold create_body. rewrite (bind_return _ _ _ _ _ Hacq).
      assert (blank (v_caption video) = true) as ->; [|done].
      unfold blank. destruct Hblank as [->| ->]; [done|by destruct (v_caption video)]. }
    by rewrite (try_except_raise _ _ _ _ _ Hbody).
  - destruct (frame_acquirer w _ _ _ _ Hacq) as (Hd & _ & Hcalls). by split.
Qed.

Lemma create_note_blank_transcript_witness :
  ∃ st1,
    create_note blank_caption_world 1 demo_request empty_state
      = (Raise (HTTPException 404
                  (lit "No captions/subtitles available for this video. Please choose a video with captions.")),
         st1)
    ∧ db st1 = db empty_state
    ∧ ∃ calls, trace st1 = trace empty_state ++ calls ∧ Forall (fun c => ¬ is_gemini c) calls.
Proof.
  eexists.
  eapply (create_note_blank_transcript blank_caption_world 1 demo_request empty_state _
            (mkVideo (lit "Demo video") (lit "   ") (lit "Demo channel") (Some 61%Z) None
               (Some 10%Z) None None)).
  - reflexivity.
  - vm_compute. reflexivity.
  - right. reflexivity.
Defined.

(* ===================================================================== *)
(** * The note generator *)
(* ===================================================================== *)

Section Generator.

Context (w : World).

Lemma value_missing_iff v : value_missing w v = true <-> empty_or_blank w v.
Proof.
  unfold value_missing, empty_or_blank.
  rewrite orb_true_iff, negb_true_iff, bool_decide_eq_true. done.
Qed.

Lemma list_missing_iff l : list_missing l = true <-> l = [].
Proof. destruct l; cbn; split; done. Qed.

Lemma elem_of_if_singleton (b : bool) (f name : str) :
  name ∈ (if b then [f] else []) <-> name = f ∧ b = true.
Proof.
  destruct b.
  - rewrite list_elem_of_singleton. tauto.
  - rewrite elem_of_nil. split; [done|]. by intros [_ ?].
Qed.

(** The list built by the five tests holds exactly the missing fields. *)
Lemma missing_fields_spec r name :
  name ∈ missing_fields w r <-> field_missing w r name.
Proof.
  unfold missing_fields, field_missing.
  rewrite !elem_of_app, !elem_of_if_singleton, !value_missing_iff, !list_missing_iff.
  tauto.
Qed.

Lemma missing_fields_NoDup r : NoDup (missing_fields w r).
Proof.
  unfold missing_fields.
  destruct (value_missing w (g_video_title r)), (value_missing w (g_channel_name r)),
    (value_missing w (g_summary r)), (list_missing (g_key_points r)),
    (list_missing (g_timestamps r));
    apply (bool_decide_unpack _); vm_compute; exact I.
Qed.

(** ... in the order of [required_fields]. *)
Lemma missing_fields_sublist r : sublist (missing_fields w r) required_fields.
Proof.
  unfold missing_fields, required_fields.
  destruct (value_missing w (g_video_title r)), (value_missing w (g_channel_name r)),
    (value_missing w (g_summary r)), (list_missing (g_key_points r)),
    (list_missing (g_timestamps r)); cbn;
    repeat first [apply sublist_nil | apply sublist_skip | apply sublist_cons ]. 
Qed.

Lemma validate_generated_missing r st :
  missing_fields w r ≠ [] ->
  validate_generated w r st = (Raise (incomplete_note (missing_fields w r)), st).
Proof. unfold validate_generated. by destruct (missing_fields w r). Qed.

Lemma validate_generated_complete r st :
  missing_fields w r = [] -> validate_generated w r st = (Return r, st).
Proof. unfold validate_generated. by intros ->. Qed.

(** The generator up to its validation step. *)
Lemma generate_body_run subtitle video_url title channel st text note_data r :
  generate_content w (build_prompt subtitle video_url title channel) = Return (Some text) ->
  parse_note_data w title channel (strip_fences text) = Return note_data ->
  structure_note_data title channel note_data = Return r ->
  generate_body w subtitle video_url title channel st
  = validate_generated w r
      (with_call (CallGemini (build_prompt subtitle video_url title channel)) st).
Proof.
  intros Hgen Hparse Hstruct. unfold generate_body, bind, log, lift, ret.
  by rewrite Hgen, Hparse, Hstruct.
Qed.

(** Whatever the body raises, an [HTTPException] included, is wrapped. *)
Lemma generator_wraps subtitle video_url title channel st e st' :
  generate_body w subtitle video_url title channel st = (Raise e, st') ->
  _generate_note_with_gemini w subtitle video_url title channel st
  = (Raise (generation_failed w e), st').
Proof. intros H. unfold _generate_note_with_gemini. by rewrite (try_except_raise _ _ _ _ _ H). Qed.

(** A list field of the candidate is empty exactly when the parsed object
    has no non-empty list under that key. *)
Lemma structured_list_empty_iff (d : list (str * pyval)) (k : str) :
  as_list (get_default d k (PList [])) = []
  <-> ¬ ∃ x l, dict_get k d = Some (PList (x :: l)).
Proof.
  unfold get_default. destruct (dict_get k d) as [v|]; cbn.
  - destruct v as [| | | | |[|x l]|]; cbn; split; try done;
      try (by intros _ (x' & l' & [=])).
    intros H. exfalso. apply H. eauto.
  - split; [|done]. by intros _ (x & l & [=]).
Qed.

(** A note that the generator returns has passed its validation, so the
    second check in [create_note] never fires. *)
Lemma generator_returns_complete subtitle video_url title channel st r st' :
  _generate_note_with_gemini w subtitle video_url title channel st = (Return r, st') ->
  missing_fields w r = [].
Proof.
  unfold _generate_note_with_gemini. intros H.
  apply try_except_inv in H as [(a & H & [= <-])|(e & st1 & _ & [=])].
  unfold generate_body in H.
  apply bind_inv in H as [(? & ? & _ & H)|(? & _ & [=])].
  apply bind_inv in H as [(? & ? & _ & H)|(? & _ & [=])].
  apply bind_inv in H as [(? & ? & _ & H)|(? & _ & [=])].
  apply bind_inv in H as [(? & ? & _ & H)|(? & _ & [=])].
  apply bind_inv in H as [(r' & ? & _ & H)|(? & _ & [=])].
  unfold validate_generated in H.
  destruct (missing_fields w r') eqn:E; [|done]. by injection H as <- <-.
Qed.

Lemma take_1000 (t : str) :
  (if (1000 <? length t)%nat then slice_to 1000 t else t) = take 1000 t.
Proof.
  unfold slice_to. destruct (1000 <? length t)%nat eqn:E; [done|].
  apply Nat.ltb_ge in E. by rewrite take_ge.
Qed.

End Generator.

(** C3. Take the candidate note [r] that the generator builds from the
    model's answer (the dict [result]; a title or channel that the answer
    leaves out is taken from the input, a list field that is not a list is
    taken as empty).  If one or more of its required fields is missing
    (empty, blank after trimming, or an empty list), the validation raises
    an internal error (status 500) whose detail lists, separated by commas,
    exactly the missing fields: each missing field once, in the order of
    the schema, and no field that is present.  The generator surfaces this
    error wrapped in its own internal error. *)
Theorem generator_names_missing_fields
    (w : World) (subtitle video_url title channel : str) (st : State)
    (text : str) (note_data : pyval) (r : GeneratedNote) :
  generate_content w (build_prompt subtitle video_url title channel) = Return (Some text) ->
  parse_note_data w title channel (strip_fences text) = Return note_data ->
  structure_note_data title channel note_data = Return r ->
  (∃ name, field_missing w r name) ->
  ∃ missing validation_error,
    validation_error
      = HTTPException 500
          (lit "Failed to generate complete note. Missing required fields: "
           ++ join (lit ", ") missing
           ++ lit ". Please try again or choose a different video.")
    ∧ validate_generated w r st = (Raise validation_error, st)
    ∧ _generate_note_with_gemini w subtitle video_url title channel st
      = (Raise (HTTPException 500
                  (lit "Failed to generate note with AI: " ++ exn_str w validation_error)),
         with_call (CallGemini (build_prompt subtitle video_url title channel)) st)
    ∧ (∀ name, name ∈ missing <-> field_missing w r name)
    ∧ NoDup missing
    ∧ sublist missing required_fields.
Proof.
  intros Hgen Hparse Hstruct [name Hname].
  assert (missing_fields w r ≠ []) as Hne.
  { apply (missing_fields_spec w) in Hname. intros E. rewrite E in Hname.
    by apply elem_of_nil in Hname. }
  exists (missing_fields w r), (incomplete_note (missing_fields w r)).
  split; [reflexivity|]. split; [by apply validate_generated_missing|].
  split.
  - apply generator_wraps.
    rewrite (generate_body_run w _ _ _ _ _ _ _ _ Hgen Hparse Hstruct).
    by apply validate_generated_missing.
  - split; [apply missing_fields_spec|].
    split; [apply missing_fields_NoDup|apply missing_fields_sublist].
Qed.

Lemma generator_names_missing_fields_witness :
  ∃ missing validation_error,
    validation_error
      = HTTPException 500
          (lit "Failed to generate complete note. Missing required fields: "
           ++ join (lit ", ") missing
           ++ lit ". Please try again or choose a different video.")
    ∧ validate_generated no_key_points_world
        (mkGeneratedNote (PStr (lit "Demo video")) (PStr (lit "Demo channel"))
           (PStr (lit "A summary.")) []
           [PDict [(lit "time", PStr (lit "00:10")); (lit "description", PStr (lit "Start"))]])
        empty_state = (Raise validation_error, empty_state)
    ∧ _generate_note_with_gemini no_key_points_world (lit "Hello big world") demo_url
        (lit "Demo video") (lit "Demo channel") empty_state
      = (Raise (HTTPException 500
                  (lit "Failed to generate note with AI: "
                   ++ exn_str no_key_points_world validation_error)),
         with_call (CallGemini (build_prompt (lit "Hello big world") demo_url
                                  (lit "Demo video") (lit "Demo channel"))) empty_state)
    ∧ (∀ name, name ∈ missing <->
         field_missing no_key_points_world
           (mkGeneratedNote (PStr (lit "Demo video")) (PStr (lit "Demo channel"))
              (PStr (lit "A summary.")) []
              [PDict [(lit "time", PStr (lit "00:10")); (lit "description", PStr (lit "Start"))]])
           name)
    ∧ NoDup missing
    ∧ sublist missing required_fields.
Proof.
  apply (generator_names_missing_fields no_key_points_world (lit "Hello big world") demo_url
           (lit "Demo video") (lit "Demo channel") empty_state
           no_key_points_text no_key_points_data).
  - reflexivity.
  - vm_compute. reflexivity.
  - vm_compute. reflexivity.
  - exists (lit "key_points"). unfold field_missing. do 3 right. left. split; reflexivity.
Defined.

(** C4 (as amended). When [json.loads] rejects the text handed to it (the
    model's answer after fence stripping) with a [JSONDecodeError], the
    generator goes on with a fixed candidate: title and channel are its
    inputs, the summary is the first 1000 characters of that text,
    [key_points] has one entry and [timestamps] has one entry whose time is
    "00:00", so neither list is ever reported missing.  The generator
    returns this very candidate when title, channel and summary are not
    blank, and otherwise fails with its validation error, which names
    exactly the blank ones.  A parse failure of any other kind gets no
    fallback: it ends the generator with its internal error. *)
Theorem fallback_on_parse_failure
    (w : World) (subtitle video_url title channel text : str) (st : State) :
  generate_content w (build_prompt subtitle video_url title channel) = Return (Some text) ->
  let response_text := strip_fences text in
  let st' := with_call (CallGemini (build_prompt subtitle video_url title channel)) st in
  let r :=
    mkGeneratedNote (PStr title) (PStr channel) (PStr (take 1000 response_text))
      [PStr (lit "Key point extracted from video")]
      [PDict [ (lit "time", PStr (lit "00:00"));
               (lit "description",
                 PStr (lit "Video content extracted (parsing failed, using fallback)")) ]] in
  (∀ msg,
     json_loads w response_text = Raise (JSONDecodeError msg) ->
     _generate_note_with_gemini w subtitle video_url title channel st
     = (match missing_fields w r with
        | [] => Return r
        | missing => Raise (generation_failed w (incomplete_note missing))
        end, st')
     ∧ (∀ name,
          name ∈ missing_fields w r
          <-> (name = lit "video_title" ∧ strip title = [])
              ∨ (name = lit "channel_name" ∧ strip channel = [])
              ∨ (name = lit "summary" ∧ strip (take 1000 response_text) = []))
     ∧ (missing_fields w r = []
        <-> strip title ≠ [] ∧ strip channel ≠ [] ∧ strip (take 1000 response_text) ≠ [])
     ∧ length (g_key_points r) = 1%nat
     ∧ length (g_timestamps r) = 1%nat)
  ∧ (∀ e,
       json_loads w response_text = Raise e ->
       (∀ msg, e ≠ JSONDecodeError msg) ->
       _generate_note_with_gemini w subtitle video_url title channel st
       = (Raise (generation_failed w e), st')).
Proof.
  intros Hgen response_text st' r.
  assert (∀ name,
            name ∈ missing_fields w r
            <-> (name = lit "video_title" ∧ strip title = [])
                ∨ (name = lit "channel_name" ∧ strip channel = [])
                ∨ (name = lit "summary" ∧ strip (take 1000 response_text) = []))
    as Hnames.
  { intros name. rewrite missing_fields_spec. unfold field_missing, empty_or_blank, r.
    cbn [g_video_title g_channel_name g_summary g_key_points g_timestamps].
    assert (∀ t : str, (truthy (PStr t) = false ∨ strip (py_str w (PStr t)) = [])
                       <-> strip t = []) as Hblank.
    { intros t. cbn [py_str]. split; [|by right].
      intros [Hempty|?]; [|done]. by destruct t. }
    rewrite !Hblank. split.
    - intros [?|[?|[?|[[_ ?]|[_ ?]]]]]; try tauto; discriminate.
    - tauto. }
  split.
  - intros msg Hloads.
    assert (parse_note_data w title channel response_text
            = Return (fallback_note_data title channel response_text)) as Hparse.
    { unfold parse_note_data. by rewrite Hloads. }
    assert (structure_note_data title channel (fallback_note_data title channel response_text)
            = Return r) as Hstruct.
    { unfold fallback_note_data, r. by rewrite take_1000. }
    split; [|split; [exact Hnames|split; [|done]]].
    + unfold _generate_note_with_gemini, try_except.
      rewrite (generate_body_run w _ _ _ _ _ _ _ _ Hgen Hparse Hstruct).
      unfold validate_generated. by destruct (missing_fields w r).
    + split.
      * intros Hnil. repeat split; intros Hb.
        -- assert (lit "video_title" ∈ missing_fields w r) as Hin by (apply Hnames; auto).
           rewrite Hnil in Hin. by apply elem_of_nil in Hin.
        -- assert (lit "channel_name" ∈ missing_fields w r) as Hin by (apply Hnames; auto).
           rewrite Hnil in Hin. by apply elem_of_nil in Hin.
        -- assert (lit "summary" ∈ missing_fields w r) as Hin by (apply Hnames; auto).
           rewrite Hnil in Hin. by apply elem_of_nil in Hin.
      * intros (Ht & Hc & Hs). destruct (missing_fields w r) as [|name rest] eqn:Hm; [done|].
        assert (name ∈ name :: rest) as Hin by apply list_elem_of_here.
        apply Hnames in Hin as [[_ ?]|[[_ ?]|[_ ?]]]; done.
  - intros e Hloads Hother.
    apply generator_wraps. unfold generate_body, bind, log, lift, ret.
    rewrite Hgen. fold response_text. unfold parse_note_data. rewrite Hloads.
    destruct e as [c d|m|m|m]; try reflexivity. by destruct (Hother m).
Qed.

Lemma fallback_on_parse_failure_witness :
  _generate_note_with_gemini caption_world (lit "Hello big world") demo_url
    (lit "Demo video") (lit "Demo channel") empty_state
  = (Return (mkGeneratedNote (PStr (lit "Demo video")) (PStr (lit "Demo channel"))
               (PStr (lit "not json"))
               [PStr (lit "Key point extracted from video")]
               [PDict [ (lit "time", PStr (lit "00:00"));
                        (lit "description",
                          PStr (lit "Video content extracted (parsing failed, using fallback)")) ]]),
     with_call (CallGemini (build_prompt (lit "Hello big world") demo_url
                              (lit "Demo video") (lit "Demo channel"))) empty_state).
Proof.
  destruct (fallback_on_parse_failure caption_world (lit "Hello big world") demo_url
              (lit "Demo video") (lit "Demo channel") (lit "not json") empty_state eq_refl)
    as [Hfallback _].
  destruct (Hfallback (lit "Expecting value") eq_refl) as (Hrun & _ & Hcomplete & _).
  rewrite (proj2 Hcomplete) in Hrun; [exact Hrun|].
  repeat split; vm_compute; discriminate.
Defined.

(** C4 as stated fails for a parse failure that is not a decoding error: an
    answer of five thousand opening brackets makes [json.loads] raise a
    [RecursionError]; title, channel and text are not blank, so the fallback
    candidate would pass the validation, yet the generator ends with its
    internal error and substitutes nothing. *)
Lemma recursion_error_gets_no_fallback :
  generate_content deep_nesting_world
    (build_prompt (lit "Hello big world") demo_url (lit "Demo video") (lit "Demo channel"))
  = Return (Some deeply_nested)
  ∧ json_loads deep_nesting_world (strip_fences deeply_nested) = Raise recursion_error
  ∧ missing_fields deep_nesting_world
      (mkGeneratedNote (PStr (lit "Demo video")) (PStr (lit "Demo channel"))
         (PStr (take 1000 (strip_fences deeply_nested)))
         [PStr (lit "Key point extracted from video")]
         [PDict [ (lit "time", PStr (lit "00:00"));
                  (lit "description",
                    PStr (lit "Video content extracted (parsing failed, using fallback)")) ]])
    = []
  ∧ _generate_note_with_gemini deep_nesting_world (lit "Hello big world") demo_url
      (lit "Demo video") (lit "Demo channel") empty_state
    = (Raise (HTTPException 500
                (lit "Failed to generate note with AI: maximum recursion depth exceeded while decoding a JSON array from a unicode string")),
       with_call (CallGemini (build_prompt (lit "Hello big world") demo_url
                                (lit "Demo video") (lit "Demo channel"))) empty_state).
Proof. repeat split; vm_compute; reflexivity. Qed.

(** C10. When the response is empty after fence stripping and therefore
    not JSON, the fallback object has the empty summary; the candidate built
    from it fails the generator's validation, which names [summary], while
    [key_points] and [timestamps] are not named. *)
Theorem fallback_with_empty_text_fails_validation
    (w : World) (subtitle video_url title channel : str) (st : State) (text msg : str) :
  generate_content w (build_prompt subtitle video_url title channel) = Return (Some text) ->
  strip_fences text = [] ->
  json_loads w [] = Raise (JSONDecodeError msg) ->
  ∃ d r missing,
    parse_note_data w title channel (strip_fences text) = Return (PDict d)
    ∧ dict_get (lit "summary") d = Some (PStr [])
    ∧ structure_note_data title channel (PDict d) = Return r
    ∧ g_summary r = PStr []
    ∧ _generate_note_with_gemini w subtitle video_url title channel st
      = (Raise (HTTPException 500
                  (lit "Failed to generate note with AI: "
                   ++ exn_str w
                        (HTTPException 500
                           (lit "Failed to generate complete note. Missing required fields: "
                            ++ join (lit ", ") missing
                            ++ lit ". Please try again or choose a different video.")))),
         with_call (CallGemini (build_prompt subtitle video_url title channel)) st)
    ∧ (lit "summary" ∈ missing)
    ∧ (lit "key_points" ∉ missing)
    ∧ (lit "timestamps" ∉ missing).
Proof.
  intros Hgen Hempty Hloads.
  assert (parse_note_data w title channel (strip_fences text)
          = Return (fallback_note_data title channel [])) as Hparse.
  { unfold parse_note_data. rewrite Hempty, Hloads. reflexivity. }
  pose (r := mkGeneratedNote (PStr title) (PStr channel) (PStr [])
               [PStr (lit "Key point extracted from video")]
               [PDict [ (lit "time", PStr (lit "00:00"));
                        (lit "description",
                          PStr (lit "Video content extracted (parsing failed, using fallback)")) ]]).
  assert (structure_note_data title channel (fallback_note_data title channel [])
          = Return r) as Hstruct by reflexivity.
  assert (lit "summary" ∈ missing_fields w r) as Hin.
  { apply missing_fields_spec. unfold field_missing. do 2 right. left.
    split; [reflexivity|]. by left. }
  eexists _, r, (missing_fields w r).
  split; [exact Hparse|]. split; [reflexivity|]. split; [exact Hstruct|].
  split; [reflexivity|]. split.
  - apply generator_wraps.
    rewrite (generate_body_run w _ _ _ _ _ _ _ _ Hgen Hparse Hstruct).
    apply validate_generated_missing. intros E. rewrite E in Hin.
    by apply elem_of_nil in Hin.
  - split; [exact Hin|].
    split; rewrite missing_fields_spec; unfold field_missing; cbn;
      intros [[E _]|[[E _]|[[E _]|[[_ E]|[E' E]]]]]; discriminate.
Qed.

Lemma fallback_with_empty_text_fails_validation_witness :
  ∃ d r missing,
    parse_note_data fences_only_world (lit "Demo video") (lit "Demo channel")
      (strip_fences (lit " ```json   ``` ")) = Return (PDict d)
    ∧ dict_get (lit "summary") d = Some (PStr [])
    ∧ structure_note_data (lit "Demo video") (lit "Demo channel") (PDict d) = Return r
    ∧ g_summary r = PStr []
    ∧ _generate_note_with_gemini fences_only_world (lit "Hello big world") demo_url
        (lit "Demo video") (lit "Demo channel") empty_state
      = (Raise (HTTPException 500
                  (lit "Failed to generate note with AI: "
                   ++ exn_str fences_only_world
                        (HTTPException 500
                           (lit "Failed to generate complete note. Missing required fields: "
                            ++ join (lit ", ") missing
                            ++ lit ". Please try again or choose a different video.")))),
         with_call (CallGemini (build_prompt (lit "Hello big world") demo_url
                                  (lit "Demo video") (lit "Demo channel"))) empty_state)
    ∧ (lit "summary" ∈ missing)
    ∧ (lit "key_points" ∉ missing)
    ∧ (lit "timestamps" ∉ missing).
Proof.
  apply (fallback_with_empty_text_fails_validation fences_only_world (lit "Hello big world")
           demo_url (lit "Demo video") (lit "Demo channel") empty_state
           (lit " ```json   ``` ") (lit "Expecting value")).
  - reflexivity.
  - vm_compute. reflexivity.
  - reflexivity.
Defined.

(* ===================================================================== *)
(** * Propagation of errors *)
(* ===================================================================== *)

(** The orchestrator lets an [HTTPException] pass as it is ... *)
Lemma create_note_passes_http_exception
    (w : World) (user_id' : nat) (note_data : NoteCreate) st c d st' :
  select_first user_id' (nc_youtube_url note_data) (db st) = None ->
  create_body w user_id' note_data st = (Raise (HTTPException c d), st') ->
  create_note w user_id' note_data st = (Raise (HTTPException c d), st').
Proof.
  intros Hsel H. rewrite (create_note_new w _ _ _ Hsel).
  by rewrite (try_except_raise _ _ _ _ _ H).
Qed.

(** ... and turns any other exception into an internal error carrying its
    message. *)
Lemma create_note_wraps_other_exception
    (w : World) (user_id' : nat) (note_data : NoteCreate) st e st' :
  select_first user_id' (nc_youtube_url note_data) (db st) = None ->
  create_body w user_id' note_data st = (Raise e, st') ->
  (∀ c d, e ≠ HTTPException c d) ->
  create_note w user_id' note_data st
  = (Raise (HTTPException 500 (lit "Failed to create note: " ++ exn_str w e)), st').
Proof.
  intros Hsel H Hne. rewrite (create_note_new w _ _ _ Hsel).
  rewrite (try_except_raise _ _ _ _ _ H).
  destruct e; try reflexivity. by destruct (Hne status_code detail).
Qed.

(** The generator's wrapper never gives back the validation error it
    wraps, however the framework prints exceptions. *)
Lemma generation_failed_differs (w : World) (missing : list str) :
  generation_failed w (incomplete_note missing) ≠ incomplete_note missing.
Proof.
  unfold generation_failed, incomplete_note. intros H.
  apply (f_equal (fun e => match e with HTTPException _ d => take 20 d | _ => [] end)) in H.
  vm_compute in H. discriminate.
Qed.

(** C8 fails in the generator: with a model answer whose [key_points] is
    empty, the validation raises an internal error with a detail of its
    own, and what reaches the caller of [create_note] is a second internal
    error whose detail wraps the printed form of the first. *)
Theorem generator_validation_error_is_wrapped :
  ∃ video st1 st',
    get_video_metadata_from_youtube_video_url no_key_points_world demo_url empty_state
      = (Return video, st1)
    ∧ generate_body no_key_points_world (v_caption video) demo_url (v_title video)
        (v_channel_name video) st1
      = (Raise (HTTPException 500
                  (lit "Failed to generate complete note. Missing required fields: key_points. Please try again or choose a different video.")),
         st')
    ∧ create_note no_key_points_world 1 demo_request empty_state
      = (Raise (HTTPException 500
                  (lit "Failed to generate note with AI: 500: Failed to generate complete note. Missing required fields: key_points. Please try again or choose a different video.")),
         st').
Proof.
  eexists _, _, _. split; [|split].
  - vm_compute. reflexivity.
  - vm_compute. reflexivity.
  - vm_compute. reflexivity.
Qed.

(* ===================================================================== *)
(** * Scratch files of the audio transcriber *)
(* ===================================================================== *)

Lemma removed_not_in (X : gset str) (a : str) : a ∉ X ∖ {[a]}.
Proof. rewrite elem_of_difference, elem_of_singleton. by intros [_ H]. Qed.

Lemma removed_twice_not_in (X : gset str) (a b : str) :
  (a ∉ X ∖ {[a]} ∖ {[b]}) ∧ (b ∉ X ∖ {[a]} ∖ {[b]}).
Proof.
  split; rewrite !elem_of_difference, !elem_of_singleton.
  - by intros [[_ H] _].
  - by intros [_ H].
Qed.

Lemma added_in (X : gset str) (a : str) : a ∈ X ∪ {[a]}.
Proof. apply elem_of_union_r. by apply elem_of_singleton. Qed.

Lemma added_stays (X : gset str) (a b : str) : a ≠ b -> b ∈ (X ∪ {[a]} ∪ {[b]}) ∖ {[a]}.
Proof.
  intros Hne. apply elem_of_difference. split; [apply added_in|].
  rewrite elem_of_singleton. congruence.
Qed.

Section Audio.

Context (w : World) (video_url default_filename : str).

Local Abbreviation m4a := (downloaded_path w default_filename).
Local Abbreviation wav := (audio_file_path w video_url).

Hypothesis Hstream : yt_audio_only w video_url = Return default_filename.
Hypothesis Hdownload : download_error w video_url = None.
Hypothesis Hfrom_file : from_file_error w m4a = None.
Hypothesis Hexport : export_error w wav = None.
Hypothesis Hdistinct : m4a ≠ wav.

Lemma audio_until_transcription st :
  _get_subtitle_from_audio w video_url st
  = try_except (convert_audio_to_text w wav)
      (fun e => raise (HTTPException HTTP_500_INTERNAL_SERVER_ERROR
                         (lit "Failed to get subtitle from audio of YouTube video: "
                          ++ exn_str w e)))
      (before_transcription w video_url default_filename st).
Proof.
  unfold _get_subtitle_from_audio, try_except, bind, log, lift, fail_if, set_files, os_remove.
  cbn. rewrite Hstream, Hdownload. cbn. rewrite Hfrom_file, Hexport. cbn.
  rewrite bool_decide_eq_true_2
    by (apply elem_of_union_l, added_in).
  cbn. unfold before_transcription, with_call. cbn. by rewrite <- app_assoc.
Qed.

Lemma wav_before_transcription st :
  wav ∈ files (before_transcription w video_url default_filename st).
Proof. cbn. by apply added_stays. Qed.

Lemma m4a_before_transcription st :
  m4a ∉ files (before_transcription w video_url default_filename st).
Proof. cbn. apply removed_not_in. Qed.

(** The original container is deleted after transcoding; after a
    transcription call that returns a transcript, the normalized file is
    deleted too. *)
Lemma audio_success st transcript alternatives channels :
  transcribe_file w wav = Return ((transcript :: alternatives) :: channels) ->
  ∃ st', _get_subtitle_from_audio w video_url st = (Return transcript, st')
         ∧ (m4a ∉ files st') ∧ (wav ∉ files st').
Proof.
  intros Hstt. rewrite audio_until_transcription.
  unfold convert_audio_to_text, try_except, bind, open_rb, log, lift, os_remove, set_files.
  rewrite bool_decide_eq_true_2 by apply wav_before_transcription.
  cbn. rewrite Hstt. cbn.
  rewrite bool_decide_eq_true_2 by apply wav_before_transcription. cbn.
  eexists. split; [reflexivity|]. cbn. apply removed_twice_not_in.
Qed.

(** When the transcription call raises, the error is wrapped twice and the
    normalized file stays where it is. *)
Lemma audio_transcription_raises st e :
  transcribe_file w wav = Raise e ->
  ∃ st',
    _get_subtitle_from_audio w video_url st
    = (Raise (HTTPException 500
                (lit "Failed to get subtitle from audio of YouTube video: "
                 ++ exn_str w (HTTPException 500
                                 (lit "Failed to convert audio to text: " ++ exn_str w e)))),
       st')
    ∧ (m4a ∉ files st') ∧ (wav ∈ files st').
Proof.
  intros Hstt. rewrite audio_until_transcription.
  unfold convert_audio_to_text, try_except, bind, open_rb, log, lift, os_remove, set_files.
  rewrite bool_decide_eq_true_2 by apply wav_before_transcription.
  cbn. rewrite Hstt. cbn.
  eexists. split; [reflexivity|].
  split; [apply m4a_before_transcription|apply wav_before_transcription].
Qed.

End Audio.

(** C9 fails on the path where the transcription call raises: for a video
    without captions whose audio is downloaded and transcoded and whose
    transcription call fails, the run ends with an internal error, the
    downloaded container is gone, and the normalized wav file is still in
    the scratch directory. *)
Theorem failed_transcription_leaves_wav_file :
  ∃ detail st',
    _get_subtitle_from_audio transcription_fails_world demo_url empty_state
      = (Raise (HTTPException 500 detail), st')
    ∧ (downloaded_path transcription_fails_world (lit "Demo video.m4a") ∉ files st')
    ∧ (audio_file_path transcription_fails_world demo_url ∈ files st')
    ∧ audio_file_path transcription_fails_world demo_url
      = lit "/srv/backend/temp_audio_files/abc123.wav".
Proof.
  destruct (audio_transcription_raises transcription_fails_world demo_url
              (lit "Demo video.m4a") eq_refl eq_refl eq_refl eq_refl
              ltac:(vm_compute; discriminate) empty_state
              (PyError (lit "status_code: 401")) eq_refl) as (st' & Hrun & Hm4a & Hwav).
  eexists _, st'. split; [exact Hrun|]. split; [exact Hm4a|]. split; [exact Hwav|].
  reflexivity.
Qed.

(* ===================================================================== *)
(** * The caption parser *)
(* ===================================================================== *)

Section CaptionParser.

Context (w : World).

(** Stripping each part and leaving out the empty ones does not change the
    cleaned join. *)
Lemma glue_all_text_parts elems :
  glue_all (text_parts elems) = glue_all (map leading_text elems).
Proof.
  induction elems as [|e elems IH]; [reflexivity|].
  unfold text_parts in *. cbn [flat_map map]. unfold leading_text at 1.
  destruct (text e) as [[|c t]|]; cbn [app glue_all foldr].
  - exact IH.
  - fold (glue_all (flat_map
        (fun text_elem => match text text_elem with
                          | Some (c0 :: t0) => [strip (c0 :: t0)]
                          | _ => []
                          end) elems)).
    fold (glue_all (map leading_text elems)).
    by rewrite trimmed_strip, IH.
  - exact IH.
Qed.

Lemma extract_parsed xml root st :
  ET_fromstring w xml = Return root ->
  _extract_text_from_xml_transcript w xml st
  = (Return (joined_transcript (findall (lit "text") root)), st).
Proof.
  intros H. unfold _extract_text_from_xml_transcript, try_except, bind, lift, ret.
  rewrite H. unfold joined_transcript. fold (clean_whitespace
    (join (lit " ") (map leading_text (findall (lit "text") root)))).
  by rewrite !clean_join, glue_all_text_parts.
Qed.

Lemma extract_parse_error xml msg st :
  ET_fromstring w xml = Raise (ParseError msg) ->
  _extract_text_from_xml_transcript w xml st
  = (Return (match findall_text xml with
             | [] => xml
             | matches => strip (collapse_ws (join (lit " ") (map strip matches)))
             end), st).
Proof.
  intros H. unfold _extract_text_from_xml_transcript, try_except, bind, lift, ret.
  rewrite H. by destruct (findall_text xml).
Qed.

Lemma extract_total xml st :
  ∃ s, _extract_text_from_xml_transcript w xml st = (Return s, st).
Proof.
  destruct (ET_fromstring w xml) as [root|e] eqn:H.
  - rewrite (extract_parsed _ _ _ H). eauto.
  - unfold _extract_text_from_xml_transcript, try_except, bind, lift, ret. rewrite H.
    destruct e; try (by eauto). destruct (findall_text xml); eauto.
Qed.

End CaptionParser.

(** C6 (as amended). For every input the caption parser returns a string,
    in an unchanged state: it never raises.  When the XML parser rejects the
    input with a [ParseError], the result is made of the groups that the
    pattern captures at its leftmost occurrence, at the leftmost occurrence
    behind that one, and so on, all of them and in this order: each
    trimmed, joined by single spaces, whitespace collapsed, both ends
    trimmed; when the input holds no occurrence the result is the input
    itself.  When the XML parser fails in any other way the result is the
    input itself, and the pattern is not tried. *)
Theorem caption_parser_never_raises (w : World) (xml_content : str) (st : State) :
  ∃ s,
    _extract_text_from_xml_transcript w xml_content st = (Return s, st)
    ∧ (∀ msg, ET_fromstring w xml_content = Raise (ParseError msg) ->
         ∃ groups,
           pattern_scan xml_content groups
           ∧ (∀ groups', pattern_scan xml_content groups' -> groups' = groups)
           ∧ s = match groups with
                 | [] => xml_content
                 | _ => strip (collapse_ws (join (lit " ") (map strip groups)))
                 end)
    ∧ (∀ e, ET_fromstring w xml_content = Raise e ->
            (∀ msg, e ≠ ParseError msg) -> s = xml_content).
Proof.
  destruct (extract_total w xml_content st) as [s Hs].
  exists s. split; [exact Hs|]. split.
  - intros msg Hparse. rewrite (extract_parse_error w _ _ _ Hparse) in Hs.
    exists (findall_text xml_content). split; [apply findall_text_scan|].
    split; [apply pattern_scan_unique|].
    injection Hs as <-. by destruct (findall_text xml_content).
  - intros e Hfail Hother. revert Hs.
    unfold _extract_text_from_xml_transcript, try_except, bind, lift, ret.
    rewrite Hfail. destruct e as [c d|msg|msg|msg]; try (by intros [= <-]).
    by destruct (Hother msg).
Qed.

Lemma caption_parser_never_raises_witness :
  ∃ s,
    _extract_text_from_xml_transcript caption_world two_texts_markup empty_state
      = (Return s, empty_state)
    ∧ pattern_scan two_texts_markup [lit "Hello"; lit "world"]
    ∧ s = lit "Hello world".
Proof.
  destruct (caption_parser_never_raises caption_world two_texts_markup empty_state)
    as (s & Hrun & Hpattern & _).
  exists s. split; [exact Hrun|].
  destruct (Hpattern (lit "junk after document element") eq_refl)
    as (groups & Hscan & _ & ->).
  apply pattern_scan_unique in Hscan as Hgroups.
  assert (findall_text two_texts_markup = [lit "Hello"; lit "world"]) as Hfound
    by (vm_compute; reflexivity).
  rewrite Hfound in Hgroups. subst groups. split; [exact Hscan|reflexivity].
Defined.

(** C6 as stated fails when the XML parser fails with something other than
    a [ParseError]: the markup of the scenario followed by a lone surrogate
    makes it raise a [UnicodeEncodeError]; the pattern has the occurrences
    "Hello" and "world" in this input, yet the parser returns the input as
    it is and not the extracted text. *)
Lemma other_parser_failure_skips_pattern :
  ET_fromstring surrogate_world surrogate_markup = Raise cannot_encode
  ∧ pattern_scan surrogate_markup [lit "Hello"; lit "world"]
  ∧ _extract_text_from_xml_transcript surrogate_world surrogate_markup empty_state
    = (Return surrogate_markup, empty_state)
  ∧ surrogate_markup
    ≠ strip (collapse_ws (join (lit " ") (map strip [lit "Hello"; lit "world"]))).
Proof.
  split; [vm_compute; reflexivity|]. split.
  - assert (findall_text surrogate_markup = [lit "Hello"; lit "world"]) as <-
      by (vm_compute; reflexivity).
    apply findall_text_scan.
  - split; [vm_compute; reflexivity|]. vm_compute. discriminate.
Qed.

(* ===================================================================== *)
(** * Pagination *)
(* ===================================================================== *)

Section Pagination.

Lemma py_slice_nonneg {A} (l : list A) (a b : Z) :
  (0 <= a <= b)%Z ->
  py_slice l a b = take (Z.to_nat (b - a)) (drop (Z.to_nat a) l).
Proof.
  intros Hab. unfold py_slice, slice_index.
  destruct (a <? 0)%Z eqn:Ha; [apply Z.ltb_lt in Ha; lia|].
  destruct (b <? 0)%Z eqn:Hb; [apply Z.ltb_lt in Hb; lia|].
  destruct (decide (length l <= Z.to_nat a)%nat) as [Hge|Hlt].
  - rewrite Nat.min_r by lia. rewrite !drop_ge by lia. by rewrite !take_nil.
  - rewrite (Nat.min_l (Z.to_nat a)) by lia.
    destruct (decide (Z.to_nat b <= length l)%nat) as [Hb'|Hb'].
    + rewrite Nat.min_l by lia. f_equal. lia.
    + rewrite Nat.min_r by lia.
      rewrite !take_ge; [done| |]; rewrite length_drop; lia.
Qed.

Lemma ceil_div_bounds (t s : Z) :
  (0 <= t)%Z -> (1 <= s)%Z ->
  (t <= Z.max 1 ((t + s - 1) / s) * s)%Z
  ∧ ((Z.max 1 ((t + s - 1) / s) - 1) * s < Z.max 1 t)%Z.
Proof.
  intros Ht Hs.
  pose proof (Z.mul_div_le (t + s - 1) s ltac:(lia)) as H1.
  pose proof (Z.mul_succ_div_gt (t + s - 1) s ltac:(lia)) as H2.
  set (q := ((t + s - 1) / s)%Z) in *.
  destruct (Z.max_spec 1 q) as [[Hq ->]|[Hq ->]]; split; nia.
Qed.

(** [paginate] written out. *)
Lemma paginate_run (all_notes : list Note) (p s : Z) :
  let size := Z.max 1 (Z.min s 100) in
  let total := Z.of_nat (length all_notes) in
  let pages := Z.max 1 ((total + size - 1) / size) in
  let page := Z.min (Z.max 1 p) pages in
  paginate all_notes p s
  = Return (mkNotesPage
              (take (Z.to_nat size) (drop (Z.to_nat ((page - 1) * size)) all_notes))
              total pages page size).
Proof.
  intros size total pages page. unfold paginate, _validate_pagination_params,
    _calculate_pagination. fold size.
  destruct (size =? 0)%Z eqn:E; [apply Z.eqb_eq in E; lia|].
  fold total. fold pages. fold page.
  rewrite py_slice_nonneg by nia.
  do 3 f_equal. lia.
Qed.

Lemma take_chunks {A} (l : list A) (s m : nat) :
  concat (map (fun i => take s (drop (i * s) l)) (seq 0 m)) = take (m * s) l.
Proof.
  induction m as [|m IH]; [by rewrite take_0|].
  rewrite seq_S, map_app, concat_app, IH. cbn [map concat Nat.add].
  rewrite app_nil_r, take_take_drop. f_equal. lia.
Qed.

End Pagination.

(** X1. A listing never fails (the page size it divides by is at least 1)
    and its numbers fit together: the page size is between 1 and 100, the
    page shown lies between 1 and the number of pages, the pages are just
    enough to hold all notes, at most a page size of notes is shown, and a
    page is empty only when there are no notes at all. *)
Theorem paginate_bounds (all_notes : list Note) (p s : Z) :
  ∃ pg,
    paginate all_notes p s = Return pg
    ∧ (1 <= page_size pg <= 100)%Z
    ∧ (1 <= current_page pg <= total_pages pg)%Z
    ∧ total_notes pg = Z.of_nat (length all_notes)
    ∧ (total_notes pg <= total_pages pg * page_size pg)%Z
    ∧ ((total_pages pg - 1) * page_size pg < Z.max 1 (total_notes pg))%Z
    ∧ (Z.of_nat (length (notes pg)) <= page_size pg)%Z
    ∧ (all_notes ≠ [] -> notes pg ≠ []).
Proof.
  eexists. split; [apply paginate_run|]. cbn.
  set (size := Z.max 1 (Z.min s 100)). set (total := Z.of_nat (length all_notes)).
  destruct (ceil_div_bounds total size ltac:(lia) ltac:(lia)) as [H1 H2].
  set (pages := Z.max 1 ((total + size - 1) / size)) in *.
  set (page := Z.min (Z.max 1 p) pages).
  assert (1 <= page <= pages)%Z as Hpage by lia.
  split; [lia|]. split; [exact Hpage|]. split; [done|]. split; [exact H1|].
  split; [exact H2|]. split.
  - rewrite length_take. lia.
  - intros Hne Hnil. apply (f_equal length) in Hnil.
    rewrite length_take, length_drop in Hnil. cbn in Hnil.
    assert (0 < length all_notes)%nat by (destruct all_notes; [done|cbn; lia]).
    assert ((page - 1) * size < total)%Z by nia. lia.
Qed.

(** X2. The pages of a listing, taken from the first to the last, are the
    notes of the listing in order: nothing is shown twice and nothing is
    left out. *)
Theorem pages_partition (all_notes : list Note) (s : Z) (pg : NotesPage) :
  paginate all_notes 1 s = Return pg ->
  concat (map (fun k => page_notes all_notes (Z.of_nat k) s)
            (seq 1 (Z.to_nat (total_pages pg))))
  = all_notes.
Proof.
  rewrite paginate_run. intros [= <-]. cbn [total_pages].
  set (size := Z.max 1 (Z.min s 100)). set (total := Z.of_nat (length all_notes)).
  destruct (ceil_div_bounds total size ltac:(lia) ltac:(lia)) as [H1 H2].
  set (pages := Z.max 1 ((total + size - 1) / size)) in *.
  transitivity (take (Z.to_nat pages * Z.to_nat size) all_notes); [|apply take_ge; nia].
  rewrite <- take_chunks, <- seq_shift, map_map.
  f_equal. apply map_ext_in. intros i Hi. apply in_seq in Hi.
  unfold page_notes. rewrite paginate_run. cbn [notes]. fold size total pages.
  do 2 f_equal. nia.
Qed.

Lemma pages_partition_witness :
  concat (map (fun k => page_notes [stored_note; stored_note; stored_note] (Z.of_nat k) 2)
            (seq 1 2))
  = [stored_note; stored_note; stored_note].
Proof.
  apply (pages_partition [stored_note; stored_note; stored_note] 2
           (mkNotesPage [stored_note; stored_note] 3 2 1 2)).
  reflexivity.
Defined.

Lemma paginate_bounds_witness :
  ∃ pg,
    paginate [stored_note; stored_note; stored_note] 7 2 = Return pg
    ∧ current_page pg = 2%Z ∧ notes pg = [stored_note].
Proof.
  destruct (paginate_bounds [stored_note; stored_note; stored_note] 7 2)
    as (pg & Hrun & _).
  exists pg. split; [exact Hrun|]. by injection Hrun as <-.
Defined.

(* ===================================================================== *)
(** * Listing notes *)
(* ===================================================================== *)

Section Listing.

Lemma insert_desc_perm n rows : insert_desc n rows ≡ₚ n :: rows.
Proof.
  induction rows as [|m rows IH]; [done|]. cbn.
  destruct (created_at m <=? created_at n)%Z; [done|].
  rewrite IH. apply Permutation_swap.
Qed.

Lemma order_by_perm rows : order_by_created_at_desc rows ≡ₚ rows.
Proof.
  induction rows as [|n rows IH]; [done|]. cbn.
  by rewrite insert_desc_perm, IH.
Qed.

Lemma insert_desc_sorted n rows : newest_first rows -> newest_first (insert_desc n rows).
Proof.
  unfold newest_first. induction rows as [|m rows IH]; intros Hs; cbn.
  - repeat constructor.
  - apply StronglySorted_inv in Hs as [Hs Hm].
    destruct (created_at m <=? created_at n)%Z eqn:E.
    + apply Z.leb_le in E. constructor; [by constructor|].
      constructor; [done|]. eapply Forall_impl; [exact Hm|]. cbn. lia.
    + apply Z.leb_gt in E. constructor; [by apply IH|].
      rewrite insert_desc_perm. constructor; [lia|done].
Qed.

Lemma order_by_sorted rows : newest_first (order_by_created_at_desc rows).
Proof.
  induction rows as [|n rows IH]; [constructor|]. cbn. by apply insert_desc_sorted.
Qed.

Lemma newest_first_drop k rows : newest_first rows -> newest_first (drop k rows).
Proof.
  unfold newest_first. revert rows. induction k as [|k IH]; intros [|n rows] Hs; try done.
  apply StronglySorted_inv in Hs as [Hs _]. by apply IH.
Qed.

Lemma newest_first_take k rows : newest_first rows -> newest_first (take k rows).
Proof.
  unfold newest_first. revert k. induction rows as [|n rows IH]; intros [|k] Hs;
    try (cbn; constructor).
  - apply StronglySorted_inv in Hs as [Hs _]. by apply IH.
  - apply StronglySorted_inv in Hs as [_ Hn].
    apply Forall_forall. intros m Hm. rewrite Forall_forall in Hn. apply Hn.
    apply elem_of_take in Hm as (i & Hi & _). by eapply list_elem_of_lookup_2.
Qed.

Lemma filter_length_le {A} (f g : A -> bool) (l : list A) :
  (∀ x, f x = true -> g x = true) ->
  (length (List.filter f l) <= length (List.filter g l))%nat.
Proof.
  intros Hfg. induction l as [|x l IH]; [done|]. cbn.
  destruct (f x) eqn:Ef.
  - rewrite (Hfg x Ef). cbn. lia.
  - destruct (g x); cbn; lia.
Qed.

Lemma matches_query_owner q u search n :
  matches_query q u search n = true -> bool_decide (user_id n = u) = true.
Proof. unfold matches_query. by intros [? _]%andb_true_iff. Qed.

Lemma elem_of_slice {A} (x : A) (l : list A) (a b : nat) :
  x ∈ take a (drop b l) -> x ∈ l.
Proof.
  intros H. apply elem_of_take in H as (i & Hi & _). rewrite lookup_drop in Hi.
  by eapply list_elem_of_lookup_2.
Qed.

End Listing.

(** X3. [get_notes] changes nothing.  It fails only when the listing query
    itself fails, and then with the error of the database as it is: the
    call is not guarded.  When the query is answered, every note shown is a
    stored note of the requesting user, the notes are shown newest first,
    [total_notes] counts the stored notes that match the query, which are
    never more than the user's notes and are all of them when no search
    term is given. *)
Theorem get_notes_lists_own_notes
    (q : SearchEngine) (user_id' : nat) (p s : Z) (search : option str) (st : State) :
  match exec_error q user_id' search with
  | Some e => get_notes q user_id' p s search st = (Raise e, st)
  | None =>
      ∃ pg,
        get_notes q user_id' p s search st = (Return pg, st)
        ∧ (∀ n, n ∈ notes pg -> n ∈ db st ∧ user_id n = user_id')
        ∧ newest_first (notes pg)
        ∧ total_notes pg
          = Z.of_nat (length (List.filter (matches_query q user_id' search) (db st)))
        ∧ (total_notes pg <= Z.of_nat (length (owned user_id' (db st))))%Z
        ∧ (search = None -> total_notes pg = Z.of_nat (length (owned user_id' (db st))))
  end.
Proof.
  unfold get_notes, bind, get_db, lift, fail_if.
  destruct (exec_error q user_id' search) as [e|]; [reflexivity|].
  unfold ret. rewrite paginate_run.
  eexists. split; [reflexivity|]. cbn [notes total_notes].
  rewrite (Permutation_length (order_by_perm _)).
  split; [|split; [|split; [done|split]]].
  - intros n Hn. apply elem_of_slice in Hn. rewrite order_by_perm in Hn.
    apply list_elem_of_In, filter_In in Hn as [Hin Hm].
    apply matches_query_owner, bool_decide_eq_true in Hm.
    by rewrite list_elem_of_In.
  - apply newest_first_take, newest_first_drop, order_by_sorted.
  - apply inj_le. apply filter_length_le. intros n. apply matches_query_owner.
  - intros ->. unfold owned. do 2 f_equal.
    apply filter_ext. intros n. unfold matches_query. apply andb_true_r.
Qed.

Lemma get_notes_lists_own_notes_witness :
  (∃ pg,
     get_notes plain_engine 1 1 10 None stored_state = (Return pg, stored_state)
     ∧ notes pg = [stored_note] ∧ total_notes pg = 1%Z)
  ∧ get_notes strict_engine 1 1 10 (Some [0]) stored_state
    = (Raise nul_rejected, stored_state).
Proof.
  split.
  - pose proof (get_notes_lists_own_notes plain_engine 1 1 10 None stored_state) as H.
    simpl in H. destruct H as (pg & Hrun & _ & _ & _ & _ & Htotal).
    exists pg. split; [exact Hrun|]. split.
    + by injection Hrun as <-.
    + exact (Htotal eq_refl).
  - exact (get_notes_lists_own_notes strict_engine 1 1 10 (Some [0]) stored_state).
Defined.

(* ===================================================================== *)
(** * Reading, changing and deleting one note *)
(* ===================================================================== *)

Section OneNote.

Lemma session_get_Some note_id rows n :
  session_get note_id rows = Some n -> n ∈ rows ∧ id n = note_id.
Proof.
  unfold session_get. intros H. apply find_some in H as [Hin Hb].
  apply bool_decide_eq_true in Hb. by rewrite list_elem_of_In.
Qed.

Lemma session_get_None note_id rows :
  session_get note_id rows = None -> ∀ n, n ∈ rows -> id n ≠ note_id.
Proof.
  unfold session_get. intros H n Hin Hid. apply list_elem_of_In in Hin.
  pose proof (find_none _ _ H n Hin) as Hb. cbn in Hb.
  by rewrite bool_decide_eq_true_2 in Hb.
Qed.

Lemma session_get_unique rows n :
  NoDup (map id rows) -> n ∈ rows -> session_get (id n) rows = Some n.
Proof.
  unfold session_get. induction rows as [|m rows IH]; intros Hnd Hin.
  - by apply elem_of_nil in Hin.
  - cbn in Hnd. apply NoDup_cons in Hnd as [Hm Hnd]. cbn.
    apply elem_of_cons in Hin as [->|Hin].
    + by rewrite bool_decide_eq_true_2.
    + rewrite bool_decide_eq_false_2; [by apply IH|].
      intros E. apply Hm. rewrite E. by apply (list_elem_of_fmap_2 id).
Qed.

Lemma session_get_replace_same row rows old :
  session_get (id row) rows = Some old ->
  session_get (id row) (replace_row row rows) = Some row.
Proof.
  unfold session_get. induction rows as [|m rows IH]; [done|]. cbn.
  case_bool_decide as E.
  - intros _. cbn. by rewrite bool_decide_eq_true_2.
  - intros H. cbn. rewrite bool_decide_eq_false_2 by done. by apply IH.
Qed.

Lemma session_get_replace_other row rows other :
  other ≠ id row ->
  session_get other (replace_row row rows) = session_get other rows.
Proof.
  unfold session_get. intros Hne. induction rows as [|m rows IH]; [done|]. cbn.
  case_bool_decide as E; cbn.
  - rewrite !bool_decide_eq_false_2; [done|congruence|congruence].
  - by rewrite IH.
Qed.

Lemma session_get_remove_other row rows other :
  other ≠ id row ->
  session_get other (remove_row row rows) = session_get other rows.
Proof.
  unfold session_get. intros Hne. induction rows as [|m rows IH]; [done|]. cbn.
  case_bool_decide as E; cbn.
  - rewrite bool_decide_eq_false_2; [done|congruence].
  - by rewrite IH.
Qed.

Lemma remove_row_sublist row rows : remove_row row rows `sublist_of` rows.
Proof.
  induction rows as [|m rows IH]; [done|]. cbn.
  case_bool_decide; [by apply sublist_cons|by apply sublist_skip].
Qed.

Lemma session_get_remove_same row rows :
  NoDup (map id rows) -> session_get (id row) (remove_row row rows) = None.
Proof.
  unfold session_get. induction rows as [|m rows IH]; [done|]. cbn.
  intros [Hm Hnd]%NoDup_cons. case_bool_decide as E.
  - destruct (List.find _ rows) as [n|] eqn:Hf; [|done].
    apply find_some in Hf as [Hin Hb]. apply bool_decide_eq_true in Hb.
    exfalso. apply Hm. rewrite E, <- Hb. apply (list_elem_of_fmap_2 id).
    by apply list_elem_of_In.
  - cbn. rewrite bool_decide_eq_false_2 by done. by apply IH.
Qed.

Lemma replace_row_ids row rows : map id (replace_row row rows) = map id rows.
Proof.
  induction rows as [|m rows IH]; [done|]. cbn.
  case_bool_decide as E; cbn; [by rewrite E|by rewrite IH].
Qed.

Lemma elem_of_replace_row row rows n :
  n ∈ replace_row row rows -> n = row ∨ n ∈ rows.
Proof.
  induction rows as [|m rows IH]; [by right|]. cbn.
  case_bool_decide as E; rewrite !elem_of_cons; [tauto|].
  intros [->|Hn]; [tauto|]. destruct (IH Hn); tauto.
Qed.

Lemma length_replace_row row rows : length (replace_row row rows) = length rows.
Proof. rewrite <- (length_map id), replace_row_ids. apply length_map. Qed.

Lemma length_remove_row row rows old :
  session_get (id row) rows = Some old ->
  S (length (remove_row row rows)) = length rows.
Proof.
  unfold session_get. induction rows as [|m rows IH]; [done|]. cbn.
  case_bool_decide as E; [done|]. intros Hf. cbn. by rewrite IH.
Qed.

Lemma get_found note_id u st n :
  session_get note_id (db st) = Some n -> user_id n = u ->
  _get_note_by_id note_id u st = (Return n, st).
Proof.
  intros H Hu. unfold _get_note_by_id, bind, get_db. rewrite H.
  by rewrite bool_decide_eq_false_2 by (intros ?; done).
Qed.

Lemma get_forbidden note_id u st n :
  session_get note_id (db st) = Some n -> user_id n ≠ u ->
  _get_note_by_id note_id u st = (Raise forbidden, st).
Proof.
  intros H Hu. unfold _get_note_by_id, bind, get_db. rewrite H.
  by rewrite bool_decide_eq_true_2.
Qed.

Lemma get_missing note_id u st :
  session_get note_id (db st) = None ->
  _get_note_by_id note_id u st = (Raise (not_found note_id), st).
Proof. intros H. unfold _get_note_by_id, bind, get_db. by rewrite H. Qed.

(** The three ways [_get_note_by_id] can end. *)
Lemma get_cases note_id u st :
  (∃ n, session_get note_id (db st) = Some n ∧ user_id n = u
        ∧ _get_note_by_id note_id u st = (Return n, st))
  ∨ (∃ n, session_get note_id (db st) = Some n ∧ user_id n ≠ u
          ∧ _get_note_by_id note_id u st = (Raise forbidden, st))
  ∨ (session_get note_id (db st) = None
     ∧ _get_note_by_id note_id u st = (Raise (not_found note_id), st)).
Proof.
  destruct (session_get note_id (db st)) as [n|] eqn:H.
  - destruct (decide (user_id n = u)) as [Hu|Hu].
    + left. exists n. eauto using get_found.
    + right. left. exists n. eauto using get_forbidden.
  - right. right. eauto using get_missing.
Qed.

End OneNote.

Section Writes.

Context (w : World).

Lemma update_run note_id u upd st n :
  session_get note_id (db st) = Some n -> user_id n = u ->
  update_note w note_id u upd st
  = session_update w (with_updated_at (utcnow w (clock st)) (apply_update w upd n)) (tick st).
Proof.
  intros H Hu. unfold update_note, bind. by rewrite (get_found _ _ _ _ H Hu).
Qed.

Lemma delete_run note_id u st n :
  session_get note_id (db st) = Some n -> user_id n = u ->
  delete_note w note_id u st
  = bind (session_delete w n)
      (fun _ => ret (lit "Note with ID " ++ lit (pretty note_id)
                     ++ lit " deleted successfully")) st.
Proof.
  intros H Hu. unfold delete_note. unfold bind at 1. by rewrite (get_found _ _ _ _ H Hu).
Qed.

Lemma update_refused note_id u upd st e :
  _get_note_by_id note_id u st = (Raise e, st) ->
  update_note w note_id u upd st = (Raise e, st).
Proof. intros H. unfold update_note, bind. by rewrite H. Qed.

Lemma delete_refused note_id u st e :
  _get_note_by_id note_id u st = (Raise e, st) ->
  delete_note w note_id u st = (Raise e, st).
Proof. intros H. unfold delete_note, bind. by rewrite H. Qed.

(** What [update_note] can do. *)
Lemma update_note_inv note_id u upd st o st' :
  update_note w note_id u upd st = (o, st') ->
  (∃ old row,
      session_get note_id (db st) = Some old ∧ user_id old = u
      ∧ row = with_updated_at (utcnow w (clock st)) (apply_update w upd old)
      ∧ ((o = Return row ∧ db st' = replace_row row (db st) ∧ next_id st' = next_id st)
         ∨ (∃ e, o = Raise e ∧ db st' = db st ∧ next_id st' = next_id st)))
  ∨ (∃ e, o = Raise e ∧ st' = st).
Proof.
  intros H. destruct (get_cases note_id u st)
    as [(n & Hget & Hu & _)|[(n & _ & _ & Hrun)|(_ & Hrun)]].
  - left. exists n, (with_updated_at (utcnow w (clock st)) (apply_update w upd n)).
    split; [done|]. split; [done|]. split; [done|].
    rewrite (update_run _ _ _ _ _ Hget Hu) in H. unfold session_update in H.
    destruct (commit_error w _) as [e|]; injection H as <- <-.
    + right. by exists e.
    + by left.
  - right. rewrite (update_refused _ _ _ _ _ Hrun) in H. injection H as <- <-. eauto.
  - right. rewrite (update_refused _ _ _ _ _ Hrun) in H. injection H as <- <-. eauto.
Qed.

(** What [delete_note] can do. *)
Lemma delete_note_inv note_id u st o st' :
  delete_note w note_id u st = (o, st') ->
  (∃ old,
      session_get note_id (db st) = Some old ∧ user_id old = u
      ∧ ((o = Return (lit "Note with ID " ++ lit (pretty note_id)
                      ++ lit " deleted successfully")
          ∧ db st' = remove_row old (db st) ∧ next_id st' = next_id st)
         ∨ (∃ e, o = Raise e ∧ st' = st)))
  ∨ (∃ e, o = Raise e ∧ st' = st).
Proof.
  intros H. destruct (get_cases note_id u st)
    as [(n & Hget & Hu & _)|[(n & _ & _ & Hrun)|(_ & Hrun)]].
  - left. exists n. split; [done|]. split; [done|].
    rewrite (delete_run _ _ _ _ Hget Hu) in H. unfold bind, session_delete, ret in H.
    destruct (commit_error w _) as [e|]; injection H as <- <-.
    + right. by exists e.
    + by left.
  - right. rewrite (delete_refused _ _ _ _ Hrun) in H. injection H as <- <-. eauto.
  - right. rewrite (delete_refused _ _ _ _ Hrun) in H. injection H as <- <-. eauto.
Qed.

Lemma session_insert_keys n st o st' :
  session_insert w n st = (o, st') ->
  (o = Return (with_id (next_id st) n) ∧ db st' = db st ++ [with_id (next_id st) n]
   ∧ next_id st' = S (next_id st))
  ∨ (∃ e, o = Raise e ∧ st' = st).
Proof.
  unfold session_insert. destruct (commit_error w _) as [e|]; intros [= <- <-].
  - right. eauto.
  - by left.
Qed.

(** [create_note] gives out the next key or leaves the table alone. *)
Lemma create_note_keys u note_data st o st' :
  create_note w u note_data st = (o, st') ->
  (db st' = db st ∧ next_id st' = next_id st)
  ∨ (∃ n, o = Return n ∧ db st' = db st ++ [n] ∧ id n = next_id st
          ∧ next_id st' = S (next_id st)).
Proof.
  intros H.
  destruct (select_first u (nc_youtube_url note_data) (db st)) as [n|] eqn:Hsel.
  { rewrite (create_note_existing _ _ _ _ _ Hsel) in H. injection H as <- <-. by left. }
  rewrite (create_note_new _ _ _ _ Hsel) in H.
  assert (∀ o1 st1, create_body w u note_data st = (o1, st1) ->
            (db st1 = db st ∧ next_id st1 = next_id st ∧ ∀ n, o1 ≠ Return n)
            ∨ (∃ n, o1 = Return n ∧ db st1 = db st ++ [n] ∧ id n = next_id st
                    ∧ next_id st1 = S (next_id st))) as Hbody.
  { clear H. intros o1 st1 H. unfold create_body in H.
    apply bind_inv in H as [(video & s1 & H1 & H)|(e & H1 & ->)].
    2: { destruct (frame_acquirer w _ _ _ _ H1) as (? & ? & _). by left. }
    destruct (frame_acquirer w _ _ _ _ H1) as (Hd1 & Hn1 & _).
    destruct (blank (v_caption video)).
    { injection H as <- <-. by left. }
    apply bind_inv in H as [(g & s2 & H2 & H)|(e & H2 & ->)].
    2: { destruct (frame_generator w _ _ _ _ _ _ _ H2) as (? & ? & _).
         left. split; [congruence|]. split; [congruence|done]. }
    destruct (frame_generator w _ _ _ _ _ _ _ H2) as (Hd2 & Hn2 & _).
    destruct (missing_fields w g).
    2: { injection H as <- <-. left. split; [congruence|]. split; [congruence|done]. }
    apply bind_inv in H as [(created & s3 & H3 & H)|(e & H3 & ->)].
    2: { apply now_inv in H3 as ([=] & _). }
    apply now_inv in H3 as (_ & Hd3 & Hn3 & _).
    apply bind_inv in H as [(updated & s4 & H4 & H)|(e & H4 & ->)].
    2: { apply now_inv in H4 as ([=] & _). }
    apply now_inv in H4 as (_ & Hd4 & Hn4 & _).
    apply session_insert_keys in H as [(-> & Hdb & Hnext)|(e & -> & ->)].
    - right. eexists. split; [reflexivity|]. split; [rewrite Hdb; congruence|].
      split; [cbn; congruence|congruence].
    - left. split; [congruence|]. split; [congruence|done]. }
  apply try_except_inv in H as [(n & H1 & ->)|(e & s1 & H1 & H2)].
  - destruct (Hbody _ _ H1) as [(_ & _ & Hno)|Hnew]; [by destruct (Hno n)|by right].
  - destruct (Hbody _ _ H1) as [(Hd & Hn & _)|(n & [=] & _)].
    left. destruct e; injection H2 as <- <-; done.
Qed.

End Writes.

(** X4. [get_note_by_id] changes nothing and answers in one of three ways:
    with a stored note that has the requested id and belongs to the
    requesting user; with 404 when no stored note has the id; with 403 when
    the stored note with the id belongs to someone else.  It never returns a
    note of another user. *)
Theorem get_note_by_id_outcome (note_id user_id' : nat) (st : State) :
  ∃ o,
    get_note_by_id note_id user_id' st = (o, st)
    ∧ match o with
      | Return n => n ∈ db st ∧ id n = note_id ∧ user_id n = user_id'
      | Raise e =>
          (e = HTTPException 404
                 (lit "Note with ID " ++ lit (pretty note_id) ++ lit " not found")
           ∧ ∀ n, n ∈ db st -> id n ≠ note_id)
          ∨ (e = HTTPException 403 (lit "You don't have permission to access this note")
             ∧ ∃ n, n ∈ db st ∧ id n = note_id ∧ user_id n ≠ user_id')
      end.
Proof.
  unfold get_note_by_id.
  destruct (get_cases note_id user_id' st)
    as [(n & Hget & Hu & Hrun)|[(n & Hget & Hu & Hrun)|(Hget & Hrun)]];
    eexists; (split; [exact Hrun|]); cbn.
  - apply session_get_Some in Hget as [? ?]. done.
  - right. split; [done|]. apply session_get_Some in Hget as [? ?]. eauto.
  - left. split; [done|]. by apply session_get_None.
Qed.

Lemma get_note_by_id_outcome_witness :
  get_note_by_id 2 1 two_notes_state
  = (Raise (HTTPException 403 (lit "You don't have permission to access this note")),
     two_notes_state).
Proof.
  destruct (get_note_by_id_outcome 2 1 two_notes_state) as (o & Hrun & _).
  rewrite Hrun. vm_compute in Hrun. by injection Hrun as <-.
Defined.

(** X5. A note of another user is protected: reading it, changing it and
    deleting it are all refused with 403, and the refusal changes nothing,
    not even the clock. *)
Theorem foreign_note_is_protected
    (w : World) (note_id user_id' : nat) (upd : NoteUpdate) (st : State) (note : Note) :
  session_get note_id (db st) = Some note ->
  user_id note ≠ user_id' ->
  let refusal :=
    HTTPException 403 (lit "You don't have permission to access this note") in
  get_note_by_id note_id user_id' st = (Raise refusal, st)
  ∧ update_note w note_id user_id' upd st = (Raise refusal, st)
  ∧ delete_note w note_id user_id' st = (Raise refusal, st).
Proof.
  intros Hget Hu refusal.
  pose proof (get_forbidden _ _ _ _ Hget Hu) as Hrun.
  split; [exact Hrun|]. split.
  - by apply update_refused.
  - by apply delete_refused.
Qed.

Lemma foreign_note_is_protected_witness :
  let refusal :=
    HTTPException 403 (lit "You don't have permission to access this note") in
  get_note_by_id 2 1 two_notes_state = (Raise refusal, two_notes_state)
  ∧ update_note complete_world 2 1 empty_summary_update two_notes_state
    = (Raise refusal, two_notes_state)
  ∧ delete_note complete_world 2 1 two_notes_state = (Raise refusal, two_notes_state).
Proof.
  apply (foreign_note_is_protected complete_world 2 1 empty_summary_update two_notes_state
           other_note).
  - reflexivity.
  - cbn. lia.
Defined.

Lemma two_notes_table_ok : table_ok two_notes_state.
Proof.
  split.
  - cbn. apply (bool_decide_unpack _). vm_compute. exact I.
  - intros n Hn. cbn in Hn. apply elem_of_cons in Hn as [->|Hn]; [cbn; lia|].
    apply list_elem_of_singleton in Hn as ->. cbn. lia.
Qed.

Lemma table_ok_create (w : World) u note_data st o st' :
  table_ok st -> create_note w u note_data st = (o, st') -> table_ok st'.
Proof.
  intros [Hnd Hlt] H.
  apply create_note_keys in H as [(Hd & Hn)|(n & _ & Hd & Hid & Hn)].
  - split; rewrite Hd; [done|]. rewrite Hn. done.
  - split; rewrite Hd.
    + rewrite map_app. apply NoDup_app. split; [done|]. split.
      * intros i Hi Hi'. cbn in Hi'. apply list_elem_of_singleton in Hi' as ->.
        apply (list_elem_of_fmap (B:=nat)) in Hi as (m & Hm & Hin).
        specialize (Hlt m Hin). lia.
      * cbn. apply NoDup_singleton.
    + intros m Hm. rewrite Hn. apply elem_of_app in Hm as [Hm|Hm].
      * specialize (Hlt m Hm). lia.
      * apply list_elem_of_singleton in Hm as ->. lia.
Qed.

Lemma table_ok_update (w : World) note_id u upd st o st' :
  table_ok st -> update_note w note_id u upd st = (o, st') -> table_ok st'.
Proof.
  intros [Hnd Hlt] H.
  apply update_note_inv in H
    as [(old & row & Hget & _ & Hrow & [(_ & Hd & Hn)|(e & _ & Hd & Hn)])|(e & _ & ->)];
    [|split; rewrite Hd; [done|by rewrite Hn]|done].
  apply session_get_Some in Hget as [Hin Hid].
  split; rewrite Hd.
  - by rewrite replace_row_ids.
  - intros m Hm. rewrite Hn. apply elem_of_replace_row in Hm as [->|Hm]; [|by apply Hlt].
    rewrite Hrow. cbn. by apply Hlt.
Qed.

Lemma table_ok_delete (w : World) note_id u st o st' :
  table_ok st -> delete_note w note_id u st = (o, st') -> table_ok st'.
Proof.
  intros [Hnd Hlt] H.
  apply delete_note_inv in H
    as [(old & Hget & _ & [(_ & Hd & Hn)|(e & _ & ->)])|(e & _ & ->)]; [|done|done].
  pose proof (remove_row_sublist old (db st)) as Hsub.
  split; rewrite Hd.
  - eapply sublist_NoDup; [exact Hnd|]. by apply (fmap_sublist id).
  - intros m Hm. rewrite Hn. apply Hlt. by eapply sublist_subseteq.
Qed.

(** X6. Primary keys stay unique and below the next key: if that holds
    before [create_note], [update_note] or [delete_note], it holds
    afterwards, however the operation ends. *)
Theorem writes_keep_table_ok (w : World) (st : State) :
  table_ok st ->
  (∀ u note_data o st', create_note w u note_data st = (o, st') -> table_ok st')
  ∧ (∀ note_id u upd o st', update_note w note_id u upd st = (o, st') -> table_ok st')
  ∧ (∀ note_id u o st', delete_note w note_id u st = (o, st') -> table_ok st').
Proof.
  intros Hok. split; [|split]; intros.
  - by eapply table_ok_create.
  - by eapply table_ok_update.
  - by eapply table_ok_delete.
Qed.

Lemma writes_keep_table_ok_witness :
  ∃ st', snd (create_note complete_world 3 demo_request two_notes_state) = st'
         ∧ table_ok st' ∧ length (db st') = 3%nat.
Proof.
  destruct (writes_keep_table_ok complete_world two_notes_state two_notes_table_ok)
    as (Hcreate & _ & _).
  eexists. split; [reflexivity|]. split.
  - eapply (Hcreate 3%nat demo_request). apply surjective_pairing.
  - vm_compute. reflexivity.
Defined.

(** X7. A note returned by [create_note] can be read back: in a table with
    unique keys, [get_note_by_id] with the returned id and the same user
    gives exactly the returned note. *)
Theorem create_then_get
    (w : World) (user_id' : nat) (note_data : NoteCreate) (st st' : State) (n : Note) :
  table_ok st ->
  create_note w user_id' note_data st = (Return n, st') ->
  get_note_by_id (id n) user_id' st' = (Return n, st').
Proof.
  intros Hok H. pose proof (table_ok_create _ _ _ _ _ _ Hok H) as [Hnd' _].
  pose proof (create_note_outcome w _ _ _ _ _ H) as (Hu & _ & Hcase).
  apply get_found; [|done]. apply session_get_unique; [done|].
  destruct Hcase as [[Hin ->]|(Hdb & _)]; [done|].
  rewrite Hdb. apply elem_of_app. right. apply list_elem_of_here.
Qed.

Lemma create_then_get_witness :
  ∃ n st',
    create_note complete_world 3 demo_request two_notes_state = (Return n, st')
    ∧ id n = 3%nat
    ∧ get_note_by_id (id n) 3 st' = (Return n, st').
Proof.
  eexists _, _. split; [vm_compute; reflexivity|]. split; [reflexivity|].
  apply (create_then_get complete_world 3 demo_request two_notes_state).
  - exact two_notes_table_ok.
  - vm_compute. reflexivity.
Defined.

(** X8. A successful [update_note] replaces one row and nothing else: the
    new row keeps the id, the owner, the URL and the creation time of the
    old one, every generated field that the request does not set keeps its
    value, a summary that the request sets is stored as sent, [updated_at]
    is the time of the update, and the table keeps its size.  When
    [update_note] fails, no row is changed. *)
Theorem update_note_effect
    (w : World) (note_id user_id' : nat) (upd : NoteUpdate) (st st' : State)
    (o : outcome Note) :
  update_note w note_id user_id' upd st = (o, st') ->
  match o with
  | Return n' =>
      ∃ old,
        session_get note_id (db st) = Some old
        ∧ db st' = replace_row n' (db st)
        ∧ length (db st') = length (db st)
        ∧ id n' = note_id ∧ user_id n' = user_id'
        ∧ youtube_url n' = youtube_url old ∧ created_at n' = created_at old
        ∧ updated_at n' = utcnow w (clock st)
        ∧ (nu_video_title upd = None -> video_title n' = video_title old)
        ∧ (nu_channel_name upd = None -> channel_name n' = channel_name old)
        ∧ (nu_summary upd = None -> summary n' = summary old)
        ∧ (nu_key_points upd = None -> key_points n' = key_points old)
        ∧ (nu_timestamps upd = None -> timestamps n' = timestamps old)
        ∧ (∀ s, nu_summary upd = Some (Some s) -> summary n' = PStr s)
  | Raise _ => db st' = db st
  end.
Proof.
  intros H.
  apply update_note_inv in H
    as [(old & row & Hget & Hu & Hrow & [(-> & Hd & _)|(e & -> & Hd & _)])|(e & -> & ->)];
    [|done|done].
  exists old. split; [done|]. split; [done|].
  split; [by rewrite Hd, length_replace_row|].
  apply session_get_Some in Hget as [_ Hid].
  subst row. cbn. repeat split; try done; try (by intros ->). by intros s ->.
Qed.

Lemma update_note_effect_witness :
  ∃ n' st',
    update_note complete_world 1 1 new_summary_update two_notes_state = (Return n', st')
    ∧ summary n' = PStr (lit "Better summary.")
    ∧ video_title n' = video_title stored_note
    ∧ db st' = [n'; other_note].
Proof.
  eexists _, _. split; [vm_compute; reflexivity|].
  pose proof (update_note_effect complete_world 1 1 new_summary_update two_notes_state _ _
                eq_refl) as Heffect.
  cbn beta iota in Heffect. destruct Heffect as (old & Hold & Hdb & _).
  split; [reflexivity|]. split; [reflexivity|]. exact Hdb.
Defined.

(** X9. After a successful [update_note], [get_note_by_id] gives the
    updated note, and every other stored note is found as before. *)
Theorem update_then_get
    (w : World) (note_id user_id' : nat) (upd : NoteUpdate) (st st' : State) (n' : Note) :
  update_note w note_id user_id' upd st = (Return n', st') ->
  get_note_by_id note_id user_id' st' = (Return n', st')
  ∧ ∀ other, other ≠ note_id -> session_get other (db st') = session_get other (db st).
Proof.
  intros H.
  apply update_note_inv in H
    as [(old & row & Hget & Hu & Hrow & [([= <-] & Hd & _)|(e & [=] & _)])|(e & [=] & _)].
  assert (id n' = note_id) as Hid.
  { apply session_get_Some in Hget as [_ Hid]. rewrite Hrow. exact Hid. }
  split.
  - apply get_found.
    + rewrite Hd, <- Hid. eapply session_get_replace_same. rewrite Hid. exact Hget.
    + rewrite Hrow. exact Hu.
  - intros other Hne. rewrite Hd. apply session_get_replace_other. congruence.
Qed.

Lemma update_then_get_witness :
  ∃ n' st',
    update_note complete_world 1 1 new_summary_update two_notes_state = (Return n', st')
    ∧ get_note_by_id 1 1 st' = (Return n', st')
    ∧ session_get 2 (db st') = Some other_note.
Proof.
  eexists _, _. split; [vm_compute; reflexivity|].
  destruct (update_then_get complete_world 1 1 new_summary_update two_notes_state _ _
              eq_refl) as [Hget Hothers].
  split; [exact Hget|]. etransitivity; [apply (Hothers 2%nat); lia|reflexivity].
Defined.

(** X10. In a table with unique keys, a successful [delete_note] removes
    exactly the requested note: afterwards the id is answered with 404,
    every other stored note is found as before, and the table is one row
    shorter.  When [delete_note] fails, nothing is changed. *)
Theorem delete_note_effect
    (w : World) (note_id user_id' : nat) (st st' : State) (o : outcome str) :
  table_ok st ->
  delete_note w note_id user_id' st = (o, st') ->
  match o with
  | Return message =>
      message = lit "Note with ID " ++ lit (pretty note_id) ++ lit " deleted successfully"
      ∧ get_note_by_id note_id user_id' st'
        = (Raise (HTTPException 404
                    (lit "Note with ID " ++ lit (pretty note_id) ++ lit " not found")),
           st')
      ∧ (∀ other, other ≠ note_id ->
           session_get other (db st') = session_get other (db st))
      ∧ S (length (db st')) = length (db st)
  | Raise _ => st' = st
  end.
Proof.
  intros [Hnd _] H.
  apply delete_note_inv in H
    as [(old & Hget & _ & [(-> & Hd & _)|(e & -> & ->)])|(e & -> & ->)]; [|done|done].
  pose proof (session_get_Some _ _ _ Hget) as [_ Hid].
  split; [done|]. split; [|split].
  - apply get_missing. rewrite Hd, <- Hid. by apply session_get_remove_same.
  - intros other Hne. rewrite Hd. apply session_get_remove_other. congruence.
  - rewrite Hd. eapply length_remove_row. rewrite Hid. exact Hget.
Qed.

Lemma delete_note_effect_witness :
  ∃ st',
    delete_note complete_world 1 1 two_notes_state
      = (Return (lit "Note with ID 1 deleted successfully"), st')
    ∧ db st' = [other_note]
    ∧ get_note_by_id 1 1 st'
      = (Raise (HTTPException 404 (lit "Note with ID 1 not found")), st').
Proof.
  eexists. split; [vm_compute; reflexivity|]. split; [reflexivity|].
  pose proof (delete_note_effect complete_world 1 1 two_notes_state _ _
                two_notes_table_ok eq_refl) as Heffect.
  cbn beta iota in Heffect. destruct Heffect as (_ & Hget & _). exact Hget.
Defined.

(* ===================================================================== *)
(** * The validators of the schemas *)
(* ===================================================================== *)

Section Validators.

Lemma lstrip_lstrip s : lstrip (lstrip s) = lstrip s.
Proof.
  induction s as [|c s IH]; [done|]. cbn.
  destruct (isspace c) eqn:E; [done|]. cbn. by rewrite E.
Qed.

Lemma rstrip_rstrip s : rstrip (rstrip s) = rstrip s.
Proof.
  induction s as [|c s IH]; [done|]. cbn [rstrip].
  destruct (rstrip s) as [|x r] eqn:Hr.
  - destruct (isspace c) eqn:E; [done|]. cbn. by rewrite E.
  - change (rstrip (c :: x :: r))
      with (match rstrip (x :: r) with
            | [] => if isspace c then [] else [c]
            | r' => c :: r'
            end).
    by rewrite IH.
Qed.

Lemma rstrip_lstrip s : rstrip (lstrip s) = lstrip (rstrip s).
Proof.
  induction s as [|c s IH]; [done|].
  destruct (isspace c) eqn:E.
  - cbn [lstrip]. rewrite E, IH. rewrite (rstrip_cons_space c s E).
    destruct (rstrip s) as [|x r]; [done|]. cbn [lstrip]. by rewrite E.
  - cbn [lstrip]. rewrite E. rewrite (rstrip_cons_nonspace c s E). cbn [lstrip].
    by rewrite E.
Qed.

Lemma strip_strip s : strip (strip s) = strip s.
Proof.
  unfold strip. by rewrite rstrip_lstrip, rstrip_rstrip, lstrip_lstrip.
Qed.

Lemma contains_spec sub s :
  contains sub s = true <-> ∃ pre post, s = pre ++ sub ++ post.
Proof.
  induction s as [|c s IH]; cbn [contains].
  - rewrite orb_false_r, startswith_spec. split.
    + intros [rest H]. by exists [], rest.
    + intros (pre & post & H). symmetry in H.
      apply app_eq_nil in H as [-> H]. exists post. by rewrite H.
  - rewrite orb_true_iff, startswith_spec, IH. split.
    + intros [[rest H]|(pre & post & H)].
      * by exists [], rest.
      * exists (c :: pre), post. by rewrite H.
    + intros ([|x pre] & post & H).
      * left. by exists post.
      * right. injection H as -> ->. by exists pre, post.
Qed.

Lemma contains_trans a b s :
  contains a b = true -> contains b s = true -> contains a s = true.
Proof.
  rewrite !contains_spec. intros (p1 & q1 & ->) (p2 & q2 & ->).
  exists (p2 ++ p1), (q1 ++ q2). by rewrite <- !app_assoc.
Qed.

(** The two longer domains of the list add nothing: both contain
    [youtube.com]. *)
Lemma any_domain (t : str) :
  existsb (fun domain => contains domain t) youtube_domains
  = contains (lit "youtube.com") t || contains (lit "youtu.be") t.
Proof.
  pose proof (contains_trans (lit "youtube.com") (lit "www.youtube.com") t eq_refl) as H3.
  pose proof (contains_trans (lit "youtube.com") (lit "m.youtube.com") t eq_refl) as H4.
  unfold youtube_domains. cbn [existsb]. rewrite orb_false_r.
  destruct (contains (lit "youtube.com") t), (contains (lit "youtu.be") t),
    (contains (lit "www.youtube.com") t), (contains (lit "m.youtube.com") t);
    try done; try (by specialize (H3 eq_refl)); by specialize (H4 eq_refl).
Qed.

Lemma validate_youtube_url_run lower v :
  validate_youtube_url lower v
  = match strip v with
    | [] => Raise (PyError (lit "YouTube URL cannot be empty"))
    | _ :: _ =>
        if contains (lit "youtube.com") (lower (strip v))
           || contains (lit "youtu.be") (lower (strip v))
        then Return (strip v)
        else Raise (PyError (lit "Invalid YouTube URL. Must be a valid YouTube link"))
    end.
Proof.
  unfold validate_youtube_url. destruct (strip v) as [|c t]; [done|].
  rewrite any_domain. by destruct (_ || _).
Qed.

End Validators.

(** X11. [validate_youtube_url] accepts a value exactly when, after
    trimming, it is not empty and its lower-case form contains
    [youtube.com] or [youtu.be] somewhere; it then returns the trimmed
    value.  A blank value is reported as empty.  An accepted value is
    accepted again, unchanged. *)
Theorem validate_youtube_url_spec (lower : str -> str) (v : str) :
  (∀ u, validate_youtube_url lower v = Return u
        <-> u = strip v ∧ strip v ≠ []
            ∧ (contains (lit "youtube.com") (lower (strip v)) = true
               ∨ contains (lit "youtu.be") (lower (strip v)) = true))
  ∧ (strip v = [] ->
     validate_youtube_url lower v = Raise (PyError (lit "YouTube URL cannot be empty")))
  ∧ (∀ u, validate_youtube_url lower v = Return u ->
          validate_youtube_url lower u = Return u).
Proof.
  assert (∀ u, validate_youtube_url lower v = Return u
        <-> u = strip v ∧ strip v ≠ []
            ∧ (contains (lit "youtube.com") (lower (strip v)) = true
               ∨ contains (lit "youtu.be") (lower (strip v)) = true)) as Hspec.
  { intros u. rewrite validate_youtube_url_run.
    destruct (strip v) as [|c t] eqn:Hs.
    - split; [done|]. by intros (_ & ? & _).
    - rewrite <- orb_true_iff. destruct (_ || _); split.
      + intros [= <-]. done.
      + intros (-> & _ & _). done.
      + done.
      + intros (_ & _ & ?). done. }
  split; [exact Hspec|]. split.
  - intros Hs. rewrite validate_youtube_url_run. by rewrite Hs.
  - intros u Hu. apply Hspec in Hu as (-> & Hne & Hdom).
    rewrite validate_youtube_url_run, strip_strip.
    destruct (strip v) as [|c t]; [done|].
    apply orb_true_iff in Hdom. by rewrite Hdom.
Qed.

Lemma validate_youtube_url_spec_witness :
  validate_youtube_url ascii_lower (lit "  https://YouTu.be/abc123 ")
    = Return (lit "https://YouTu.be/abc123")
  ∧ validate_youtube_url ascii_lower (lit "https://YouTu.be/abc123")
    = Return (lit "https://YouTu.be/abc123").
Proof.
  destruct (validate_youtube_url_spec ascii_lower (lit "  https://YouTu.be/abc123 "))
    as (_ & _ & Hagain).
  split; [reflexivity|]. apply Hagain. reflexivity.
Defined.

(** X12. [parse_json_fields] gives [None] for [None] and a list otherwise:
    a list is passed on as it is, the text of a JSON list is parsed to that
    list, and text that is no JSON, text of a JSON value that is no list,
    and every object that is neither [None] nor text nor a list (a number,
    a truth value, a dict) all read as the empty list.  It fails only when
    the JSON parser fails with something other than a decoding error. *)
Theorem parse_json_fields_spec (w : World) (v : pyval) :
  (parse_json_fields w v = Return PNone <-> v = PNone)
  ∧ (∀ r, parse_json_fields w v = Return r -> r = PNone ∨ ∃ l, r = PList l)
  ∧ (∀ l, v = PList l -> parse_json_fields w v = Return (PList l))
  ∧ (∀ s l, v = PStr s -> json_loads w s = Return (PList l) ->
            parse_json_fields w v = Return (PList l))
  ∧ (∀ s x, v = PStr s -> json_loads w s = Return x -> (∀ l, x ≠ PList l) ->
            parse_json_fields w v = Return (PList []))
  ∧ (∀ s msg, v = PStr s -> json_loads w s = Raise (JSONDecodeError msg) ->
              parse_json_fields w v = Return (PList []))
  ∧ (∀ e, parse_json_fields w v = Raise e ->
          ∃ s, v = PStr s ∧ json_loads w s = Raise e ∧ ∀ msg, e ≠ JSONDecodeError msg)
  ∧ (v ≠ PNone -> (∀ s, v ≠ PStr s) -> (∀ l, v ≠ PList l) ->
     parse_json_fields w v = Return (PList [])).
Proof.
  split; [|split; [|split; [|split; [|split; [|split; [|split]]]]]].
  - destruct v as [| | | |s| |]; cbn; try (split; done).
    destruct (json_loads w s) as [[]|[]]; split; done.
  - intros r. destruct v as [| | | |s| |]; cbn; try (intros [= <-]; eauto).
    destruct (json_loads w s) as [[]|[]]; intros [= <-]; eauto.
  - by intros l ->.
  - intros s l -> H. cbn. by rewrite H.
  - intros s x -> H Hx. cbn. rewrite H. destruct x; try done. by destruct (Hx l).
  - intros s msg -> H. cbn. by rewrite H.
  - intros e. destruct v as [| | | |s| |]; cbn; try done.
    destruct (json_loads w s) as [[]|[]] eqn:E; try done; intros [= <-];
      exists s; split; done.
  - intros Hnone Hstr Hlist. destruct v as [| | | |s|l|]; try done.
    + by destruct (Hstr s).
    + by destruct (Hlist l).
Qed.

Lemma parse_json_fields_spec_witness :
  parse_json_fields caption_world (PStr (lit "not json")) = Return (PList [])
  ∧ parse_json_fields round_trip_world (PStr (lit "<json>")) = Return (PList points)
  ∧ parse_json_fields caption_world (PInt 7) = Return (PList []).
Proof.
  split; [|split].
  2: { destruct (parse_json_fields_spec round_trip_world (PStr (lit "<json>")))
         as (_ & _ & _ & Hgood & _).
       exact (Hgood (lit "<json>") points eq_refl eq_refl). }
  2: { destruct (parse_json_fields_spec caption_world (PInt 7))
         as (_ & _ & _ & _ & _ & _ & _ & Hother).
       by apply Hother. }
  - destruct (parse_json_fields_spec caption_world (PStr (lit "not json")))
      as (_ & _ & _ & _ & _ & Hbad & _).
    exact (Hbad (lit "not json") (lit "Expecting value") eq_refl eq_refl).
Defined.

(** X13. What the service stores in [key_points] or [timestamps] is read
    back unchanged by the response validator, provided the JSON parser
    inverts the JSON printer on it: a non-empty list stored by
    [create_note] comes back as that list, an empty one (stored as no
    value) comes back as [None], and a list of strings stored by
    [update_note] comes back as that list even when it is empty. *)
Theorem stored_lists_round_trip (w : World) (l : list pyval) (strings : list str) :
  json_loads w (json_dumps w (PList l)) = Return (PList l) ->
  json_loads w (json_dumps w (PList (map PStr strings))) = Return (PList (map PStr strings)) ->
  parse_json_fields w (column_value (dumps_or_none w l))
    = Return (match l with [] => PNone | _ => PList l end)
  ∧ ∀ n,
      parse_json_fields w
        (column_value
           (key_points
              (apply_update w
                 (mkNoteUpdate None None None (Some (Some strings)) None None None None None
                    None) n)))
      = Return (PList (map PStr strings)).
Proof.
  intros Hl Hs. split.
  - unfold dumps_or_none. destruct l as [|x l]; [done|]. cbn. by rewrite Hl.
  - intros n. cbn. by rewrite Hs.
Qed.

Lemma stored_lists_round_trip_witness :
  parse_json_fields round_trip_world (column_value (dumps_or_none round_trip_world points))
    = Return (PList points).
Proof.
  destruct (stored_lists_round_trip round_trip_world points
              [lit "One point"; lit "Another point"]) as [Hcreate _].
  - reflexivity.
  - reflexivity.
  - exact Hcreate.
Defined.

(* ===================================================================== *)
(** * More on the note generator *)
(* ===================================================================== *)

Section Fences.

Lemma rstrip_app_fixed x y : y ≠ [] -> rstrip y = y -> rstrip (x ++ y) = x ++ y.
Proof.
  intros Hne Hy. induction x as [|a x IH]; [done|].
  cbn [app rstrip]. rewrite IH. destruct (x ++ y) eqn:E; [|done].
  apply app_eq_nil in E as [_ ->]. done.
Qed.

Lemma endswith_app x p : endswith (x ++ p) p = true.
Proof.
  unfold endswith. rewrite length_app. apply andb_true_iff. split.
  - apply Nat.leb_le. lia.
  - apply bool_decide_eq_true.
    replace (length x + length p - length p)%nat with (length x) by lia.
    apply drop_app_length.
Qed.

Lemma slice_to_neg_app x p : slice_to_neg (length p) (x ++ p) = x.
Proof.
  unfold slice_to_neg. rewrite length_app.
  replace (length x + length p - length p)%nat with (length x) by lia.
  apply take_app_length.
Qed.

Lemma startswith_prefix s p q : startswith s p = false -> startswith s (p ++ q) = false.
Proof.
  intros H. destruct (startswith s (p ++ q)) eqn:E; [|done].
  apply startswith_spec in E as [rest ->].
  rewrite <- H. symmetry. apply startswith_spec. exists (q ++ rest). by rewrite app_assoc.
Qed.

Lemma strip_fences_strip t : strip_fences (strip t) = strip_fences t.
Proof. unfold strip_fences. by rewrite strip_strip. Qed.

Lemma strip_fenced (opening body : str) :
  strip (opening ++ body ++ lit "```") = opening ++ body ++ lit "```"
  <-> lstrip (opening ++ body ++ lit "```") = opening ++ body ++ lit "```".
Proof.
  unfold strip. rewrite app_assoc, rstrip_app_fixed by done. done.
Qed.

End Fences.

(** X14. Fence stripping depends only on the trimmed answer and gives a
    trimmed text.  An answer wrapped as [```json ... ```] is reduced to its
    trimmed inside; an answer that neither begins nor ends with a fence
    marker is only trimmed. *)
Theorem strip_fences_spec (t body : str) :
  strip_fences (strip t) = strip_fences t
  ∧ strip (strip_fences t) = strip_fences t
  ∧ strip_fences (lit "```json" ++ body ++ lit "```") = strip body
  ∧ (startswith (strip t) (lit "```") = false ->
     endswith (strip t) (lit "```") = false ->
     strip_fences t = strip t).
Proof.
  split; [apply strip_fences_strip|]. split; [apply strip_strip|]. split.
  - unfold strip_fences.
    assert (strip (lit "```json" ++ body ++ lit "```") = lit "```json" ++ body ++ lit "```")
      as ->.
    { apply strip_fenced. reflexivity. }
    assert (startswith (lit "```json" ++ body ++ lit "```") (lit "```json") = true) as ->.
    { apply startswith_spec. eauto. }
    change (slice_from 7 (lit "```json" ++ body ++ lit "```")) with (body ++ lit "```").
    rewrite endswith_app.
    pose proof (slice_to_neg_app body (lit "```")) as Hs.
    change (length (lit "```")) with 3%nat in Hs. by rewrite Hs.
  - intros Hstart Hend. unfold strip_fences.
    pose proof (startswith_prefix _ (lit "```") (lit "json") Hstart) as Hjson.
    change (lit "```" ++ lit "json") with (lit "```json") in Hjson.
    rewrite Hjson, Hstart, Hend. apply strip_strip.
Qed.

Lemma strip_fences_spec_witness :
  strip_fences (lit "  {} ") = lit "{}".
Proof.
  destruct (strip_fences_spec (lit "  {} ") []) as (_ & _ & _ & Hplain).
  rewrite Hplain; reflexivity.
Defined.

(** X15. However it ends, the generator makes exactly one call to the
    model, with the prompt built from its four inputs, and changes nothing
    else: it does not retry and touches neither rows nor files.  A note it
    returns has passed the validation; every failure, of the call, of the
    parsing or of the validation, is an internal error (status 500) whose
    detail begins with "Failed to generate note with AI: ". *)
Theorem generator_contract
    (w : World) (subtitle video_url title channel : str) (st st' : State)
    (o : outcome GeneratedNote) :
  _generate_note_with_gemini w subtitle video_url title channel st = (o, st') ->
  st' = with_call (CallGemini (build_prompt subtitle video_url title channel)) st
  ∧ match o with
    | Return r => missing_fields w r = []
    | Raise e =>
        ∃ cause,
          e = HTTPException 500 (lit "Failed to generate note with AI: " ++ exn_str w cause)
    end.
Proof.
  intros H. split.
  - revert H. unfold _generate_note_with_gemini, generate_body, try_except, bind, log, lift,
      validate_generated, raise, ret, generation_failed.
    destruct (generate_content w _) as [[text|]|e]; try (by intros [= _ <-]).
    destruct (parse_note_data w _ _ _) as [note_data|e]; try (by intros [= _ <-]).
    destruct (structure_note_data _ _ _) as [r|e]; try (by intros [= _ <-]).
    destruct (missing_fields w r); by intros [= _ <-].
  - destruct o as [r|e].
    + by eapply generator_returns_complete.
    + unfold _generate_note_with_gemini in H.
      apply try_except_inv in H as [(a & _ & [=])|(cause & s1 & _ & [= <- _])].
      by exists cause.
Qed.

Lemma generator_contract_witness :
  ∃ r st',
    _generate_note_with_gemini complete_world (lit "Hello big world") demo_url
      (lit "Demo video") (lit "Demo channel") empty_state = (Return r, st')
    ∧ trace st' = [CallGemini (build_prompt (lit "Hello big world") demo_url
                                 (lit "Demo video") (lit "Demo channel"))]
    ∧ missing_fields complete_world r = [].
Proof.
  eexists _, _. split; [vm_compute; reflexivity|].
  destruct (generator_contract complete_world (lit "Hello big world") demo_url
              (lit "Demo video") (lit "Demo channel") empty_state _ _ eq_refl)
    as [Hst Hr].
  split; [reflexivity|exact Hr].
Defined.

(* ===================================================================== *)
(** * More on the transcript acquirer *)
(* ===================================================================== *)

Section Acquirer.

Context (w : World).

Lemma acquirer_exception video_url st e st' :
  get_video_metadata_from_youtube_video_url w video_url st = (Raise e, st') ->
  (∃ cause, e = acquisition_failed w cause) ∨ yt_info w video_url = Raise e.
Proof.
  unfold get_video_metadata_from_youtube_video_url. intros H.
  apply bind_inv in H as [(sub & s1 & _ & H)|(e' & H & [= <-])].
  - right. unfold bind, lift, ret in H.
    destruct (yt_info w video_url); [done|]. by injection H as <- _.
  - left. apply try_except_inv in H as [(a & _ & [=])|(cause & s1 & _ & [= <- _])].
    by exists cause.
Qed.

(** The audio path when every stage succeeds, with the state it ends in. *)
Lemma audio_success_state video_url default_filename st transcript alternatives channels :
  yt_audio_only w video_url = Return default_filename ->
  download_error w video_url = None ->
  from_file_error w (downloaded_path w default_filename) = None ->
  export_error w (audio_file_path w video_url) = None ->
  downloaded_path w default_filename ≠ audio_file_path w video_url ->
  transcribe_file w (audio_file_path w video_url)
    = Return ((transcript :: alternatives) :: channels) ->
  _get_subtitle_from_audio w video_url st
  = (Return transcript,
     mkState (db st) (next_id st)
       ((files st ∪ {[downloaded_path w default_filename]}
           ∪ {[audio_file_path w video_url]})
          ∖ {[downloaded_path w default_filename]} ∖ {[audio_file_path w video_url]})
       (clock st)
       (trace st ++ [CallYouTube video_url; CallDownload video_url;
                     CallDeepgram (audio_file_path w video_url)])).
Proof.
  intros Hs Hd Hf He Hne Hstt.
  rewrite (audio_until_transcription w video_url default_filename Hs Hd Hf He).
  unfold convert_audio_to_text, try_except, bind, open_rb, log, lift, os_remove, set_files.
  rewrite bool_decide_eq_true_2 by (by apply wav_before_transcription).
  cbn. rewrite Hstt. cbn.
  rewrite bool_decide_eq_true_2 by (by apply wav_before_transcription). cbn.
  by rewrite <- app_assoc.
Qed.

End Acquirer.

(** X16. When the platform reports caption tracks, the acquirer requests
    the first one and nothing else: whatever the outcome, the only outside
    calls are the lookup of the video and the download of that track, and
    no audio is downloaded or transcribed, no file written.  The transcript
    it returns is what the caption parser makes of the downloaded text; a
    failure is an internal error (status 500) of the acquirer or the failure
    of reading the video record. *)
Theorem acquirer_uses_first_caption_track
    (w : World) (video_url : str) (caption : Caption) (rest : list Caption)
    (st st' : State) (o : outcome Video) :
  yt_captions w video_url = Return (caption :: rest) ->
  get_video_metadata_from_youtube_video_url w video_url st = (o, st') ->
  st' = with_call (CallRequestsGet (url caption)) (with_call (CallYouTube video_url) st)
  ∧ match o with
    | Return video =>
        ∃ response info,
          requests_get w (url caption) = Return response
          ∧ status_error response = None
          ∧ yt_info w video_url = Return info
          ∧ _extract_text_from_xml_transcript w (response_text response) st'
            = (Return (v_caption video), st')
          ∧ v_title video = title info ∧ v_channel_name video = author info
    | Raise e =>
        (∃ cause,
           e = HTTPException 500
                 (lit "Failed to download audio from YouTube video: " ++ exn_str w cause))
        ∨ yt_info w video_url = Raise e
    end.
Proof.
  intros Hcaps H.
  assert (st' = with_call (CallRequestsGet (url caption))
                  (with_call (CallYouTube video_url) st)
          ∧ ∀ video, o = Return video ->
              ∃ response info,
                requests_get w (url caption) = Return response
                ∧ status_error response = None
                ∧ yt_info w video_url = Return info
                ∧ _extract_text_from_xml_transcript w (response_text response) st'
                  = (Return (v_caption video), st')
                ∧ v_title video = title info ∧ v_channel_name video = author info)
    as [Hst Hret].
  { revert H. unfold get_video_metadata_from_youtube_video_url, fetch_subtitle.
    unfold try_except at 1. unfold bind at 1 2 3 4. unfold log at 1. unfold lift at 1.
    rewrite Hcaps. unfold bind at 1 2 3. unfold log, lift at 1.
    destruct (requests_get w (url caption)) as [response|e].
    2: { cbn. intros [= <- <-]. done. }
    unfold fail_if. destruct (status_error response) as [e|] eqn:Hstatus.
    { cbn. intros [= <- <-]. done. }
    unfold ret at 1.
    destruct (extract_total w (response_text response)
                (with_call (CallRequestsGet (url caption))
                   (with_call (CallYouTube video_url) st))) as [s Hs].
    rewrite Hs. unfold lift, ret, bind.
    destruct (yt_info w video_url) as [info|e]; intros [= <- <-]; [|done].
    split; [done|]. intros video [= <-]. exists response, info. done. }
  split; [exact Hst|]. destruct o as [video|e]; [by apply Hret|].
  apply acquirer_exception in H as [(cause & ->)|H]; [left; by exists cause|by right].
Qed.

Lemma acquirer_uses_first_caption_track_witness :
  ∃ video st',
    get_video_metadata_from_youtube_video_url complete_world demo_url empty_state
      = (Return video, st')
    ∧ trace st' = [CallYouTube demo_url;
                   CallRequestsGet (lit "https://video.example/timedtext")]
    ∧ files st' = ∅
    ∧ v_title video = lit "Demo video".
Proof.
  destruct (get_video_metadata_from_youtube_video_url complete_world demo_url empty_state)
    as [o st'] eqn:Hrun.
  destruct (acquirer_uses_first_caption_track complete_world demo_url
              (mkCaption (lit "en") (lit "https://video.example/timedtext")) []
              empty_state st' o eq_refl Hrun) as [Hst Ho].
  vm_compute in Hrun. injection Hrun as <- <-.
  eexists _, _. split; [reflexivity|].
  destruct Ho as (response & info & _ & _ & Hinfo & _ & Htitle & _).
  injection Hinfo as <-.
  split; [reflexivity|]. split; [reflexivity|]. exact Htitle.
Defined.

(** X17. When the platform reports no caption track and the download, the
    transcoding and the transcription all succeed, the acquirer returns the
    first alternative of the first channel as transcript, has called the
    platform, the download and the speech-to-text service once each after
    its first lookup, and leaves neither the downloaded container nor the
    normalized file behind. *)
Theorem acquirer_transcribes_audio
    (w : World) (video_url default_filename transcript : str)
    (alternatives : list str) (channels : list (list str)) (info : VideoInfo) (st : State) :
  yt_captions w video_url = Return [] ->
  yt_audio_only w video_url = Return default_filename ->
  download_error w video_url = None ->
  from_file_error w (downloaded_path w default_filename) = None ->
  export_error w (audio_file_path w video_url) = None ->
  downloaded_path w default_filename ≠ audio_file_path w video_url ->
  transcribe_file w (audio_file_path w video_url)
    = Return ((transcript :: alternatives) :: channels) ->
  yt_info w video_url = Return info ->
  ∃ video st',
    get_video_metadata_from_youtube_video_url w video_url st = (Return video, st')
    ∧ v_caption video = transcript
    ∧ v_title video = title info
    ∧ trace st' = trace st ++ [CallYouTube video_url; CallYouTube video_url;
                               CallDownload video_url;
                               CallDeepgram (audio_file_path w video_url)]
    ∧ (downloaded_path w default_filename ∉ files st')
    ∧ (audio_file_path w video_url ∉ files st')
    ∧ db st' = db st.
Proof.
  intros Hcaps Hs Hd Hf He Hne Hstt Hinfo.
  eexists _, _. split.
  - unfold get_video_metadata_from_youtube_video_url, fetch_subtitle.
    unfold try_except at 1. unfold bind at 1 2 3. unfold log at 1. unfold lift at 1.
    rewrite Hcaps.
    rewrite (audio_success_state w _ _ _ _ _ _ Hs Hd Hf He Hne Hstt).
    unfold bind, lift, ret. rewrite Hinfo. reflexivity.
  - cbn. split; [done|]. split; [done|]. split; [by rewrite <- app_assoc|].
    split; [apply removed_twice_not_in|]. split; [apply removed_twice_not_in|done].
Qed.

Lemma acquirer_transcribes_audio_witness :
  ∃ video st',
    get_video_metadata_from_youtube_video_url transcription_world demo_url empty_state
      = (Return video, st')
    ∧ v_caption video = lit "Hello from audio"
    ∧ files st' = ∅.
Proof.
  destruct (acquirer_transcribes_audio transcription_world demo_url (lit "Demo video.m4a")
              (lit "Hello from audio") [] [] demo_info empty_state)
    as (video & st' & Hrun & Hcap & _); try reflexivity.
  { vm_compute. discriminate. }
  exists video, st'. split; [exact Hrun|]. split; [exact Hcap|].
  vm_compute in Hrun. injection Hrun as _ <-. reflexivity.
Defined.

(* ===================================================================== *)
(** * The shape of the caption parser's result *)
(* ===================================================================== *)

Section CleanText.

Lemma trimmed_spaced_idem s :
  trimmed (trimmed s) = trimmed s ∧ spaced (spaced s) = spaced s.
Proof.
  induction s as [|c s [IHt IHs]]; [done|].
  rewrite trimmed_cons, spaced_cons. destruct (isspace c) eqn:Hc.
  - split; [exact IHt|]. destruct (trimmed s) as [|d r] eqn:Ht; [done|].
    rewrite spaced_cons, isspace_sp, IHt. done.
  - rewrite trimmed_cons, spaced_cons, Hc, IHs. done.
Qed.

Lemma clean_whitespace_idem s : clean_whitespace (clean_whitespace s) = clean_whitespace s.
Proof. rewrite !clean_whitespace_trimmed. apply trimmed_spaced_idem. Qed.

Lemma strip_clean_whitespace s : strip (clean_whitespace s) = clean_whitespace s.
Proof. unfold clean_whitespace. apply strip_strip. Qed.

Lemma trimmed_spaced_only_sp s :
  Forall (fun c => isspace c = true -> c = sp) (trimmed s)
  ∧ Forall (fun c => isspace c = true -> c = sp) (spaced s).
Proof.
  induction s as [|c s [IHt IHs]]; [by split; constructor|].
  rewrite trimmed_cons, spaced_cons. destruct (isspace c) eqn:Hc.
  - split; [exact IHt|]. destruct (trimmed s); [constructor|by constructor].
  - split; constructor; try done; congruence.
Qed.

Lemma clean_whitespace_only_sp s :
  Forall (fun c => isspace c = true -> c = sp) (clean_whitespace s).
Proof. rewrite clean_whitespace_trimmed. apply trimmed_spaced_only_sp. Qed.

End CleanText.

(** X18. Whenever the caption parser extracts anything, by parsing the
    document or by pattern matching after a parse error, its result is in
    normal form: it has no leading or trailing whitespace, its only
    whitespace characters are plain spaces, and cleaning it again changes
    nothing. *)
Theorem caption_text_is_normalised
    (w : World) (xml_content s : str) (st st' : State) :
  _extract_text_from_xml_transcript w xml_content st = (Return s, st') ->
  (∃ root, ET_fromstring w xml_content = Return root)
  ∨ ((∃ msg, ET_fromstring w xml_content = Raise (ParseError msg))
     ∧ findall_text xml_content ≠ []) ->
  strip s = s
  ∧ clean_whitespace s = s
  ∧ Forall (fun c => isspace c = true -> c = sp) s.
Proof.
  unfold _extract_text_from_xml_transcript, try_except, bind, lift, ret.
  intros H [[root Hroot]|[[msg Hmsg] Hmatches]].
  - rewrite Hroot in H. injection H as <- _.
    auto using strip_clean_whitespace, clean_whitespace_idem, clean_whitespace_only_sp.
  - rewrite Hmsg in H. destruct (findall_text xml_content) as [|m ms]; [done|].
    injection H as <- _.
    auto using strip_clean_whitespace, clean_whitespace_idem, clean_whitespace_only_sp.
Qed.

Lemma caption_text_is_normalised_witness :
  _extract_text_from_xml_transcript caption_world transcript_markup empty_state
    = (Return (lit "Hello big world"), empty_state)
  ∧ strip (lit "Hello big world") = lit "Hello big world"
  ∧ clean_whitespace (lit "Hello big world") = lit "Hello big world".
Proof.
  assert (_extract_text_from_xml_transcript caption_world transcript_markup empty_state
          = (Return (lit "Hello big world"), empty_state)) as Hrun
    by (vm_compute; reflexivity).
  split; [exact Hrun|].
  destruct (caption_text_is_normalised caption_world transcript_markup _ _ _ Hrun)
    as (Hstrip & Hclean & _).
  - left. eexists. vm_compute. reflexivity.
  - split; [exact Hstrip|exact Hclean].
Defined.

(* ===================================================================== *)
(** * The failures of [create_note] *)
(* ===================================================================== *)

Section CreateFailures.

Context (w : World).

Lemma create_body_exception user_id' note_data st e st' :
  create_body w user_id' note_data st = (Raise e, st') ->
  e = no_captions
  ∨ (∃ detail, e = HTTPException HTTP_500_INTERNAL_SERVER_ERROR detail)
  ∨ yt_info w (nc_youtube_url note_data) = Raise e
  ∨ (∃ row, commit_error w row = Some e).
Proof.
  unfold create_body. intros H.
  apply bind_inv in H as [(video & st1 & H1 & H)|(e' & H1 & [= <-])].
  2: { apply acquirer_exception in H1 as [(cause & ->)|H1]; [|auto].
       right. left. by eexists. }
  destruct (blank (v_caption video)).
  { injection H as <- _. by left. }
  apply bind_inv in H as [(g & st2 & H2 & H)|(e' & H2 & [= <-])].
  2: { unfold _generate_note_with_gemini in H2.
       apply try_except_inv in H2 as [(a & _ & [=])|(cause & s & _ & [= <- _])].
       right. left. by eexists. }
  destruct (missing_fields w g) as [|f fs].
  2: { injection H as <- _. right. left. by eexists. }
  apply bind_inv in H as [(created & st3 & H3 & H)|(e' & H3 & _)].
  2: { apply now_inv in H3 as ([=] & _). }
  apply bind_inv in H as [(updated & st4 & H4 & H)|(e' & H4 & _)].
  2: { apply now_inv in H4 as ([=] & _). }
  unfold session_insert in H.
  destruct (commit_error w _) as [e'|] eqn:Hcommit; [|done].
  injection H as <- _. right. right. right. by eexists.
Qed.

End CreateFailures.

(** X19. Once the look-up for an existing note has answered that there is
    none, every failure of [create_note] is an HTTP error: all that follows
    stands inside its [try].  The error is the 404 [No captions/subtitles
    available ...], or it has status 500, or it is an HTTP error that
    reading the video record or writing the row raised itself and that is
    passed on unchanged. *)
Theorem create_note_failure_kinds
    (w : World) (user_id' : nat) (note_data : NoteCreate) (st st' : State) (e : exn) :
  select_first user_id' (nc_youtube_url note_data) (db st) = None ->
  create_note w user_id' note_data st = (Raise e, st') ->
  (∃ status detail, e = HTTPException status detail)
  ∧ (e = no_captions
     ∨ (∃ detail, e = HTTPException 500 detail)
     ∨ yt_info w (nc_youtube_url note_data) = Raise e
     ∨ (∃ row, commit_error w row = Some e)).
Proof.
  intros Hsel H. rewrite (create_note_new _ _ _ _ Hsel) in H.
  apply try_except_inv in H as [(n & _ & [=])|(e0 & st1 & H1 & H2)].
  apply create_body_exception in H1.
  assert ((∃ status detail, e = HTTPException status detail)
          ∧ (e = e0 ∨ ∃ detail, e = HTTPException 500 detail)) as [Hhttp [->|H500]].
  { destruct e0; injection H2 as <- _;
      (split; [by eexists _, _|]); (by left) || (right; by eexists). }
  - done.
  - split; [done|]. by right; left.
Qed.

Lemma create_note_failure_kinds_witness :
  create_note blank_caption_world 1 demo_request empty_state
  = (Raise no_captions,
     with_call (CallRequestsGet (lit "https://video.example/timedtext"))
       (with_call (CallYouTube demo_url) empty_state))
  ∧ ∃ status detail, no_captions = HTTPException status detail.
Proof.
  assert (create_note blank_caption_world 1 demo_request empty_state
          = (Raise no_captions,
             with_call (CallRequestsGet (lit "https://video.example/timedtext"))
               (with_call (CallYouTube demo_url) empty_state))) as Hrun
    by (vm_compute; reflexivity).
  split; [exact Hrun|].
  exact (proj1 (create_note_failure_kinds blank_caption_world 1 demo_request empty_state
                  _ no_captions eq_refl Hrun)).
Defined.

(** X20. When the audio was downloaded but cannot be decoded or cannot be
    written in the normalized format, the transcriber fails with status 500
    and a detail that carries the cause, the speech-to-text service is not
    called, and the downloaded container is still on disk: its removal is
    only reached after a successful transcoding. *)
Theorem failed_transcoding_leaves_download
    (w : World) (video_url default_filename : str) (cause : exn) (st : State) :
  yt_audio_only w video_url = Return default_filename ->
  download_error w video_url = None ->
  from_file_error w (downloaded_path w default_filename) = Some cause
  ∨ (from_file_error w (downloaded_path w default_filename) = None
     ∧ export_error w (audio_file_path w video_url) = Some cause) ->
  ∃ st',
    _get_subtitle_from_audio w video_url st
    = (Raise (HTTPException 500
                (lit "Failed to get subtitle from audio of YouTube video: "
                 ++ exn_str w cause)), st')
    ∧ (downloaded_path w default_filename ∈ files st')
    ∧ trace st' = trace st ++ [CallYouTube video_url; CallDownload video_url]
    ∧ db st' = db st.
Proof.
  intros Hstream Hdownload Hcase. eexists. split.
  - unfold _get_subtitle_from_audio, try_except, bind, log, lift, fail_if, set_files.
    cbn. rewrite Hstream, Hdownload. cbn.
    destruct Hcase as [->|[-> ->]]; cbn; reflexivity.
  - cbn. split; [apply added_in|]. split; [by rewrite <- app_assoc|done].
Qed.

Lemma failed_transcoding_leaves_download_witness :
  ∃ st',
    _get_subtitle_from_audio transcoding_fails_world demo_url empty_state
    = (Raise (HTTPException 500
                (lit "Failed to get subtitle from audio of YouTube video: "
                 ++ exn_str transcoding_fails_world could_not_decode)), st')
    ∧ (lit "/srv/backend/temp_audio_files/Demo video.m4a" ∈ files st')
    ∧ trace st' = [CallYouTube demo_url; CallDownload demo_url]
    ∧ db st' = [].
Proof.
  apply (failed_transcoding_leaves_download transcoding_fails_world demo_url
           (lit "Demo video.m4a") could_not_decode empty_state);
    [reflexivity|reflexivity|left; reflexivity].
Defined.

(* ===================================================================== *)
(** * The invariant of persisted notes *)
(* ===================================================================== *)




(* ===================================================================== *)
(** * A document whose root is a [<text>] element *)
(* ===================================================================== *)

Section RootElement.

Lemma trimmed_nil_lstrip s : trimmed s = [] -> lstrip s = [].
Proof.
  induction s as [|c s IH]; [done|].
  rewrite trimmed_cons. cbn [lstrip]. by destruct (isspace c).
Qed.

Lemma clean_whitespace_not_nil s : strip s ≠ [] -> clean_whitespace s ≠ [].
Proof.
  intros Hs Hc. apply Hs. rewrite clean_whitespace_trimmed in Hc.
  apply trimmed_nil_lstrip in Hc.
  unfold strip. rewrite <- rstrip_lstrip. by rewrite Hc.
Qed.

End RootElement.

(** C5 fails on every document whose root element is itself a [<text>]
    element with text that is not blank: the document is well formed, its
    one [<text>] element holds the text, so the transcript should be that
    text cleaned, which is not empty; yet the parser returns the empty
    string, because the path it searches selects descendants of the root
    only. *)
Theorem root_text_element_is_skipped
    (w : World) (xml_content : str) (attrib : list (str * str)) (t : str)
    (tail : option str) (st : State) :
  let root := mkElement (lit "text") attrib (Some t) [] tail in
  ET_fromstring w xml_content = Return root ->
  strip t ≠ [] ->
  all_text_elements root = [root]
  ∧ joined_transcript (all_text_elements root) = clean_whitespace t
  ∧ clean_whitespace t ≠ []
  ∧ _extract_text_from_xml_transcript w xml_content st = (Return [], st).
Proof.
  intros root Hparse Hblank.
  assert (all_text_elements root = [root]) as Hall by reflexivity.
  split; [exact Hall|]. split; [by rewrite Hall|].
  split; [by apply clean_whitespace_not_nil|].
  by rewrite (extract_parsed w _ _ _ Hparse).
Qed.

Lemma root_text_element_is_skipped_witness :
  ET_fromstring caption_world single_text_markup = Return single_text_root
  ∧ joined_transcript (all_text_elements single_text_root) = lit "Hello"
  ∧ _extract_text_from_xml_transcript caption_world single_text_markup empty_state
    = (Return [], empty_state)
  ∧ pattern_scan single_text_markup [lit "Hello"].
Proof.
  split; [reflexivity|].
  destruct (root_text_element_is_skipped caption_world single_text_markup
              [(lit "start", lit "0")] (lit "Hello") None empty_state eq_refl)
    as (_ & Hclaimed & _ & Hrun).
  { vm_compute. discriminate. }
  split; [etransitivity; [exact Hclaimed|vm_compute; reflexivity]|].
  split; [exact Hrun|].
  assert (findall_text single_text_markup = [lit "Hello"]) as <-
    by (vm_compute; reflexivity).
  apply findall_text_scan.
Defined.
